(** * TorchHook: the interception and dispatch core of [syft/frameworks/torch/hook.py]

    A shallow embedding of the Python code of [TorchHook] and the properties
    of its argument-unwrapping trampoline, its eligibility computation, its
    native renaming and its mixin installer. *)

From Stdlib Require Import ZArith String List.
From stdpp Require Import base option list gmap strings sorting functions.

#[local] Set Warnings "-register-all".

Local Open Scope Z_scope.
Local Open Scope string_scope.
Local Open Scope list_scope.

(** ** Python values, exceptions and the exception monad *)

Module Py.

(** The key of a failed dictionary lookup. *)
Inductive pykey :=
| KInt (n : nat)
| KStr (s : string).

(** The exceptions the modelled code can raise. *)
Inductive error :=
| KeyError (k : pykey)
| IndexError
| AttributeError (name : string)
| TypeError.

Inductive result (A : Type) :=
| Ok (a : A)
| Err (e : error).
Arguments Ok {A} a.
Arguments Err {A} e.

#[global] Instance result_ret : MRet result := fun A a => Ok a.
#[global] Instance result_bind : MBind result := fun A B f m =>
  match m with
  | Ok a => f a
  | Err e => Err e
  end.

Definition is_Ok {A} (r : result A) : Prop :=
  match r with Ok _ => True | Err _ => False end.

(** The class of an object, as far as [build_rule] observes it: its
    [__name__] and whether [isinstance(obj, PointerTensor)] holds. *)
Record pyclass := PyClass {
  cls_name : string;
  cls_isinstance_PointerTensor : bool
}.

(** The values that travel through the trampoline: [None], integers,
    lists, tuples and objects.  An object carries its class, an identity
    and its [child] attribute when it has one.  Objects of this model are
    neither iterable nor subscriptable. *)
Inductive value :=
| VNone
| VInt (n : Z)
| VList (xs : list value)
| VTuple (xs : list value)
| VObj (cls : pyclass) (ident : Z) (child : option value).

(** Induction over values that also visits the elements of sequences. *)
Section value_rect_nested.
Variable P : value → Prop.
Hypothesis HNone : P VNone.
Hypothesis HInt : ∀ n, P (VInt n).
Hypothesis HList : ∀ xs, Forall P xs → P (VList xs).
Hypothesis HTuple : ∀ xs, Forall P xs → P (VTuple xs).
Hypothesis HObjNone : ∀ cls ident, P (VObj cls ident None).
Hypothesis HObjSome : ∀ cls ident c, P c → P (VObj cls ident (Some c)).

Fixpoint value_ind_nested (v : value) : P v :=
  match v with
  | VNone => HNone
  | VInt n => HInt n
  | VList xs =>
      HList xs ((fix go (l : list value) : Forall P l :=
                   match l with
                   | [] => @List.Forall_nil _ P
                   | x :: l0 => @List.Forall_cons _ P x l0 (value_ind_nested x) (go l0)
                   end) xs)
  | VTuple xs =>
      HTuple xs ((fix go (l : list value) : Forall P l :=
                    match l with
                    | [] => @List.Forall_nil _ P
                    | x :: l0 => @List.Forall_cons _ P x l0 (value_ind_nested x) (go l0)
                    end) xs)
  | VObj cls ident child =>
      match child as o return P (VObj cls ident o) with
      | None => HObjNone cls ident
      | Some c => HObjSome cls ident c (value_ind_nested c)
      end
  end.
End value_rect_nested.

(** [iter(v)]: lists and tuples are iterable. *)
Definition iter_value (v : value) : result (list value) :=
  match v with
  | VList xs | VTuple xs => Ok xs
  | _ => Err TypeError
  end.

(** [v[i]] for a non-negative index; the objects of this model have no
    [__getitem__]. *)
Definition getitem (v : value) (i : nat) : result value :=
  match v with
  | VList xs | VTuple xs =>
      match xs !! i with
      | Some x => Ok x
      | None => Err IndexError
      end
  | _ => Err TypeError
  end.

(** [l[i]] on a Python list held as a Rocq list. *)
Definition list_getitem {A} (l : list A) (i : nat) : result A :=
  match l !! i with
  | Some x => Ok x
  | None => Err IndexError
  end.

(** [v.child] *)
Definition get_child (v : value) : result value :=
  match v with
  | VObj _ _ (Some c) => Ok c
  | _ => Err (AttributeError "child")
  end.

End Py.

Import Py.

(** ** The argument-unwrapping rule and the dispatch trampoline
    ([get_overloaded_method]) *)

Module Unwrap.

(** What [build_rule] returns: [0], [1], or a list or tuple of rules. *)
Inductive rule :=
| RZero
| ROne
| RList (rs : list rule)
| RTuple (rs : list rule).

(** [isinstance(args, PointerTensor) or args.__class__.__name__ == "LogTensor"] *)
Definition is_wrapped (cls : pyclass) : bool :=
  cls_isinstance_PointerTensor cls || String.eqb (cls_name cls) "LogTensor".

Fixpoint build_rule (args : value) : rule :=
  match args with
  | VList xs => RList (List.map build_rule xs)
  | VTuple xs => RTuple (List.map build_rule xs)
  | VObj cls _ _ => if is_wrapped cls then ROne else RZero
  | _ => RZero
  end.

(** [not r] *)
Definition rule_not (r : rule) : bool :=
  match r with
  | RZero => true
  | ROne => false
  | RList rs | RTuple rs => match rs with [] => true | _ => false end
  end.

(** [isinstance(r, (list, tuple))] *)
Definition rule_is_seq (r : rule) : bool :=
  match r with
  | RList _ | RTuple _ => true
  | _ => false
  end.

(** A Python closure taking one argument. *)
Abbreviation hookfn := (value → result value).

Definition one_fold (lambdas : list hookfn) (args : value) : result value :=
  l0 ← list_getitem lambdas 0; a0 ← getitem args 0; l0 a0.

Definition two_fold (lambdas : list hookfn) (args : value) : result value :=
  l0 ← list_getitem lambdas 0; a0 ← getitem args 0; r0 ← l0 a0;
  l1 ← list_getitem lambdas 1; a1 ← getitem args 1; r1 ← l1 a1;
  Ok (VTuple [r0; r1]).

Definition three_fold (lambdas : list hookfn) (args : value) : result value :=
  l0 ← list_getitem lambdas 0; a0 ← getitem args 0; r0 ← l0 a0;
  l1 ← list_getitem lambdas 1; a1 ← getitem args 1; r1 ← l1 a1;
  l2 ← list_getitem lambdas 2; a2 ← getitem args 2; r2 ← l2 a2;
  Ok (VTuple [r0; r1; r2]).

(** [folds = {1: one_fold, 2: two_fold, 3: three_fold}] *)
Definition folds : gmap nat (list hookfn → value → result value) :=
  <[1%nat := one_fold]> (<[2%nat := two_fold]> (<[3%nat := three_fold]> ∅)).

Definition folds_getitem (n : nat) : result (list hookfn → value → result value) :=
  match folds !! n with
  | Some f => Ok f
  | None => Err (KeyError (KInt n))
  end.

(** [build_args_hook(args, rules)].  The inner [lambdas_of] is the list
    comprehension over [zip(args, rules)]. *)
Fixpoint build_args_hook (args : value) (rules : rule) {struct rules} : result hookfn :=
  match rules with
  | RList rs | RTuple rs =>
      xs ← iter_value args;
      lambdas ←
        (fix lambdas_of (xs : list value) (rs : list rule) {struct rs}
           : result (list hookfn) :=
           match xs, rs with
           | a :: xs', r :: rs' =>
               l ← (if rule_not r then Ok (fun i => Ok i)
                    else if rule_is_seq r then build_args_hook a r
                    else Ok (fun i => get_child i));
               ls ← lambdas_of xs' rs';
               Ok (l :: ls)
           | _, _ => Ok []
           end) xs rs;
      f ← folds_getitem (length lambdas);
      Ok (fun x => f lambdas x)
  | _ => Err TypeError
  end.

(** The list comprehension of [build_args_hook], named. *)
Definition lambdas_of : list value → list rule → result (list hookfn) :=
  fix lambdas_of (xs : list value) (rs : list rule) {struct rs}
    : result (list hookfn) :=
    match xs, rs with
    | a :: xs', r :: rs' =>
        l ← (if rule_not r then Ok (fun i => Ok i)
             else if rule_is_seq r then build_args_hook a r
             else Ok (fun i => get_child i));
        ls ← lambdas_of xs' rs';
        Ok (l :: ls)
    | _, _ => Ok []
    end.

(** The part of the hook object the trampoline touches: the cache
    [args_hook_for_overloaded_attr], and a log of the operation names for
    which [build_rule] was invoked (call-count instrumentation, most recent
    first). *)
Record hook_self := HookSelf {
  args_hook_for_overloaded_attr : gmap string hookfn;
  build_rule_calls : list string
}.

(** The call of [attr] on the star-unpacked [new_args]: [attr] is the
    operation name handed to [get_overloaded_method], a [str]; calling it
    raises [TypeError], as does star-unpacking a value that is not
    iterable. *)
Definition call_attr (attr : string) (new_args : value) : result value :=
  _ ← iter_value new_args; Err TypeError.

(** The first statement of [overloaded_attr]: fill the cache on a miss. *)
Definition fill_cache (attr : string) (args : value) (hs : hook_self)
  : result unit * hook_self :=
  match args_hook_for_overloaded_attr hs !! attr with
  | Some _ => (Ok (), hs)
  | None =>
      let rule := build_rule args in
      let calls := attr :: build_rule_calls hs in
      match build_args_hook args rule with
      | Ok args_hook_function =>
          (Ok (),
           HookSelf (<[attr := args_hook_function]> (args_hook_for_overloaded_attr hs))
                    calls)
      | Err e => (Err e, HookSelf (args_hook_for_overloaded_attr hs) calls)
      end
  end.

(** The closure [overloaded_attr] of [get_overloaded_method(hook_self, attr)].
    The positional arguments arrive as a tuple; [kwargs] is accepted and
    never read. *)
Definition overloaded_attr (attr : string) (args : list value)
    (kwargs : list (string * value)) (hs : hook_self)
  : result value * hook_self :=
  let args := VTuple args in
  match fill_cache attr args hs with
  | (Err e, hs') => (Err e, hs')
  | (Ok _, hs') =>
      match args_hook_for_overloaded_attr hs' !! attr with
      | None => (Err (KeyError (KStr attr)), hs')
      | Some hook_args =>
          (new_args ← hook_args args; call_attr attr new_args, hs')
      end
  end.

(** The transformed arguments the trampoline computes before the call. *)
Definition new_args_of (attr : string) (args : list value) (hs : hook_self)
  : result value :=
  match fill_cache attr (VTuple args) hs with
  | (Err e, _) => Err e
  | (Ok _, hs') =>
      match args_hook_for_overloaded_attr hs' !! attr with
      | None => Err (KeyError (KStr attr))
      | Some hook_args => hook_args (VTuple args)
      end
  end.

(** The lambda the comprehension builds for one [(a, r)] pair. *)
Definition lambda_for (a : value) (r : rule) : result hookfn :=
  if rule_not r then Ok (fun i => Ok i)
  else if rule_is_seq r then build_args_hook a r
  else Ok (fun i => get_child i).

(** *** Reference descriptions used to state the properties *)

(** The arities the fold table serves. *)
Definition len_ok (n : nat) : bool := (1 <=? n)%nat && (n <=? 3)%nat.

(** Every non-empty list or tuple inside [v] (and [v] itself when it is
    one) has between one and three elements. *)
Fixpoint elem_arity_ok (v : value) : bool :=
  match v with
  | VList xs | VTuple xs =>
      match xs with
      | [] => true
      | _ => len_ok (length xs) && forallb elem_arity_ok xs
      end
  | _ => true
  end.

Definition call_arity_ok (args : list value) : bool :=
  len_ok (length args) && forallb elem_arity_ok args.

(** Every wrapped object reached through lists and tuples has a [child]. *)
Fixpoint has_children (v : value) : bool :=
  match v with
  | VObj cls _ child => if is_wrapped cls then bool_decide (is_Some child) else true
  | VList xs | VTuple xs => forallb has_children xs
  | _ => true
  end.

(** What a fold returns from the transformed elements: the bare element
    for one, a tuple otherwise. *)
Definition fold_result (ys : list value) : value :=
  match ys with
  | [y] => y
  | _ => VTuple ys
  end.

(** The value a slot is expected to hold after the rule derived from the
    call itself has been applied to it. *)
Fixpoint unwrapped (v : value) : value :=
  match v with
  | VObj cls _ (Some c) => if is_wrapped cls then c else v
  | VList xs | VTuple xs =>
      match xs with
      | [] => v
      | _ => fold_result (List.map unwrapped xs)
      end
  | _ => v
  end.

(** The hook built for a sequence from its own elements. *)
Definition seq_hook (xs : list value) : result hookfn :=
  lambdas ← lambdas_of xs (List.map build_rule xs);
  f ← folds_getitem (length lambdas);
  Ok (fun x => f lambdas x).

(** What is known of the lambda built for one element. *)
Definition lambda_ok (a : value) : Prop :=
  (elem_arity_ok a = true →
     ∃ l, lambda_for a (build_rule a) = Ok l ∧
          (has_children a = true → l a = Ok (unwrapped a)))
  ∧ (elem_arity_ok a = false →
     ∃ n, lambda_for a (build_rule a) = Err (KeyError (KInt n)) ∧ len_ok n = false).

Definition applies (l : hookfn) (x : value) : Prop := l x = Ok (unwrapped x).

(** The first call of an operation: derive the rule from the call's
    arguments and apply it to them. *)
Definition derive_and_apply (args : list value) : result value :=
  h ← build_args_hook (VTuple args) (build_rule (VTuple args)); h (VTuple args).

(** A run of trampoline calls, each an operation name with its positional
    arguments; exceptions are caught by the caller, the hook lives on. *)
Fixpoint run_calls (calls : list (string * list value)) (hs : hook_self) : hook_self :=
  match calls with
  | [] => hs
  | (attr, args) :: rest => run_calls rest (overloaded_attr attr args [] hs).2
  end.

(** How often [build_rule] ran for operation [attr]. *)
Definition derivation_count (attr : string) (hs : hook_self) : nat :=
  length (List.filter (String.eqb attr) (build_rule_calls hs)).

Definition empty_hook : hook_self := HookSelf ∅ [].

(** Every list or tuple inside [v], the empty ones included, has between
    one and three elements. *)
Fixpoint strict_arity_ok (v : value) : bool :=
  match v with
  | VList xs | VTuple xs => len_ok (length xs) && forallb strict_arity_ok xs
  | _ => true
  end.

(** A wrapped (pointer-like) value holding [c] as its child. *)
Definition wraps (v c : value) : Prop :=
  ∃ cls ident, v = VObj cls ident (Some c) ∧ is_wrapped cls = true.

(** A value that is neither wrapped nor a list or tuple. *)
Definition plain (v : value) : Prop :=
  match v with
  | VList _ | VTuple _ => False
  | VObj cls _ _ => is_wrapped cls = false
  | _ => True
  end.

(** A slot the rule passes through: a plain value or an empty sequence. *)
Definition passes_through (v : value) : Prop :=
  plain v ∨ v = VList [] ∨ v = VTuple [].

(** Two values have the same shape when [build_rule] cannot tell them
    apart: same nesting of lists and tuples, same wrapped positions. *)
Inductive same_shape : value → value → Prop :=
| shape_list xs ys : Forall2 same_shape xs ys → same_shape (VList xs) (VList ys)
| shape_tuple xs ys : Forall2 same_shape xs ys → same_shape (VTuple xs) (VTuple ys)
| shape_wrapped c1 i1 ch1 c2 i2 ch2 :
    is_wrapped c1 = true → is_wrapped c2 = true →
    same_shape (VObj c1 i1 ch1) (VObj c2 i2 ch2)
| shape_plain v w : plain v → plain w → same_shape v w.

End Unwrap.

Import Unwrap.

(** ** State: classes, modules, workers *)

Module State.

(** A state monad with exceptions: a raised exception keeps the state
    reached so far, as Python keeps the mutations made before a raise. *)
Definition stateE (S A : Type) : Type := S → result A * S.

#[global] Instance stateE_ret {S} : MRet (stateE S) := fun A a s => (Ok a, s).
#[global] Instance stateE_bind {S} : MBind (stateE S) := fun A B f m s =>
  match m s with
  | (Ok a, s') => f a s'
  | (Err e, s') => (Err e, s')
  end.

Definition raise {S A} (e : error) : stateE S A := fun s => (Err e, s).
Definition modify {S} (f : S → S) : stateE S unit := fun s => (Ok (), f s).

(** [for x in l: body(x)] *)
Fixpoint for_each {S A} (l : list A) (body : A → stateE S unit) : stateE S unit :=
  match l with
  | [] => mret ()
  | x :: l' => body x ≫= fun _ => for_each l' body
  end.

(** How the hook observes an attribute value: [inspect.ismethoddescriptor],
    [isinstance(_, types.FunctionType)], or neither. *)
Inductive attr_kind := KMethodDescriptor | KFunction | KOther.

(** An attribute value: [None], or an object with its kind, its
    [__qualname__] when it has one, and an identity. *)
Inductive pyattr :=
| PNone
| PObj (kind : attr_kind) (qualname : option string) (ident : string).

#[global] Instance attr_kind_eq_dec : EqDecision attr_kind.
Proof. solve_decision. Defined.
#[global] Instance pyattr_eq_dec : EqDecision pyattr.
Proof. solve_decision. Defined.

(** The class objects the hook works on. *)
Inductive pytype :=
| torch_Tensor
| TorchTensor
| PointerTensor
| OtherType (n : nat).

#[global] Instance pytype_eq_dec : EqDecision pytype.
Proof. solve_decision. Defined.

#[global] Instance pytype_countable : Countable pytype.
Proof.
  refine (inj_countable'
    (fun t => match t with
              | torch_Tensor => 0 | TorchTensor => 1 | PointerTensor => 2
              | OtherType n => 3 + n
              end)%nat
    (fun k => match k with
              | 0 => torch_Tensor | 1 => TorchTensor | 2 => PointerTensor
              | S (S (S n)) => OtherType n
              end)%nat _).
  by intros [].
Defined.

Record worker := Worker {
  worker_id : string;
  is_client_worker : bool;
  worker_hook : option nat
}.

(** The object [TorchAttributes(torch, self)] builds, as far as the hook
    reads it. *)
Record torch_attributes := TorchAttributes {
  TorchAttributes_exclude : list string
}.

(** The process state the hook reads and writes.  [classes t] is the
    attribute table of class [t] as [dir], [hasattr] and [getattr] see it
    (own and inherited bindings); [setattr] binds in that table.  The
    three classes are unrelated by inheritance, so binding a name in one
    leaves the tables of the others alone.  [syft_local_worker] and
    [syft_torch] are [None] while the attribute is unbound. *)
Record world := World {
  torch_hooked : bool;
  syft_torch : option torch_attributes;
  syft_local_worker : option (option worker);
  classes : pytype → gmap string pyattr;
  log_warnings : list string
}.

Definition string_le (a b : string) : Prop := String.leb a b = true.

#[global] Instance string_le_dec : RelDecision string_le.
Proof. intros a b. unfold string_le. apply _. Defined.

(** [dir(cls)]: the names of the table, sorted. *)
Definition dir (ns : gmap string pyattr) : list string :=
  merge_sort string_le (fst <$> map_to_list ns).

(** [getattr(cls, name)] *)
Definition getattr (ns : gmap string pyattr) (name : string) : result pyattr :=
  match ns !! name with
  | Some v => Ok v
  | None => Err (AttributeError name)
  end.

(** [hasattr(cls, name)] *)
Definition hasattr (ns : gmap string pyattr) (name : string) : bool :=
  bool_decide (is_Some (ns !! name)).

(** [setattr(cls, name, v)] on the class [t] of a world. *)
Definition setattr (t : pytype) (name : string) (v : pyattr) (w : world) : world :=
  World (torch_hooked w) (syft_torch w) (syft_local_worker w)
        (<[t := <[name := v]> (classes w t)]> (classes w)) (log_warnings w).

Definition set_torch_hooked (w : world) : world :=
  World true (syft_torch w) (syft_local_worker w) (classes w) (log_warnings w).

Definition set_syft_torch (ta : torch_attributes) (w : world) : world :=
  World (torch_hooked w) (Some ta) (syft_local_worker w) (classes w) (log_warnings w).

Definition set_syft_local_worker (lw : option worker) (w : world) : world :=
  World (torch_hooked w) (syft_torch w) (Some lw) (classes w) (log_warnings w).

(** [logging.warning(msg)] *)
Definition logging_warning (msg : string) (w : world) : world :=
  World (torch_hooked w) (syft_torch w) (syft_local_worker w) (classes w)
        (log_warnings w ++ [msg]).

End State.

Import State.

(** ** The hook: class [TorchHook] *)

Module TorchHook.

(** The attributes of a [TorchHook] instance.  [to_auto_overload] and
    [trampoline] (the cache [args_hook_for_overloaded_attr] with its
    instrumentation) are [None] while the attribute is unbound. *)
Record hook_obj := HookObj {
  hook_ident : nat;
  local_worker : option worker;
  to_auto_overload : option (gmap pytype (list string));
  trampoline : option hook_self
}.

Definition pytype_name (t : pytype) : string :=
  match t with
  | torch_Tensor => "torch.Tensor"
  | TorchTensor => "TorchTensor"
  | PointerTensor => "PointerTensor"
  | OtherType _ => "type"
  end.

(** [inspect.ismethoddescriptor(lit)] *)
Definition ismethoddescriptor (lit : pyattr) : bool :=
  match lit with
  | PObj KMethodDescriptor _ _ => true
  | _ => false
  end.

(** [isinstance(lit, types.FunctionType)] *)
Definition is_FunctionType (lit : pyattr) : bool :=
  match lit with
  | PObj KFunction _ _ => true
  | _ => false
  end.

(** [needle in hay] on strings *)
Fixpoint str_contains (needle hay : string) : bool :=
  String.prefix needle hay ||
  match hay with
  | EmptyString => false
  | String _ rest => str_contains needle rest
  end.

(** ["HookService" in lit.__qualname__], [False] on [AttributeError] *)
Definition is_service_func (lit : pyattr) : bool :=
  match lit with
  | PObj _ (Some q) _ => str_contains "HookService" q
  | _ => false
  end.

(** [re.match("native*", attr) is not None].  The pattern is the literal
    [nativ] followed by any number of [e], zero included, anchored at the
    start: it matches exactly the names that begin with [nativ]. *)
Definition re_match_native_star (attr : string) : bool :=
  String.prefix "nativ" attr.

(** The local list [exclude] of [_add_methods_from__torch_tensor]. *)
Definition exclude : list string :=
  [ "__class__"; "__delattr__"; "__dir__"; "__doc__"; "__dict__"; "__format__";
    "__getattribute__"; "__hash__"; "__init__"; "__init_subclass__";
    "__weakref__"; "__ne__"; "__new__"; "__reduce__"; "__reduce_ex__";
    "__setattr__"; "__sizeof__"; "__subclasshook__"; "_get_type"; "__str__";
    "__repr__"; "__eq__"; "__gt__"; "__ge__"; "__lt__"; "__le__" ].

(** The function object [new___init__] bound as [__init__].  Each
    registration builds a new closure over [hook_self] and [torch_tensor];
    the class tables do not tell these closures apart, and this one object
    stands for any of them. *)
Definition new___init___object : pyattr :=
  PObj KFunction
       (Some "TorchHook._add_registration_to___init__.<locals>.new___init__")
       "new___init__".

(** The [property] objects of [_hook_properties]; a property is a data
    descriptor, neither a method descriptor nor a function. *)
Definition property_object (name : string) : pyattr :=
  PObj KOther None ("property " +:+ name).

Section WithCollaborators.

(** [dir(object)], the attribute names of the universal base type. *)
Variable dir_object : list string.

(** The object [TorchAttributes(torch, self)] returns. *)
Variable new_TorchAttributes : torch_attributes.

(** One round of the loop of [_which_methods_should_we_auto_overload],
    over the names still to visit, with the list built so far. *)
Fixpoint which_methods_loop (w : world) (tensor_type : pytype)
    (attrs : list string) (to_overload : list string) : result (list string) :=
  match attrs with
  | [] => Ok to_overload
  | attr :: rest =>
      match syft_torch w with
      | None => Err (AttributeError "torch")
      | Some syft_torch =>
          if bool_decide (attr ∈ TorchAttributes_exclude syft_torch)
          then which_methods_loop w tensor_type rest to_overload
          else if negb (hasattr (classes w tensor_type) attr)
          then which_methods_loop w tensor_type rest to_overload
          else
            lit ← getattr (classes w tensor_type) attr;
            let is_base := bool_decide (attr ∈ dir_object) in
            let is_desc := ismethoddescriptor lit in
            let is_func := is_FunctionType lit in
            let is_service_func := is_service_func lit in
            let is_overloaded := re_match_native_star attr in
            if (is_desc || (is_func && negb is_service_func))
               && negb is_base && negb is_overloaded
            then which_methods_loop w tensor_type rest (to_overload ++ [attr])
            else which_methods_loop w tensor_type rest to_overload
      end
  end.

Definition _which_methods_should_we_auto_overload
    (tensor_type syft_type : pytype) : stateE world (list string) :=
  fun w => (which_methods_loop w tensor_type (dir (classes w syft_type)) [], w).

(** The body of the loop of [_rename_native_functions]. *)
Definition rename_native_function (tensor_type : pytype) (attr : string)
  : stateE world unit :=
  fun w =>
    match getattr (classes w tensor_type) attr with
    | Err e => (Err e, w)
    | Ok lit =>
        let w1 :=
          if bool_decide (("native_" +:+ attr) ∈ dir (classes w tensor_type))
          then w
          else setattr tensor_type ("native_" +:+ attr) lit w in
        (Ok (), setattr tensor_type attr PNone w1)
    end.

Definition _rename_native_functions (self : hook_obj) (tensor_type : pytype)
  : stateE world unit :=
  match to_auto_overload self with
  | None => raise (AttributeError "to_auto_overload")
  | Some d =>
      match d !! tensor_type with
      | None => raise (KeyError (KStr (pytype_name tensor_type)))
      | Some attrs => for_each attrs (rename_native_function tensor_type)
      end
  end.

(** The body of the loop of [_add_methods_from__torch_tensor]; the value
    is read from the global class [TorchTensor]. *)
Definition add_method (tensor_type : pytype) (attr : string) : stateE world unit :=
  if bool_decide (attr ∈ exclude) then mret ()
  else fun w =>
    match getattr (classes w TorchTensor) attr with
    | Err e => (Err e, w)
    | Ok v => (Ok (), setattr tensor_type attr v w)
    end.

Definition _add_methods_from__torch_tensor (tensor_type syft_type : pytype)
  : stateE world unit :=
  fun w => for_each (dir (classes w syft_type)) (add_method tensor_type) w.

Definition _add_registration_to___init__ (hook_self : hook_obj)
    (tensor_type : pytype) (torch_tensor : bool) : stateE world unit :=
  fun w =>
    let preserved :=
      if bool_decide ("native___init__" ∈ dir (classes w tensor_type))
      then (Ok (), w)
      else match getattr (classes w tensor_type) "__init__" with
           | Err e => (Err e, w)
           | Ok init => (Ok (), setattr tensor_type "native___init__" init w)
           end in
    match preserved with
    | (Err e, w1) => (Err e, w1)
    | (Ok _, w1) => (Ok (), setattr tensor_type "__init__" new___init___object w1)
    end.

Definition _hook_properties (tensor_type : pytype) : stateE world unit :=
  modify (setattr tensor_type "location" (property_object "location")) ≫= fun _ =>
  modify (setattr tensor_type "id_at_location" (property_object "id_at_location")) ≫= fun _ =>
  modify (setattr tensor_type "id" (property_object "id")) ≫= fun _ =>
  modify (setattr tensor_type "is_wrapper" (property_object "is_wrapper")).

Definition set_to_auto_overload (self : hook_obj) (t : pytype) (l : list string)
  : result hook_obj :=
  match to_auto_overload self with
  | None => Err (AttributeError "to_auto_overload")
  | Some d => Ok (HookObj (hook_ident self) (local_worker self)
                          (Some (<[t := l]> d)) (trampoline self))
  end.

Definition _hook_native_tensor (self : hook_obj) (tensor_type syft_type : pytype)
  : stateE world hook_obj :=
  _add_registration_to___init__ self tensor_type true ≫= fun _ =>
  _hook_properties tensor_type ≫= fun _ =>
  _which_methods_should_we_auto_overload tensor_type syft_type ≫= fun l =>
  (fun w => (set_to_auto_overload self tensor_type l, w)) ≫= fun self1 =>
  _rename_native_functions self1 tensor_type ≫= fun _ =>
  _add_methods_from__torch_tensor tensor_type syft_type ≫= fun _ =>
  mret self1.

Definition _hook_syft_tensor (self : hook_obj) (tensor_type syft_type : pytype)
  : stateE world unit :=
  _add_methods_from__torch_tensor syft_type TorchTensor.

(** The statements of [__init__] after the marker flag has been set. *)
Definition first_hook (self : hook_obj) (is_client : bool) : stateE world hook_obj :=
  modify (set_syft_torch new_TorchAttributes) ≫= fun _ =>
  let self1 :=
    match local_worker self with
    | None =>
        HookObj (hook_ident self)
                (Some (Worker "me" is_client (Some (hook_ident self))))
                (to_auto_overload self) (trampoline self)
    | Some lw =>
        HookObj (hook_ident self)
                (Some (Worker (worker_id lw) (is_client_worker lw)
                              (Some (hook_ident self))))
                (to_auto_overload self) (trampoline self)
    end in
  let self2 :=
    HookObj (hook_ident self1) (local_worker self1) (Some ∅)
            (Some (HookSelf ∅ [])) in
  _hook_native_tensor self2 torch_Tensor TorchTensor ≫= fun self3 =>
  _add_methods_from__torch_tensor PointerTensor TorchTensor ≫= fun _ =>
  modify (set_syft_local_worker (local_worker self3)) ≫= fun _ =>
  mret self3.

(** [TorchHook.__init__(self, torch, local_worker, is_client, verbose)];
    [ident] is the identity of the instance being initialised, and the
    result is that instance with the attributes it was given. *)
Definition __init__ (ident : nat) (local_worker : option worker)
    (is_client verbose : bool) : stateE world hook_obj :=
  fun w =>
    let self := HookObj ident local_worker None None in
    if torch_hooked w then
      let w1 := logging_warning "Torch was already hooked... skipping hooking process" w in
      match syft_local_worker w1 with
      | None => (Err (AttributeError "local_worker"), w1)
      | Some lw =>
          (Ok (HookObj ident lw (to_auto_overload self) (trampoline self)), w1)
      end
    else
      first_hook self is_client (set_torch_hooked w).

End WithCollaborators.

End TorchHook.

Import TorchHook.

(** ** Sample objects and the claims as the specification words them *)

Module Stated.

Definition PointerTensor_class : pyclass := PyClass "PointerTensor" true.
Definition Tensor_class : pyclass := PyClass "Tensor" false.

(** A native tensor and a pointer whose child it is. *)
Definition a_tensor : value := VObj Tensor_class 1 None.
Definition a_pointer : value := VObj PointerTensor_class 2 (Some a_tensor).

(** A wrapped value at slot [k] is replaced by its child, every other slot
    is identical to the input. *)
Definition slot_claim (args : list value) : Prop :=
  ∀ k p c, args !! k = Some p → wraps p c →
    ∃ out, derive_and_apply args = Ok (VTuple out) ∧
           out !! k = Some c ∧
           ∀ j a, j ≠ k → args !! j = Some a → out !! j = Some a.

Definition mixture (xs : list value) : Prop :=
  Forall (fun x => plain x ∨ ∃ c, wraps x c) xs.

Definition rebuilt (xs ys : list value) : Prop :=
  length ys = length xs ∧
  ∀ j x, xs !! j = Some x →
    (∀ c, wraps x c → ys !! j = Some c) ∧ (plain x → ys !! j = Some x).

(** A list argument is rebuilt as a list and a tuple argument as a tuple,
    with the order and length of the original. *)
Definition sequence_claim (args : list value) : Prop :=
  ∀ k xs, mixture xs →
    (args !! k = Some (VList xs) →
       ∃ out ys, derive_and_apply args = Ok (VTuple out) ∧
                 out !! k = Some (VList ys) ∧ rebuilt xs ys)
    ∧ (args !! k = Some (VTuple xs) →
       ∃ out ys, derive_and_apply args = Ok (VTuple out) ∧
                 out !! k = Some (VTuple ys) ∧ rebuilt xs ys).

(** A rule is built only for calls whose sequences, nested ones included,
    have between one and three elements. *)
Definition arity_claim (args : list value) : Prop :=
  is_Ok (build_args_hook (VTuple args) (build_rule (VTuple args))) →
  strict_arity_ok (VTuple args) = true.

(** The derivation runs at most once for every operation name. *)
Definition once_claim (calls : list (string * list value)) : Prop :=
  ∀ X, (derivation_count X (run_calls calls empty_hook) ≤ 1)%nat.

(** The test one round of [_which_methods_should_we_auto_overload] applies
    to a name, as a closed formula. *)
Definition should_overload (dir_object excl : list string)
    (tensor_ns : gmap string pyattr) (attr : string) : bool :=
  negb (bool_decide (attr ∈ excl)) &&
  match tensor_ns !! attr with
  | None => false
  | Some lit =>
      (ismethoddescriptor lit || (is_FunctionType lit && negb (is_service_func lit)))
      && negb (bool_decide (attr ∈ dir_object))
      && negb (re_match_native_star attr)
  end.

(** Eligibility as worded: a method descriptor or a plain function, and not
    a dispatch-service artifact, whichever of the two it is. *)
Definition eligibility_claim (dir_object : list string) (w : world)
    (tensor_type syft_type : pytype) : Prop :=
  ∀ ta l attr,
    syft_torch w = Some ta →
    (_which_methods_should_we_auto_overload dir_object tensor_type syft_type w).1 = Ok l →
    (attr ∈ l ↔
       attr ∈ dir (classes w syft_type) ∧
       (attr ∉ TorchAttributes_exclude ta) ∧
       ∃ lit, classes w tensor_type !! attr = Some lit ∧
              (ismethoddescriptor lit = true ∨ is_FunctionType lit = true) ∧
              (attr ∉ dir_object) ∧
              is_service_func lit = false ∧
              re_match_native_star attr = false).

(** A world in which the native tensor type carries a method descriptor
    whose qualified name holds the service marker. *)
Definition service_descriptor_world : world :=
  World false (Some (TorchAttributes [])) None
        (fun t =>
           match t with
           | torch_Tensor =>
               {[ "svcd" := PObj KMethodDescriptor (Some "HookService.svcd") "svcd" ]}
           | TorchTensor =>
               {[ "svcd" := PObj KFunction (Some "TorchTensor.svcd") "syft svcd" ]}
           | _ => ∅
           end)
        [].

(** [w'] differs from [w] in class tables at most. *)
Definition same_modules (w w' : world) : Prop :=
  torch_hooked w' = torch_hooked w ∧ syft_torch w' = syft_torch w ∧
  syft_local_worker w' = syft_local_worker w ∧ log_warnings w' = log_warnings w.

(** In the table [ns'], name [a] has been renamed from the table [ns]: its
    primary binding is [None] and its alternate name holds what it held in
    [ns], or the callable [a] had in [ns] when it held nothing. *)
Definition renamed_from (ns ns' : gmap string pyattr) (a : string) : Prop :=
  ns' !! a = Some PNone ∧
  ns' !! ("native_" +:+ a) =
    match ns !! ("native_" +:+ a) with
    | Some v => Some v
    | None => ns !! a
    end.

(** A computation that leaves the marker flag of the torch module as it
    found it, whether it returns or raises. *)
Definition keeps_flag {A} (m : stateE world A) : Prop :=
  ∀ w, torch_hooked (m w).2 = torch_hooked w.

Definition rehook_warning : string :=
  "Torch was already hooked... skipping hooking process".

Definition method_descriptor (q : string) : pyattr :=
  PObj KMethodDescriptor (Some q) q.

Definition function_object (q : string) : pyattr :=
  PObj KFunction (Some q) q.

(** A small process state before any hook: a native tensor type with two
    operations, one of them already preserved, and the reference and pointer
    types. *)
Definition sample_world : world :=
  World false (Some (TorchAttributes ["__repr__"; "send"])) None
        (fun t =>
           match t with
           | torch_Tensor =>
               list_to_map
                 [("add", method_descriptor "_TensorBase.add");
                  ("mul", method_descriptor "_TensorBase.mul");
                  ("native_mul", method_descriptor "_TensorBase.mul (first)");
                  ("storage", method_descriptor "_TensorBase.storage");
                  ("__init__", PObj KOther (Some "object.__init__") "object.__init__");
                  ("__repr__", function_object "Tensor.__repr__")]
           | TorchTensor =>
               list_to_map
                 [("add", function_object "TorchTensor.add");
                  ("mul", function_object "TorchTensor.mul");
                  ("send", function_object "TorchTensor.send");
                  ("__init__", function_object "TorchTensor.__init__");
                  ("__repr__", function_object "TorchTensor.__repr__")]
           | PointerTensor =>
               list_to_map
                 [("__init__", function_object "PointerTensor.__init__")]
           | OtherType _ => ∅
           end)
        [].

Definition sample_dir_object : list string := ["__init__"; "__repr__"].

Definition sample_hook : hook_obj :=
  HookObj 7 None (Some {[ torch_Tensor := ["add"; "mul"] ]}) (Some empty_hook).

(** The world a first hook leaves behind. *)
Definition hooked_world : world :=
  (__init__ sample_dir_object (TorchAttributes ["__repr__"; "send"])
            7 None true true sample_world).2.

End Stated.

Import Stated.

(** ** Notions used by the further properties of the trampoline *)

Module Later.

(** Whether [build_rule] classifies a value as wrapped. *)
Definition is_wrapped_value (v : value) : bool :=
  match v with
  | VObj cls _ _ => is_wrapped cls
  | _ => false
  end.

(** A flat call: every slot is a wrapped object, a plain value or an empty
    list or tuple. *)
Definition flat_call (args : list value) : Prop :=
  Forall (fun a => is_wrapped_value a = true ∨ passes_through a) args.

(** What a rule derived from the flat call [first] does to the slots of a
    later call: a slot is replaced by its child where the first call held a
    wrapped value there, and kept otherwise; left to right, stopping at the
    first slot without a [child]. *)
Fixpoint unwrap_by (first later : list value) : result (list value) :=
  match first, later with
  | f :: fs, x :: xs =>
      y ← (if is_wrapped_value f then get_child x else Ok x);
      ys ← unwrap_by fs xs;
      Ok (y :: ys)
  | _, _ => Ok []
  end.

(** The lambda the comprehension builds for a slot of a flat call. *)
Definition slot_lambda (a : value) : hookfn :=
  if is_wrapped_value a then (fun i => get_child i) else (fun i => Ok i).

(** The names [_hook_properties] binds. *)
Definition property_names : list string :=
  ["location"; "id_at_location"; "id"; "is_wrapper"].

(** The table of the tensor type when the eligibility computation of
    [_hook_native_tensor] reads it: the constructor replaced and preserved,
    the four properties installed. *)
Definition table_when_eligibility_runs (ns : gmap string pyattr) (name : string)
  : option pyattr :=
  if decide (name ∈ property_names) then Some (property_object name)
  else if decide (name = "__init__") then Some new___init___object
  else if decide (name = "native___init__")
       then match ns !! "native___init__" with
            | Some v => Some v
            | None => ns !! "__init__"
            end
       else ns !! name.

(** The local worker a first hook ends with: the default in-process worker
    ["me"] when none was supplied, the supplied worker otherwise, in both
    cases with its [hook] set to the hook being initialised. *)
Definition hook_worker (ident : nat) (is_client : bool) (supplied : option worker)
  : worker :=
  match supplied with
  | None => Worker "me" is_client (Some ident)
  | Some lw => Worker (worker_id lw) (is_client_worker lw) (Some ident)
  end.

End Later.

Import Later.

(** ** The properties of [_hook_properties] on instances *)

Module Instances.

(** What an instance attribute can hold: [None], a boolean, an integer or a
    reference to another object. *)
Inductive aval :=
| ANone
| ABool (b : bool)
| AInt (n : Z)
| ARef (loc : nat).

(** [bool(v)]; an object counts as true. *)
Definition truthy (v : aval) : bool :=
  match v with
  | ANone => false
  | ABool b => b
  | AInt n => negb (n =? 0)%Z
  | ARef _ => true
  end.

(** An object: whether it is an instance of the tensor type the properties
    were installed on, and its instance dictionary.  The class is taken as
    [_hook_properties] leaves it: on such an instance the names [location],
    [id_at_location], [id] and [is_wrapper] are the four properties, and the
    names the properties read and write ([child], [_id], [_is_wrapper]) are
    not class attributes.  Every other name, and every name of an instance
    of another class, is kept in the instance dictionary. *)
Record instance := Instance {
  hooked : bool;
  fields : gmap string aval
}.

(** The outcome of an attribute access: the value or the exception, with
    the heap it leaves; [None] when the chain of children is deeper than the
    depth allowed. *)
Definition outcome (A : Type) : Type := option (result A * gmap nat instance).

(** [self.<name>] for a name kept in the instance dictionary. *)
Definition read_field (h : gmap nat instance) (self : nat) (name : string)
  : result aval :=
  match h !! self with
  | Some o =>
      match fields o !! name with
      | Some v => Ok v
      | None => Err (AttributeError name)
      end
  | None => Err (AttributeError name)
  end.

(** [self.<name> = v] for a name kept in the instance dictionary. *)
Definition write_field (h : gmap nat instance) (self : nat) (name : string)
    (v : aval) : gmap nat instance :=
  match h !! self with
  | Some o => <[self := Instance (hooked o) (<[name := v]> (fields o))]> h
  | None => h
  end.

(** The getter of [is_wrapper]. *)
Definition is_wrapper (h : gmap nat instance) (self : nat)
  : result aval * gmap nat instance :=
  let h1 :=
    match read_field h self "_is_wrapper" with
    | Ok _ => h
    | Err _ => write_field h self "_is_wrapper" (ABool false)
    end in
  (read_field h1 self "_is_wrapper", h1).

(** The setter of [is_wrapper]. *)
Definition is_wrapper_setter (h : gmap nat instance) (self : nat)
    (it_is_a_wrapper : aval) : gmap nat instance :=
  write_field h self "_is_wrapper" it_is_a_wrapper.

Section Properties.

(** Attribute access on another object, one level deeper. *)
Variable getattr_rec : gmap nat instance → nat → string → outcome aval.
Variable setattr_rec : gmap nat instance → nat → string → aval → outcome unit.

(** [v.<name>] for a value read from a field. *)
Definition attr_of (h : gmap nat instance) (v : aval) (name : string) : outcome aval :=
  match v with
  | ARef c => getattr_rec h c name
  | _ => Some (Err (AttributeError name), h)
  end.

(** The getter of [location]: [self.child.location]. *)
Definition location (h : gmap nat instance) (self : nat) : outcome aval :=
  match read_field h self "child" with
  | Err e => Some (Err e, h)
  | Ok child => attr_of h child "location"
  end.

(** The getter of [id_at_location]: [self.child.id_at_location]. *)
Definition id_at_location (h : gmap nat instance) (self : nat) : outcome aval :=
  match read_field h self "child" with
  | Err e => Some (Err e, h)
  | Ok child => attr_of h child "id_at_location"
  end.

(** The getter of [id]. *)
Definition id_getter (h : gmap nat instance) (self : nat) : outcome aval :=
  match is_wrapper h self with
  | (Err e, h1) => Some (Err e, h1)
  | (Ok w, h1) =>
      if truthy w then
        match read_field h1 self "child" with
        | Err e => Some (Err e, h1)
        | Ok child => attr_of h1 child "id"
        end
      else Some (read_field h1 self "_id", h1)
  end.

(** The setter of [id]. *)
Definition id_setter (h : gmap nat instance) (self : nat) (new_id : aval)
  : outcome unit :=
  match is_wrapper h self with
  | (Err e, h1) => Some (Err e, h1)
  | (Ok w, h1) =>
      if truthy w then
        match read_field h1 self "child" with
        | Err e => Some (Err e, h1)
        | Ok (ARef c) => setattr_rec h1 c "id" new_id
        | Ok _ => Some (Err (AttributeError "id"), h1)
        end
      else Some (Ok (), write_field h1 self "_id" new_id)
  end.

End Properties.

(** [obj.<name>] on any object, following children at most [depth] deep. *)
Fixpoint instance_getattr (depth : nat) (h : gmap nat instance) (obj : nat)
    (name : string) : outcome aval :=
  match depth with
  | O => None
  | S d =>
      match h !! obj with
      | None => Some (Err (AttributeError name), h)
      | Some o =>
          if hooked o then
            if String.eqb name "location" then location (instance_getattr d) h obj
            else if String.eqb name "id_at_location"
                 then id_at_location (instance_getattr d) h obj
            else if String.eqb name "id" then id_getter (instance_getattr d) h obj
            else if String.eqb name "is_wrapper" then Some (is_wrapper h obj)
            else Some (read_field h obj name, h)
          else Some (read_field h obj name, h)
      end
  end.

(** [obj.<name> = v] on any object; [location] and [id_at_location] are
    properties without a setter. *)
Fixpoint instance_setattr (depth : nat) (h : gmap nat instance) (obj : nat)
    (name : string) (v : aval) : outcome unit :=
  match depth with
  | O => None
  | S d =>
      match h !! obj with
      | None => Some (Err (AttributeError name), h)
      | Some o =>
          if hooked o then
            if String.eqb name "location" || String.eqb name "id_at_location"
            then Some (Err (AttributeError name), h)
            else if String.eqb name "id" then id_setter (instance_setattr d) h obj v
            else if String.eqb name "is_wrapper"
                 then Some (Ok (), is_wrapper_setter h obj v)
            else Some (Ok (), write_field h obj name v)
          else Some (Ok (), write_field h obj name v)
      end
  end.

(** A tensor whose instance dictionary is still empty, alone on the heap. *)
Definition fresh_tensor : instance := Instance true ∅.

Definition fresh_heap : gmap nat instance := {[ 0%nat := fresh_tensor ]}.

(** A wrapper at 0 whose child at 1 is an object of another class. *)
Definition wrapper_tensor : instance :=
  Instance true {[ "_is_wrapper" := ABool true; "child" := ARef 1 ]}.

Definition pointer_child : instance :=
  Instance false {[ "location" := AInt 5; "id_at_location" := AInt 6 ]}.

Definition wrapper_heap : gmap nat instance :=
  {[ 0%nat := wrapper_tensor; 1%nat := pointer_child ]}.

End Instances.

Import Instances.

(** * Construction of a tensor *)

Module Construction.

(** The state a constructor call runs in: the module state the hook works
    on, and the objects of the process, tensors and workers alike.  What a
    worker has registered is part of the worker's object. *)
Record process := Process {
  modules : world;
  heap : gmap nat instance
}.

Section Initializer.

(** [native___init__], the construction logic of the tensor library kept
    under the alternate name: it works on the instance it is called on. *)
Variable native___init__ :
  list value → list (string * value) → gmap string aval → result (gmap string aval).

(** The identity token an instance gets when the caller supplies none. *)
Variable new_id : aval.

(** Where the object of a worker lives. *)
Variable worker_object : worker → nat.

(** [hook_self.local_worker] as an attribute value. *)
Definition owner_of (hook_self : hook_obj) : aval :=
  match local_worker hook_self with
  | Some wk => ARef (worker_object wk)
  | None => ANone
  end.

Definition id_token (id : option Z) : aval :=
  match id with
  | Some z => AInt z
  | None => new_id
  end.

(** [obj.<name> = v] for each pair in turn, up to the first exception. *)
Fixpoint assign_all (depth : nat) (h : gmap nat instance) (obj : nat)
    (l : list (string * aval)) : outcome unit :=
  match l with
  | [] => Some (Ok (), h)
  | (name, v) :: rest =>
      match instance_setattr depth h obj name v with
      | Some (Ok _, h1) => assign_all depth h1 obj rest
      | other => other
      end
  end.

(** The call of [cls.native___init__] on [init_args] and [init_kwargs], skipped when
    [torch_tensor] is set (the flag's meaning in the docstring of
    [_add_registration_to___init__]). *)
Definition native_construction (torch_tensor : bool) (init_args : list value)
    (init_kwargs : list (string * value)) (h : gmap nat instance) (cls : nat)
  : result (gmap nat instance) :=
  if torch_tensor then Ok h
  else
    match h !! cls with
    | None => Err (AttributeError "native___init__")
    | Some o =>
        fs ← native___init__ init_args init_kwargs (fields o);
        Ok (<[cls := Instance (hooked o) fs]> h)
    end.

(** The attributes the system adds to a value: the [is_wrapper] flag, false
    for a native value, the identity token and the owner, which is the local
    worker of the hook as no owner reaches the initializer. *)
Definition identity_metadata (hook_self : hook_obj) (id : option Z)
  : list (string * aval) :=
  [ ("is_wrapper", ABool false); ("id", id_token id); ("owner", owner_of hook_self) ].

(** Modelled from the spec: [initialize_tensor] of
    [syft.frameworks.torch.tensors.abstract], which is not among the sources.
    It is the uniform initializer of section 4.2: it invokes the original
    construction logic, reached through the alternate name, and then layers
    the identity metadata on the instance, the attributes of section 3.  It
    calls no method of a worker (section 6) and registers nothing: the
    docstring of [_add_registration_to___init__] has auto-registration
    disabled.  Its keyword arguments are [hook_self], [cls], [id],
    [torch_tensor], [init_args], [init_kwargs], in that order. *)
Definition initialize_tensor (depth : nat) (hook_self : hook_obj) (cls : nat)
    (id : option Z) (torch_tensor : bool) (init_args : list value)
    (init_kwargs : list (string * value)) (p : process)
  : option (result unit * process) :=
  match native_construction torch_tensor init_args init_kwargs (heap p) cls with
  | Err e => Some (Err e, p)
  | Ok h0 =>
      match assign_all depth h0 cls (identity_metadata hook_self id) with
      | Some (r, h1) => Some (r, Process (modules p) h1)
      | None => None
      end
  end.

(** The closure [new___init__(cls, *args, owner, id, register, **kwargs)]
    over [hook_self] and [torch_tensor].  Its body is the one call of
    [initialize_tensor]; the registration that would follow is commented out
    in the source.  [depth] bounds the chain of children an attribute access
    may follow. *)
Definition new___init__ (depth : nat) (hook_self : hook_obj) (torch_tensor : bool)
    (cls : nat) (args : list value)
    (owner : option worker) (id : option Z) (register : bool)
    (kwargs : list (string * value)) (p : process)
  : option (result unit * process) :=
  initialize_tensor depth hook_self cls id torch_tensor args kwargs p.

End Initializer.

(** A native construction that accepts every call and leaves the instance
    as it is, and one that refuses every call. *)
Definition accepting_native___init__ (args : list value)
    (kwargs : list (string * value)) (fs : gmap string aval)
  : result (gmap string aval) := Ok fs.

Definition refusing_native___init__ (args : list value)
    (kwargs : list (string * value)) (fs : gmap string aval)
  : result (gmap string aval) := Err TypeError.

(** A process with a fresh tensor at 0 and the objects of two workers at 5
    and 6. *)
Definition worker_at (wk : worker) : nat :=
  if String.eqb (worker_id wk) "me" then 5%nat else 6%nat.

Definition sample_process : process :=
  Process sample_world
          {[ 0%nat := fresh_tensor; 5%nat := Instance false ∅; 6%nat := Instance false ∅ ]}.

End Construction.

Import Construction.

(** * Properties *)

(** ** The unwrap rule *)

Section UnwrapFacts.

Lemma folds_lookup_1 : folds !! 1%nat = Some one_fold.
Proof. reflexivity. Qed.

Lemma folds_lookup_2 : folds !! 2%nat = Some two_fold.
Proof. reflexivity. Qed.

Lemma folds_lookup_3 : folds !! 3%nat = Some three_fold.
Proof. reflexivity. Qed.

Lemma folds_lookup_None n : len_ok n = false → folds !! n = None.
Proof.
  intros H. unfold folds.
  assert (n ≠ 1 ∧ n ≠ 2 ∧ n ≠ 3)%nat as (H1 & H2 & H3).
  { unfold len_ok in H. apply andb_false_iff in H as [H|H];
      [apply Nat.leb_gt in H | apply Nat.leb_gt in H]; lia. }
  rewrite !lookup_insert_ne by done. apply lookup_empty.
Qed.

Lemma folds_getitem_bad n :
  len_ok n = false → folds_getitem n = Err (KeyError (KInt n)).
Proof. intros H. unfold folds_getitem. by rewrite folds_lookup_None. Qed.

Lemma lambdas_of_cons a xs r rs :
  lambdas_of (a :: xs) (r :: rs) =
  (l ← lambda_for a r; ls ← lambdas_of xs rs; Ok (l :: ls)).
Proof. reflexivity. Qed.

Lemma build_args_hook_VTuple xs :
  build_args_hook (VTuple xs) (build_rule (VTuple xs)) = seq_hook xs.
Proof. reflexivity. Qed.

Lemma lambdas_of_spec xs :
  Forall lambda_ok xs →
  (forallb elem_arity_ok xs = true →
     ∃ ls, lambdas_of xs (List.map build_rule xs) = Ok ls ∧ length ls = length xs ∧
           (forallb has_children xs = true → Forall2 applies ls xs))
  ∧ (forallb elem_arity_ok xs = false →
     ∃ n, lambdas_of xs (List.map build_rule xs) = Err (KeyError (KInt n)) ∧
          len_ok n = false).
Proof.
  induction 1 as [|a xs [Hok Hbad] _ [IHok IHbad]]; split.
  - intros _. exists []. repeat split. intros _. constructor.
  - discriminate.
  - cbn [forallb List.map]. intros [Ha Hxs]%andb_true_iff.
    destruct (Hok Ha) as (l & Hl & Hla). destruct (IHok Hxs) as (ls & Hls & Hlen & Hall).
    exists (l :: ls). rewrite lambdas_of_cons, Hl. cbn. rewrite Hls. cbn.
    repeat split; [by rewrite Hlen|].
    intros [Hca Hcxs]%andb_true_iff. constructor; [by apply Hla | by apply Hall].
  - cbn [forallb List.map]. intros Hf. rewrite lambdas_of_cons.
    destruct (elem_arity_ok a) eqn:Ha.
    + destruct (Hok eq_refl) as (l & Hl & _). destruct (IHbad Hf) as (n & Hn & Hlen).
      exists n. rewrite Hl. cbn. rewrite Hn. done.
    + destruct (Hbad eq_refl) as (n & Hn & Hlen). exists n. by rewrite Hn.
Qed.

Lemma fold_applies ls xs :
  Forall2 applies ls xs → len_ok (length xs) = true →
  ∃ f, folds_getitem (length ls) = Ok f ∧
       f ls (VList xs) = Ok (fold_result (List.map unwrapped xs)) ∧
       f ls (VTuple xs) = Ok (fold_result (List.map unwrapped xs)).
Proof.
  intros Hall Hlen.
  destruct Hall as [|l1 x1 ls xs H1 Hall]; [discriminate|].
  destruct Hall as [|l2 x2 ls xs H2 Hall].
  { exists one_fold. unfold applies in *. cbn. by rewrite H1. }
  destruct Hall as [|l3 x3 ls xs H3 Hall].
  { exists two_fold. unfold applies in *. cbn. by rewrite H1, H2. }
  destruct Hall as [|l4 x4 ls xs H4 Hall].
  { exists three_fold. unfold applies in *. cbn. by rewrite H1, H2, H3. }
  discriminate.
Qed.

Lemma seq_hook_spec xs :
  Forall lambda_ok xs →
  (len_ok (length xs) && forallb elem_arity_ok xs = true →
     ∃ h, seq_hook xs = Ok h ∧
          (forallb has_children xs = true →
             h (VList xs) = Ok (fold_result (List.map unwrapped xs)) ∧
             h (VTuple xs) = Ok (fold_result (List.map unwrapped xs))))
  ∧ (len_ok (length xs) && forallb elem_arity_ok xs = false →
     ∃ n, seq_hook xs = Err (KeyError (KInt n)) ∧ len_ok n = false).
Proof.
  intros HP. destruct (lambdas_of_spec xs HP) as [Hok Hbad]. unfold seq_hook. split.
  - intros [Hlen Hxs]%andb_true_iff.
    destruct (Hok Hxs) as (ls & -> & Hl & Hall). cbn.
    destruct (folds_getitem (length ls)) as [f|e] eqn:Hf.
    + cbn. eexists. split; [reflexivity|]. intros Hch.
      destruct (fold_applies ls xs (Hall Hch) Hlen) as (f' & Hf' & HL & HT).
      rewrite Hf in Hf'. by injection Hf' as ->.
    + exfalso. unfold folds_getitem in Hf. rewrite Hl in Hf.
      destruct xs as [|? [|? [|? [|]]]]; discriminate.
  - intros Hf. destruct (forallb elem_arity_ok xs) eqn:Hxs.
    + rewrite andb_true_r in Hf. destruct (Hok eq_refl) as (ls & -> & Hl & _). cbn.
      exists (length xs). rewrite Hl, folds_getitem_bad by done. done.
    + destruct (Hbad eq_refl) as (n & -> & Hn). by exists n.
Qed.

Lemma lambda_for_spec a : lambda_ok a.
Proof.
  induction a as [|n|xs IH|xs IH|cls ident|cls ident c _] using value_ind_nested.
  - split; [|discriminate]. intros _. by eexists.
  - split; [|discriminate]. intros _. by eexists.
  - destruct xs as [|x xs]; [split; [|discriminate]; intros _; by eexists|].
    destruct (seq_hook_spec _ IH) as [Hok Hbad]. split.
    + intros Ha. destruct (Hok Ha) as (h & Hh & Happ). exists h. split; [exact Hh|].
      intros Hch. by apply Happ.
    + intros Ha. exact (Hbad Ha).
  - destruct xs as [|x xs]; [split; [|discriminate]; intros _; by eexists|].
    destruct (seq_hook_spec _ IH) as [Hok Hbad]. split.
    + intros Ha. destruct (Hok Ha) as (h & Hh & Happ). exists h. split; [exact Hh|].
      intros Hch. by apply Happ.
    + intros Ha. exact (Hbad Ha).
  - split; [|discriminate]. intros _. unfold lambda_for. cbn.
    destruct (is_wrapped cls) eqn:Hw; cbn; eexists; (split; [reflexivity|]).
    + discriminate.
    + done.
  - split; [|discriminate]. intros _. unfold lambda_for. cbn.
    destruct (is_wrapped cls) eqn:Hw; cbn; eexists; (split; [reflexivity|]);
      cbn; by rewrite ?Hw.
Qed.

(** The hook derived from a call's own arguments, applied to them. *)
Lemma call_hook_spec (args : list value) :
  (call_arity_ok args = true →
     ∃ h, build_args_hook (VTuple args) (build_rule (VTuple args)) = Ok h ∧
          (forallb has_children args = true →
             h (VTuple args) = Ok (fold_result (List.map unwrapped args))))
  ∧ (call_arity_ok args = false →
     ∃ n, build_args_hook (VTuple args) (build_rule (VTuple args))
            = Err (KeyError (KInt n)) ∧ len_ok n = false).
Proof.
  rewrite build_args_hook_VTuple.
  assert (Forall lambda_ok args) as HP by (apply Forall_forall; intros; apply lambda_for_spec).
  destruct (seq_hook_spec args HP) as [Hok Hbad]. split.
  - intros Ha. destruct (Hok Ha) as (h & Hh & Happ). exists h. split; [done|].
    intros Hch. by apply Happ.
  - exact Hbad.
Qed.

End UnwrapFacts.

(** ** The trampoline *)

Section TrampolineFacts.

Lemma map_lookup {A B} (f : A → B) (l : list A) (k : nat) :
  List.map f l !! k = f <$> (l !! k).
Proof. revert k. induction l as [|x l IH]; intros [|k]; cbn; auto. Qed.

Lemma unwrapped_wraps a c : wraps a c → unwrapped a = c.
Proof. intros (cls & ident & -> & Hw). cbn. by rewrite Hw. Qed.

Lemma unwrapped_plain a : plain a → unwrapped a = a.
Proof.
  destruct a as [| | | |cls ident [c|]]; cbn; try done. by intros ->.
Qed.

Lemma unwrapped_passes_through a : passes_through a → unwrapped a = a.
Proof. intros [H|[->| ->]]; [by apply unwrapped_plain|done|done]. Qed.

Lemma fold_result_tuple ys : (2 ≤ length ys)%nat → fold_result ys = VTuple ys.
Proof. destruct ys as [|y1 [|y2 ys]]; cbn; [lia|lia|done]. Qed.

Lemma len_ok_2_3 n : (2 ≤ n ≤ 3)%nat → len_ok n = true.
Proof.
  intros [H1 H2]. unfold len_ok. apply andb_true_iff.
  split; apply Nat.leb_le; lia.
Qed.

(** A call of two or three arguments: the transformed tuple, slot by slot. *)
Lemma derive_and_apply_slots (args : list value) :
  (2 ≤ length args ≤ 3)%nat →
  forallb elem_arity_ok args = true →
  forallb has_children args = true →
  derive_and_apply args = Ok (VTuple (List.map unwrapped args)).
Proof.
  intros Hlen Har Hch. unfold derive_and_apply.
  destruct (call_hook_spec args) as [Hok _].
  destruct Hok as (h & -> & Happ).
  { unfold call_arity_ok. by rewrite len_ok_2_3, Har. }
  cbn. rewrite (Happ Hch), fold_result_tuple; [done|].
  rewrite length_map. lia.
Qed.

(** The rule of [add(pointerValue, 5)]. *)
Example build_rule_pointer_and_int :
  build_rule (VTuple [a_pointer; VInt 5]) = RTuple [ROne; RZero].
Proof. reflexivity. Qed.

(** [one_fold] returns the transformed element itself, not a tuple of it. *)
Example one_argument_call_gives_bare_child :
  derive_and_apply [a_pointer] = Ok a_tensor.
Proof. by vm_compute. Qed.

(** A nested list of a pointer and an integer comes back as a tuple. *)
Example nested_list_comes_back_as_tuple :
  derive_and_apply [VInt 5; VList [a_pointer; VInt 7]]
    = Ok (VTuple [VInt 5; VTuple [a_tensor; VInt 7]]).
Proof. by vm_compute. Qed.

(** The rule cached by [add(pointerValue, 5)] applied to later calls of
    another shape: two plain tensors have no [child] to give, and the
    arguments past the second are dropped. *)
Example cached_rule_on_other_shapes :
  let hs1 := (overloaded_attr "add" [a_pointer; VInt 5] [] empty_hook).2 in
  new_args_of "add" [a_tensor; a_tensor] hs1 = Err (AttributeError "child")
  ∧ new_args_of "add" [a_pointer; VInt 5; VInt 6; VInt 7] hs1
      = Ok (VTuple [a_tensor; VInt 5]).
Proof. split; by vm_compute. Qed.

Lemma call_attr_raises attr new_args : ∃ e, call_attr attr new_args = Err e.
Proof. unfold call_attr. destruct (iter_value new_args); cbn; eauto. Qed.

(** C1.  Evaluated on [add(pointerValue, 5)] with an empty cache, the
    trampoline computes the transformed arguments [(pointerValue.child, 5)]
    and then calls [attr], the operation name itself, which raises
    [TypeError]; no alternate-named original is looked up or invoked.  For
    every name, arguments and cache, the trampoline returns no result. *)
Theorem trampoline_calls_the_operation_name :
  new_args_of "add" [a_pointer; VInt 5] empty_hook = Ok (VTuple [a_tensor; VInt 5])
  ∧ (overloaded_attr "add" [a_pointer; VInt 5] [] empty_hook).1 = Err TypeError
  ∧ ∀ attr args kwargs hs, ¬ is_Ok (overloaded_attr attr args kwargs hs).1.
Proof.
  split; [by vm_compute|]. split; [by vm_compute|].
  intros attr args kwargs hs. unfold overloaded_attr.
  destruct (fill_cache attr (VTuple args) hs) as [[u|e] hs']; cbn; [|tauto].
  destruct (args_hook_for_overloaded_attr hs' !! attr) as [hook_args|]; cbn; [|tauto].
  destruct (hook_args (VTuple args)) as [new_args|e]; cbn; [|tauto].
  destruct (call_attr_raises attr new_args) as [e ->]. tauto.
Qed.

(** C2, as amended.  For a call of two or three positional arguments in
    which every non-empty nested list or tuple has one to three elements and
    every wrapped value has a child, applying the rule derived from the call
    gives a tuple of the same length; a slot that held a wrapped value holds
    its child, and a slot that held a plain value or an empty list or tuple
    holds the input value itself. *)
Theorem unwrap_rule_replaces_wrapped_slots (args : list value) :
  (2 ≤ length args ≤ 3)%nat →
  forallb elem_arity_ok args = true →
  forallb has_children args = true →
  ∃ out, derive_and_apply args = Ok (VTuple out) ∧ length out = length args ∧
         ∀ k a, args !! k = Some a →
           (∀ c, wraps a c → out !! k = Some c) ∧
           (passes_through a → out !! k = Some a).
Proof.
  intros Hlen Har Hch. exists (List.map unwrapped args).
  split; [by apply derive_and_apply_slots|]. split; [apply length_map|].
  intros k a Hk. rewrite map_lookup, Hk. cbn. split.
  - intros c Hw. by rewrite (unwrapped_wraps a c).
  - intros Hp. by rewrite unwrapped_passes_through.
Qed.

Lemma unwrap_rule_replaces_wrapped_slots_witness :
  ∃ out, derive_and_apply [a_pointer; VInt 5] = Ok (VTuple out) ∧
         length out = length [a_pointer; VInt 5] ∧
         ∀ k a, [a_pointer; VInt 5] !! k = Some a →
           (∀ c, wraps a c → out !! k = Some c) ∧
           (passes_through a → out !! k = Some a).
Proof.
  apply (unwrap_rule_replaces_wrapped_slots [a_pointer; VInt 5]);
    [cbn; lia | reflexivity | reflexivity].
Defined.

Lemma a_pointer_wraps : wraps a_pointer a_tensor.
Proof. exists PointerTensor_class, 2. by split. Qed.

(** C2 as worded fails: next to a pointer, a list argument comes back as a
    tuple, and a call of four arguments comes back as no tuple at all. *)
Lemma slot_claim_counterexample :
  ¬ slot_claim [a_pointer; VList [VInt 1; VInt 2]]
  ∧ ¬ slot_claim [a_pointer; VInt 1; VInt 2; VInt 3].
Proof.
  split; intros H;
    destruct (H 0%nat a_pointer a_tensor eq_refl a_pointer_wraps) as (out & Hd & _ & Hj).
  - vm_compute in Hd. injection Hd as <-.
    specialize (Hj 1%nat (VList [VInt 1; VInt 2])). cbn in Hj.
    by specialize (Hj ltac:(lia) eq_refl).
  - vm_compute in Hd. discriminate.
Qed.

(** C3, as amended.  In such a call, a list or tuple argument of two or
    three elements is rebuilt as a tuple, whichever of the two it was, with
    the length and order of the original; its wrapped elements are replaced
    by their children and its plain elements are kept. *)
Theorem sequence_argument_rebuilt_as_tuple (args : list value) k xs :
  (2 ≤ length args ≤ 3)%nat →
  forallb elem_arity_ok args = true →
  forallb has_children args = true →
  args !! k = Some (VList xs) ∨ args !! k = Some (VTuple xs) →
  (2 ≤ length xs ≤ 3)%nat →
  ∃ out ys, derive_and_apply args = Ok (VTuple out) ∧
            out !! k = Some (VTuple ys) ∧ rebuilt xs ys.
Proof.
  intros Hlen Har Hch Hk Hxs.
  exists (List.map unwrapped args), (List.map unwrapped xs).
  split; [by apply derive_and_apply_slots|]. split.
  - rewrite map_lookup.
    assert (Hseq : ∀ xs', (2 ≤ length xs')%nat →
              unwrapped (VList xs') = VTuple (List.map unwrapped xs') ∧
              unwrapped (VTuple xs') = VTuple (List.map unwrapped xs')).
    { intros [|x1 [|x2 xs']]; cbn; (lia || done). }
    destruct (Hseq xs ltac:(lia)) as [HL HT].
    destruct Hk as [-> | ->]; unfold fmap, option_fmap, option_map; congruence.
  - split; [apply length_map|]. intros j x Hj. rewrite map_lookup, Hj. cbn. split.
    + intros c Hw. by rewrite (unwrapped_wraps x c).
    + intros Hp. by rewrite unwrapped_plain.
Qed.

Lemma sequence_argument_rebuilt_as_tuple_witness :
  ∃ out ys, derive_and_apply [VInt 5; VList [a_pointer; VInt 7]] = Ok (VTuple out) ∧
            out !! 1%nat = Some (VTuple ys) ∧ rebuilt [a_pointer; VInt 7] ys.
Proof.
  apply (sequence_argument_rebuilt_as_tuple
           [VInt 5; VList [a_pointer; VInt 7]] 1 [a_pointer; VInt 7]);
    [cbn; lia | reflexivity | reflexivity | left; reflexivity | cbn; lia].
Defined.

(** C3 as worded fails: a list of a pointer and an integer is rebuilt as a
    tuple, not as a list. *)
Lemma sequence_claim_counterexample :
  ¬ sequence_claim [VInt 5; VList [a_pointer; VInt 7]].
Proof.
  intros H.
  destruct (H 1%nat [a_pointer; VInt 7]) as [HL _].
  { unfold mixture. constructor; [right; exists a_tensor; apply a_pointer_wraps|].
    constructor; [by left|constructor]. }
  destruct (HL eq_refl) as (out & ys & Hd & Hk & _).
  vm_compute in Hd. injection Hd as <-. discriminate.
Qed.

(** C4, as amended.  Building the rule of a call from its own arguments
    succeeds exactly when the call has one to three positional arguments and
    every non-empty list or tuple nested in them has one to three elements
    (an empty one is passed through as it is); applying the rule to the call
    it was derived from returns for such calls only.  A call of zero, or of four
    or more, positional arguments fails at rule construction with a missing
    key; on a cache miss the trampoline raises that [KeyError] and caches
    nothing. *)
Theorem rule_construction_arity (args : list value) :
  (is_Ok (build_args_hook (VTuple args) (build_rule (VTuple args)))
     ↔ call_arity_ok args = true)
  ∧ (is_Ok (derive_and_apply args) → call_arity_ok args = true)
  ∧ (len_ok (length args) = false →
     ∃ n, len_ok n = false ∧
          build_args_hook (VTuple args) (build_rule (VTuple args))
            = Err (KeyError (KInt n)) ∧
          ∀ attr kwargs hs,
            args_hook_for_overloaded_attr hs !! attr = None →
            overloaded_attr attr args kwargs hs
              = (Err (KeyError (KInt n)),
                 HookSelf (args_hook_for_overloaded_attr hs)
                          (attr :: build_rule_calls hs))).
Proof.
  destruct (call_hook_spec args) as [Hok Hbad]. split; [|split].
  - split.
    + intros H. destruct (call_arity_ok args) eqn:Ha; [done|].
      destruct (Hbad eq_refl) as (n & Hn & _). by rewrite Hn in H.
    + intros Ha. destruct (Hok Ha) as (h & -> & _). done.
  - intros H. destruct (call_arity_ok args) eqn:Ha; [done|].
    destruct (Hbad eq_refl) as (n & Hn & _).
    unfold derive_and_apply in H. by rewrite Hn in H.
  - intros Hlen. destruct Hbad as (n & Hn & Hlen').
    { unfold call_arity_ok. by rewrite Hlen. }
    exists n. split; [done|]. split; [done|].
    intros attr kwargs hs Hmiss. unfold overloaded_attr, fill_cache.
    by rewrite Hmiss, Hn.
Qed.

Lemma rule_construction_arity_witness :
  ∃ n, len_ok n = false ∧
       build_args_hook (VTuple [VInt 1; VInt 2; VInt 3; VInt 4])
                       (build_rule (VTuple [VInt 1; VInt 2; VInt 3; VInt 4]))
         = Err (KeyError (KInt n)) ∧
       ∀ attr kwargs hs,
         args_hook_for_overloaded_attr hs !! attr = None →
         overloaded_attr attr [VInt 1; VInt 2; VInt 3; VInt 4] kwargs hs
           = (Err (KeyError (KInt n)),
              HookSelf (args_hook_for_overloaded_attr hs)
                       (attr :: build_rule_calls hs)).
Proof.
  apply (proj2 (proj2 (rule_construction_arity [VInt 1; VInt 2; VInt 3; VInt 4]))).
  reflexivity.
Defined.

(** C4 as worded fails: a rule is built for a call holding an empty list,
    a nested sequence of zero elements. *)
Lemma arity_claim_counterexample : ¬ arity_claim [VList []; VInt 5].
Proof.
  intros H. assert (Hs : strict_arity_ok (VTuple [VList []; VInt 5]) = true).
  { apply H. by vm_compute. }
  vm_compute in Hs. discriminate.
Qed.

Lemma derivation_count_cons_ne X attr cache cache' calls :
  attr ≠ X →
  derivation_count X (HookSelf cache (attr :: calls))
    = derivation_count X (HookSelf cache' calls).
Proof.
  intros Hne. unfold derivation_count. cbn.
  destruct (String.eqb_spec X attr) as [->|_]; [done|reflexivity].
Qed.

Lemma derivation_count_cons_eq X cache cache' calls :
  derivation_count X (HookSelf cache (X :: calls))
    = S (derivation_count X (HookSelf cache' calls)).
Proof. unfold derivation_count. cbn. by rewrite String.eqb_refl. Qed.

(** A cache hit: nothing is derived and nothing is written. *)
Lemma overloaded_attr_hit attr args kwargs hs h :
  args_hook_for_overloaded_attr hs !! attr = Some h →
  overloaded_attr attr args kwargs hs
    = (new_args ← h (VTuple args); call_attr attr new_args, hs).
Proof.
  intros Hhit. unfold overloaded_attr, fill_cache. rewrite Hhit. cbn.
  by rewrite Hhit.
Qed.

(** A cache miss on a call whose rule can be built. *)
Lemma overloaded_attr_miss attr args kwargs hs h :
  args_hook_for_overloaded_attr hs !! attr = None →
  build_args_hook (VTuple args) (build_rule (VTuple args)) = Ok h →
  overloaded_attr attr args kwargs hs
    = (new_args ← h (VTuple args); call_attr attr new_args,
       HookSelf (<[attr := h]> (args_hook_for_overloaded_attr hs))
                (attr :: build_rule_calls hs)).
Proof.
  intros Hmiss Hb. unfold overloaded_attr, fill_cache. rewrite Hmiss, Hb. cbn.
  by rewrite lookup_insert_eq.
Qed.

(** A cache miss on a call whose rule cannot be built. *)
Lemma overloaded_attr_miss_err attr args kwargs hs e :
  args_hook_for_overloaded_attr hs !! attr = None →
  build_args_hook (VTuple args) (build_rule (VTuple args)) = Err e →
  overloaded_attr attr args kwargs hs
    = (Err e, HookSelf (args_hook_for_overloaded_attr hs)
                       (attr :: build_rule_calls hs)).
Proof.
  intros Hmiss Hb. unfold overloaded_attr, fill_cache. by rewrite Hmiss, Hb.
Qed.

(** A call leaves the cached rule of a name and its derivation count as
    they were, once the name has a rule. *)
Lemma overloaded_attr_keeps X h attr args kwargs hs :
  args_hook_for_overloaded_attr hs !! X = Some h →
  args_hook_for_overloaded_attr (overloaded_attr attr args kwargs hs).2 !! X = Some h
  ∧ derivation_count X (overloaded_attr attr args kwargs hs).2 = derivation_count X hs.
Proof.
  intros HX. destruct (args_hook_for_overloaded_attr hs !! attr) as [h'|] eqn:Hattr.
  - by rewrite (overloaded_attr_hit _ _ _ _ _ Hattr).
  - assert (attr ≠ X) as Hne by congruence.
    destruct hs as [cache calls].
    cbn [args_hook_for_overloaded_attr build_rule_calls] in *.
    destruct (build_args_hook (VTuple args) (build_rule (VTuple args))) as [f|e] eqn:Hb.
    + rewrite (overloaded_attr_miss attr args kwargs (HookSelf cache calls) f Hattr Hb).
      cbn [snd args_hook_for_overloaded_attr].
      rewrite lookup_insert_ne by done. split; [done|].
      by apply (derivation_count_cons_ne X attr).
    + rewrite (overloaded_attr_miss_err attr args kwargs (HookSelf cache calls) e Hattr Hb).
      cbn [snd args_hook_for_overloaded_attr].
      split; [done|]. by apply (derivation_count_cons_ne X attr).
Qed.

Lemma run_calls_keeps X h calls hs :
  args_hook_for_overloaded_attr hs !! X = Some h →
  args_hook_for_overloaded_attr (run_calls calls hs) !! X = Some h
  ∧ derivation_count X (run_calls calls hs) = derivation_count X hs.
Proof.
  revert hs. induction calls as [|[attr args] calls IH]; intros hs HX; [done|].
  cbn [run_calls].
  destruct (overloaded_attr_keeps X h attr args [] hs HX) as [Hc Hd].
  destruct (IH _ Hc) as [Hc' Hd']. split; [done|]. by rewrite Hd'.
Qed.

(** [build_rule] sees the shape of its argument only. *)
Lemma build_rule_same_shape v : ∀ w, same_shape v w → build_rule v = build_rule w.
Proof.
  assert (Hseq : ∀ xs, Forall (fun v => ∀ w, same_shape v w → build_rule v = build_rule w) xs →
            ∀ ys, Forall2 same_shape xs ys →
            List.map build_rule xs = List.map build_rule ys).
  { intros xs IH ys H2. induction H2 as [|x y xs ys Hxy _ IH2]; [done|].
    inversion IH as [|? ? Hx Hxs]; subst. cbn. by rewrite (Hx y Hxy), IH2. }
  assert (Hplain : ∀ v w, plain v → plain w → build_rule v = build_rule w).
  { intros [| | | |c1 i1 ch1] [| | | |c2 i2 ch2]; cbn; try done.
    - by intros _ ->.
    - by intros _ ->.
    - by intros -> _.
    - by intros -> _.
    - by intros -> ->. }
  induction v as [|n|xs IH|xs IH|cls ident|cls ident c _] using value_ind_nested;
    intros w Hs;
    inversion Hs as [xs' ys' HF|xs' ys' HF|c1 i1 ch1 c2 i2 ch2 Hw1 Hw2|v' w' Hp1 Hp2];
    subst; try (by apply Hplain); try done.
  - cbn. f_equal. by apply Hseq.
  - cbn. f_equal. by apply Hseq.
  - cbn. by rewrite Hw1, Hw2.
  - cbn. by rewrite Hw1, Hw2.
Qed.

(** C5, as amended.  When the first call of operation [X] can build its
    rule, that call derives the rule once and caches it; from then on every
    call of [X], whatever its arguments, applies the cached rule and derives
    nothing, through any run of later calls of any operations: the
    derivation ran exactly once for [X].  Calls of the same shape derive the
    same rule. *)
Theorem rule_derived_once_when_built (X : string) (args0 : list value)
    (kwargs0 : list (string * value)) (hs : hook_self) :
  args_hook_for_overloaded_attr hs !! X = None →
  call_arity_ok args0 = true →
  ∃ h, build_args_hook (VTuple args0) (build_rule (VTuple args0)) = Ok h ∧
       let hs1 := (overloaded_attr X args0 kwargs0 hs).2 in
       args_hook_for_overloaded_attr hs1 !! X = Some h
       ∧ derivation_count X hs1 = S (derivation_count X hs)
       ∧ (∀ args kwargs,
            overloaded_attr X args kwargs hs1
              = (new_args ← h (VTuple args); call_attr X new_args, hs1))
       ∧ (∀ later,
            args_hook_for_overloaded_attr (run_calls later hs1) !! X = Some h
            ∧ derivation_count X (run_calls later hs1) = S (derivation_count X hs))
       ∧ (∀ args1 args2, same_shape (VTuple args1) (VTuple args2) →
            build_rule (VTuple args1) = build_rule (VTuple args2)).
Proof.
  intros Hmiss Har.
  destruct (call_hook_spec args0) as [Hok _]. destruct (Hok Har) as (h & Hb & _).
  exists h. split; [done|]. rewrite (overloaded_attr_miss _ _ _ _ _ Hmiss Hb). cbn.
  assert (Hc : args_hook_for_overloaded_attr
                 (HookSelf (<[X := h]> (args_hook_for_overloaded_attr hs))
                           (X :: build_rule_calls hs)) !! X = Some h)
    by (cbn; apply lookup_insert_eq).
  assert (Hd : derivation_count X
                 (HookSelf (<[X := h]> (args_hook_for_overloaded_attr hs))
                           (X :: build_rule_calls hs)) = S (derivation_count X hs))
    by (destruct hs; apply derivation_count_cons_eq).
  split; [exact Hc|]. split; [exact Hd|]. split.
  - intros args kwargs. by apply overloaded_attr_hit.
  - split.
    + intros later. destruct (run_calls_keeps X h later _ Hc) as [Hc' Hd'].
      split; [done|]. by rewrite Hd', Hd.
    + intros args1 args2. apply build_rule_same_shape.
Qed.

Lemma rule_derived_once_when_built_witness :
  ∃ h, build_args_hook (VTuple [a_pointer; VInt 5])
                       (build_rule (VTuple [a_pointer; VInt 5])) = Ok h ∧
       let hs1 := (overloaded_attr "add" [a_pointer; VInt 5] [] empty_hook).2 in
       args_hook_for_overloaded_attr hs1 !! "add" = Some h
       ∧ derivation_count "add" hs1 = S (derivation_count "add" empty_hook)
       ∧ (∀ args kwargs,
            overloaded_attr "add" args kwargs hs1
              = (new_args ← h (VTuple args); call_attr "add" new_args, hs1))
       ∧ (∀ later,
            args_hook_for_overloaded_attr (run_calls later hs1) !! "add" = Some h
            ∧ derivation_count "add" (run_calls later hs1)
                = S (derivation_count "add" empty_hook))
       ∧ (∀ args1 args2, same_shape (VTuple args1) (VTuple args2) →
            build_rule (VTuple args1) = build_rule (VTuple args2)).
Proof.
  apply (rule_derived_once_when_built "add" [a_pointer; VInt 5] [] empty_hook);
    reflexivity.
Defined.

(** C5 as worded fails: two calls of [add] with four arguments each run
    the derivation twice, for the first caches nothing. *)
Lemma once_claim_counterexample :
  ¬ once_claim [("add", [VInt 1; VInt 2; VInt 3; VInt 4]);
                ("add", [VInt 1; VInt 2; VInt 3; VInt 4])].
Proof.
  intros H. specialize (H "add"). vm_compute in H. lia.
Qed.

End TrampolineFacts.

(** ** Class tables *)

Section ClassFacts.

Lemma elem_of_dir (ns : gmap string pyattr) (a : string) :
  a ∈ dir ns ↔ is_Some (ns !! a).
Proof.
  unfold dir. rewrite merge_sort_Permutation, list_elem_of_fmap. split.
  - intros [[k v] [-> Hkv]]. apply elem_of_map_to_list in Hkv. by exists v.
  - intros [v Hv]. exists (a, v). split; [done|]. by apply elem_of_map_to_list.
Qed.

Lemma elem_of_filter_list {A} (f : A → bool) (l : list A) (x : A) :
  x ∈ List.filter f l ↔ x ∈ l ∧ f x = true.
Proof. rewrite !list_elem_of_In. apply filter_In. Qed.

(** The loop appends the names that pass the test, in the order visited. *)
Lemma which_methods_loop_spec dir_object w ta tensor_type attrs acc :
  syft_torch w = Some ta →
  which_methods_loop dir_object w tensor_type attrs acc
    = Ok (acc ++ List.filter
                   (should_overload dir_object (TorchAttributes_exclude ta)
                                    (classes w tensor_type)) attrs).
Proof.
  intros Hta. revert acc. induction attrs as [|attr rest IH]; intros acc.
  - cbn. by rewrite app_nil_r.
  - cbn [which_methods_loop List.filter]. rewrite Hta. unfold should_overload at 1.
    destruct (bool_decide (attr ∈ TorchAttributes_exclude ta)); cbn [negb andb]; [apply IH|].
    unfold hasattr, getattr.
    destruct (classes w tensor_type !! attr) as [lit|] eqn:Hlit.
    + rewrite bool_decide_eq_true_2 by eauto. cbn [negb].
      change (Ok lit ≫= ?f) with (f lit). cbv beta zeta.
      destruct ((ismethoddescriptor lit || is_FunctionType lit && negb (is_service_func lit))
                && negb (bool_decide (attr ∈ dir_object))
                && negb (re_match_native_star attr)).
      * rewrite IH. by rewrite <- app_assoc.
      * apply IH.
    + rewrite bool_decide_eq_false_2 by (intros [? ?]; done). cbn [negb]. apply IH.
Qed.

Lemma should_overload_true dir_object excl ns attr :
  should_overload dir_object excl ns attr = true ↔
  (attr ∉ excl) ∧
  ∃ lit, ns !! attr = Some lit ∧
         (ismethoddescriptor lit = true ∨
          (is_FunctionType lit = true ∧ is_service_func lit = false)) ∧
         (attr ∉ dir_object) ∧
         re_match_native_star attr = false.
Proof.
  unfold should_overload. rewrite andb_true_iff, negb_true_iff, bool_decide_eq_false.
  apply and_iff_compat_l. destruct (ns !! attr) as [lit|].
  - rewrite !andb_true_iff, !negb_true_iff, bool_decide_eq_false, orb_true_iff,
      andb_true_iff, negb_true_iff. split.
    + intros [[H1 H2] H3]. exists lit. eauto.
    + intros (lit' & [= <-] & H1 & H2 & H3). eauto.
  - split; [discriminate|]. by intros (lit & ? & _).
Qed.

(** The list the eligibility computation returns, by membership. *)
Lemma which_methods_elem dir_object w ta tensor_type syft_type :
  syft_torch w = Some ta →
  ∃ l, _which_methods_should_we_auto_overload dir_object tensor_type syft_type w
         = (Ok l, w) ∧
       ∀ attr, attr ∈ l ↔
               attr ∈ dir (classes w syft_type) ∧
               should_overload dir_object (TorchAttributes_exclude ta)
                               (classes w tensor_type) attr = true.
Proof.
  intros Hta. unfold _which_methods_should_we_auto_overload.
  rewrite (which_methods_loop_spec _ _ ta) by done. cbn [app].
  eexists. split; [reflexivity|]. intros attr. apply elem_of_filter_list.
Qed.

(** C7, as amended.  With [syft.torch] bound, a name is in the eligible list
    exactly when it is an attribute of the reference type, is not in the
    configured exclusion set, is bound on the native tensor type to a method
    descriptor or to a plain function whose qualified name does not hold the
    service marker, is not an attribute of [object], and does not match the
    pattern [native*] (does not begin with [nativ]).  The service marker is
    not consulted for method descriptors.  Excluded names are never
    eligible. *)
Theorem eligible_names_characterised (dir_object : list string) (w : world)
    (ta : torch_attributes) (tensor_type syft_type : pytype) :
  syft_torch w = Some ta →
  ∃ l, _which_methods_should_we_auto_overload dir_object tensor_type syft_type w
         = (Ok l, w) ∧
       (∀ attr,
          attr ∈ l ↔
            attr ∈ dir (classes w syft_type) ∧
            (attr ∉ TorchAttributes_exclude ta) ∧
            ∃ lit, classes w tensor_type !! attr = Some lit ∧
                   (ismethoddescriptor lit = true ∨
                    (is_FunctionType lit = true ∧ is_service_func lit = false)) ∧
                   (attr ∉ dir_object) ∧
                   re_match_native_star attr = false) ∧
       (∀ attr, attr ∈ TorchAttributes_exclude ta → attr ∉ l).
Proof.
  intros Hta.
  destruct (which_methods_elem dir_object w ta tensor_type syft_type Hta)
    as (l & Hl & Hmem).
  exists l. split; [exact Hl|].
  assert (Hiff : ∀ attr,
    attr ∈ l ↔
    attr ∈ dir (classes w syft_type) ∧
    (attr ∉ TorchAttributes_exclude ta) ∧
    ∃ lit, classes w tensor_type !! attr = Some lit ∧
           (ismethoddescriptor lit = true ∨
            (is_FunctionType lit = true ∧ is_service_func lit = false)) ∧
           (attr ∉ dir_object) ∧
           re_match_native_star attr = false).
  { intros attr. rewrite Hmem, should_overload_true. tauto. }
  split; [exact Hiff|]. intros attr Hex Hin. apply Hiff in Hin. tauto.
Qed.

Lemma eligible_names_characterised_witness :
  ∃ l, _which_methods_should_we_auto_overload ["__init__"] torch_Tensor TorchTensor
         service_descriptor_world = (Ok l, service_descriptor_world) ∧
       (∀ attr,
          attr ∈ l ↔
            attr ∈ dir (classes service_descriptor_world TorchTensor) ∧
            (attr ∉ TorchAttributes_exclude (TorchAttributes [])) ∧
            ∃ lit, classes service_descriptor_world torch_Tensor !! attr = Some lit ∧
                   (ismethoddescriptor lit = true ∨
                    (is_FunctionType lit = true ∧ is_service_func lit = false)) ∧
                   (attr ∉ ["__init__"]) ∧
                   re_match_native_star attr = false) ∧
       (∀ attr, attr ∈ TorchAttributes_exclude (TorchAttributes []) → attr ∉ l).
Proof.
  apply (eligible_names_characterised ["__init__"] service_descriptor_world
           (TorchAttributes []) torch_Tensor TorchTensor).
  reflexivity.
Defined.

(** C7 as worded fails: a method descriptor whose qualified name holds the
    service marker is eligible. *)
Lemma eligibility_claim_counterexample :
  ¬ eligibility_claim ["__init__"] service_descriptor_world torch_Tensor TorchTensor.
Proof.
  intros H.
  specialize (H (TorchAttributes []) ["svcd"] "svcd" eq_refl).
  destruct H as [H _]; [by vm_compute|].
  destruct H as (_ & _ & lit & Hlit & _ & _ & Hsvc & _); [by left|].
  vm_compute in Hlit. injection Hlit as <-. vm_compute in Hsvc. discriminate.
Qed.

Lemma classes_setattr_eq t a v w :
  classes (setattr t a v w) t = <[a := v]> (classes w t).
Proof. cbn. by rewrite fn_lookup_insert. Qed.

Lemma classes_setattr_ne t t' a v w :
  t ≠ t' → classes (setattr t a v w) t' = classes w t'.
Proof. intros Hne. cbn. by rewrite fn_lookup_insert_ne. Qed.

Lemma same_modules_refl w : same_modules w w.
Proof. by repeat split. Qed.

Lemma same_modules_trans w1 w2 w3 :
  same_modules w1 w2 → same_modules w2 w3 → same_modules w1 w3.
Proof.
  intros (A1 & A2 & A3 & A4) (B1 & B2 & B3 & B4).
  repeat split; congruence.
Qed.

Lemma same_modules_setattr t a v w : same_modules w (setattr t a v w).
Proof. by repeat split. Qed.

Lemma native_name_matches a : re_match_native_star ("native_" +:+ a) = true.
Proof. reflexivity. Qed.

Lemma native_name_inj a b : "native_" +:+ a = "native_" +:+ b → a = b.
Proof. intros H. cbv [String.append] in H. by injection H. Qed.

Lemma native_name_ne_plain a b :
  re_match_native_star a = false → a ≠ "native_" +:+ b.
Proof. intros Ha ->. by rewrite native_name_matches in Ha. Qed.

(** One round of the renaming loop, read through lookups. *)
Lemma rename_native_function_spec t attr w lit :
  classes w t !! attr = Some lit →
  re_match_native_star attr = false →
  ∃ w', rename_native_function t attr w = (Ok (), w') ∧
        same_modules w w' ∧
        (∀ t', t ≠ t' → classes w' t' = classes w t') ∧
        (∀ name,
           classes w' t !! name =
             if decide (name = attr) then Some PNone
             else if decide (name = "native_" +:+ attr)
                  then match classes w t !! ("native_" +:+ attr) with
                       | Some v => Some v
                       | None => Some lit
                       end
                  else classes w t !! name).
Proof.
  intros Hlit Hplain. unfold rename_native_function, getattr. rewrite Hlit.
  pose proof (native_name_ne_plain attr attr Hplain) as Hne.
  destruct (classes w t !! ("native_" +:+ attr)) as [v|] eqn:Hnat.
  - rewrite bool_decide_eq_true_2 by (apply elem_of_dir; eauto).
    eexists. split; [reflexivity|]. split; [apply same_modules_setattr|]. split.
    + intros t' Ht. by apply classes_setattr_ne.
    + intros name. rewrite classes_setattr_eq, lookup_insert.
      destruct (decide (attr = name)) as [<-|Hn].
      * by rewrite decide_True.
      * rewrite (decide_False (P := name = attr)) by congruence.
        destruct (decide (name = "native_" +:+ attr)) as [->|]; done.
  - rewrite bool_decide_eq_false_2
      by (rewrite elem_of_dir, Hnat; by intros [? ?]).
    eexists. split; [reflexivity|]. split.
    { eapply same_modules_trans; apply same_modules_setattr. }
    split.
    + intros t' Ht. by rewrite !classes_setattr_ne.
    + intros name. rewrite !classes_setattr_eq, !lookup_insert.
      destruct (decide (attr = name)) as [<-|Hn].
      * by rewrite decide_True.
      * rewrite (decide_False (P := name = attr)) by congruence.
        destruct (decide ("native_" +:+ attr = name)) as [<-|Hn'].
        -- by rewrite decide_True.
        -- by rewrite (decide_False (P := name = "native_" +:+ attr)) by congruence.
Qed.

(** The renaming loop over names that are bound on the class and do not
    match [native*]. *)
Lemma rename_loop_spec t attrs : ∀ w,
  (∀ a, a ∈ attrs → is_Some (classes w t !! a)) →
  (∀ a, a ∈ attrs → re_match_native_star a = false) →
  ∃ w', for_each attrs (rename_native_function t) w = (Ok (), w') ∧
        same_modules w w' ∧
        (∀ t', t ≠ t' → classes w' t' = classes w t') ∧
        (∀ a, a ∈ attrs → renamed_from (classes w t) (classes w' t) a) ∧
        (∀ name, name ∉ attrs → (∀ b, b ∈ attrs → name ≠ "native_" +:+ b) →
                 classes w' t !! name = classes w t !! name).
Proof.
  induction attrs as [|a rest IH]; intros w Hbound Hplain.
  { exists w. split; [done|]. split; [apply same_modules_refl|].
    split; [done|]. split; [|done]. intros a Ha. by apply elem_of_nil in Ha. }
  destruct (Hbound a ltac:(left)) as [lit Hlit].
  pose proof (Hplain a ltac:(left)) as Ha.
  destruct (rename_native_function_spec t a w lit Hlit Ha) as (w1 & Hstep & Hm1 & Hf1 & Hl1).
  destruct (IH w1) as (w' & Hrest & Hm' & Hf' & Hren & Hframe).
  { intros b Hb. rewrite Hl1. destruct (decide (b = a)); [by eexists|].
    rewrite decide_False
      by (apply native_name_ne_plain, Hplain; by right).
    apply Hbound. by right. }
  { intros b Hb. apply Hplain. by right. }
  exists w'. split.
  { cbn [for_each]. unfold mbind, stateE_bind. by rewrite Hstep. }
  split; [by eapply same_modules_trans|]. split.
  { intros t' Ht. by rewrite Hf', Hf1. }
  assert (Hnat1 : classes w1 t !! ("native_" +:+ a) =
                  match classes w t !! ("native_" +:+ a) with
                  | Some v => Some v
                  | None => classes w t !! a
                  end).
  { rewrite Hl1, decide_False by (intros E; symmetry in E; revert E;
                                   by apply native_name_ne_plain).
    rewrite decide_True by done. rewrite Hlit.
    by destruct (classes w t !! ("native_" +:+ a)). }
  assert (Ha1 : classes w1 t !! a = Some PNone) by (by rewrite Hl1, decide_True).
  split.
  - intros x Hx. destruct (decide (x ∈ rest)) as [Hin|Hnin].
    + destruct (Hren x Hin) as [Hp Hn]. split; [done|]. rewrite Hn.
      destruct (decide (x = a)) as [->|Hxa].
      * rewrite Hnat1, Hlit. by destruct (classes w t !! ("native_" +:+ a)).
      * rewrite !Hl1.
        rewrite (decide_False (P := "native_" +:+ x = a))
          by (intros E; symmetry in E; revert E; by apply native_name_ne_plain).
        rewrite (decide_False (P := "native_" +:+ x = "native_" +:+ a))
          by (intros E; by apply native_name_inj in E).
        rewrite (decide_False (P := x = a)) by done.
        rewrite (decide_False (P := x = "native_" +:+ a))
          by (apply native_name_ne_plain, Hplain; by right).
        done.
    + assert (x = a) as -> by (apply elem_of_cons in Hx as [?|?]; done).
      split.
      * rewrite Hframe; [done|done|].
        intros b Hb. by apply native_name_ne_plain.
      * rewrite Hframe; [done| |].
        -- intros Hin.
           assert (re_match_native_star ("native_" +:+ a) = false) as E
             by (apply Hplain; by right).
           by rewrite native_name_matches in E.
        -- intros b Hb E. apply native_name_inj in E as ->. done.
  - intros name Hnin Hnn. rewrite Hframe.
    + rewrite Hl1. rewrite decide_False by (intros ->; apply Hnin; by left).
      rewrite decide_False by (apply Hnn; by left). done.
    + intros Hin. apply Hnin. by right.
    + intros b Hb. apply Hnn. by right.
Qed.

(** C8.  For the names of the eligible list, [_rename_native_functions]
    preserves each original once: where [native_<attr>] was not yet an
    attribute of the tensor type it now holds the callable [attr] had, where
    it was one its binding is left as it was, and in both cases [attr] is
    bound to [None].  Running the renaming again leaves every alternate-name
    binding as the first run left it. *)
Theorem rename_preserves_original_once (dir_object : list string)
    (self : hook_obj) (tensor_type syft_type : pytype)
    (d : gmap pytype (list string)) (attrs : list string)
    (ta : torch_attributes) (w : world) :
  syft_torch w = Some ta →
  (_which_methods_should_we_auto_overload dir_object tensor_type syft_type w).1
    = Ok attrs →
  to_auto_overload self = Some d →
  d !! tensor_type = Some attrs →
  ∃ w', _rename_native_functions self tensor_type w = (Ok (), w') ∧
        (∀ a, a ∈ attrs →
           (("native_" +:+ a) ∉ dir (classes w tensor_type) →
              is_Some (classes w tensor_type !! a) ∧
              classes w' tensor_type !! ("native_" +:+ a) = classes w tensor_type !! a)
           ∧ (("native_" +:+ a) ∈ dir (classes w tensor_type) →
              classes w' tensor_type !! ("native_" +:+ a)
                = classes w tensor_type !! ("native_" +:+ a))
           ∧ classes w' tensor_type !! a = Some PNone) ∧
        ∃ w'', _rename_native_functions self tensor_type w' = (Ok (), w'') ∧
               ∀ a, a ∈ attrs →
                 classes w'' tensor_type !! ("native_" +:+ a)
                   = classes w' tensor_type !! ("native_" +:+ a)
                 ∧ is_Some (classes w' tensor_type !! ("native_" +:+ a))
                 ∧ classes w'' tensor_type !! a = Some PNone.
Proof.
  intros Hta Hel Hself Hd.
  destruct (which_methods_elem dir_object w ta tensor_type syft_type Hta)
    as (l & Hl & Hmem).
  rewrite Hl in Hel. cbn in Hel. injection Hel as ->.
  assert (Hbound : ∀ a, a ∈ attrs → is_Some (classes w tensor_type !! a)).
  { intros a Ha. apply Hmem in Ha as [_ Ha].
    apply should_overload_true in Ha as (_ & lit & Hlit & _). eauto. }
  assert (Hplain : ∀ a, a ∈ attrs → re_match_native_star a = false).
  { intros a Ha. apply Hmem in Ha as [_ Ha].
    by apply should_overload_true in Ha as (_ & lit & _ & _ & _ & Hn). }
  destruct (rename_loop_spec tensor_type attrs w Hbound Hplain)
    as (w' & Hrun & _ & _ & Hren & _).
  assert (Hbound' : ∀ a, a ∈ attrs → is_Some (classes w' tensor_type !! a)).
  { intros a Ha. destruct (Hren a Ha) as [-> _]. eauto. }
  destruct (rename_loop_spec tensor_type attrs w' Hbound' Hplain)
    as (w'' & Hrun' & _ & _ & Hren' & _).
  unfold _rename_native_functions. rewrite Hself, Hd.
  exists w'. split; [exact Hrun|]. split.
  - intros a Ha. destruct (Hren a Ha) as [Hp Hn]. split; [|split; [|exact Hp]].
    + intros Hnin. split; [by apply Hbound|]. rewrite Hn.
      destruct (classes w tensor_type !! ("native_" +:+ a)) as [v|] eqn:E; [|done].
      exfalso. apply Hnin, elem_of_dir. eauto.
    + intros Hin. rewrite Hn. apply elem_of_dir in Hin as [v ->]. done.
  - exists w''. split; [exact Hrun'|]. intros a Ha.
    destruct (Hren a Ha) as [Hp Hn]. destruct (Hren' a Ha) as [Hp' Hn'].
    assert (is_Some (classes w' tensor_type !! ("native_" +:+ a))) as [v Hv].
    { rewrite Hn. destruct (classes w tensor_type !! ("native_" +:+ a)); [eauto|].
      by apply Hbound. }
    split; [|split; [eauto|exact Hp']]. rewrite Hn', Hv. done.
Qed.

(** One round of the installer loop on a name that is not excluded. *)
Lemma add_method_spec t a v w :
  a ∉ exclude →
  classes w TorchTensor !! a = Some v →
  add_method t a w = (Ok (), setattr t a v w)
  ∧ (∀ name, classes (setattr t a v w) TorchTensor !! name
             = classes w TorchTensor !! name)
  ∧ (∀ name, classes (setattr t a v w) t !! name
             = if decide (name = a) then Some v else classes w t !! name).
Proof.
  intros Hex Hv. unfold add_method, getattr.
  rewrite bool_decide_eq_false_2 by done. rewrite Hv. split; [done|]. split.
  - intros name. destruct (decide (t = TorchTensor)) as [->|Hne].
    + rewrite classes_setattr_eq, lookup_insert.
      destruct (decide (a = name)) as [<-|]; done.
    + by rewrite classes_setattr_ne.
  - intros name. rewrite classes_setattr_eq, lookup_insert.
    destruct (decide (a = name)) as [<-|Hn].
    + by rewrite decide_True.
    + by rewrite decide_False by congruence.
Qed.

Lemma add_method_excluded t a : a ∈ exclude → add_method t a = mret ().
Proof. intros Hex. unfold add_method. by rewrite bool_decide_eq_true_2. Qed.

(** The installer loop over names whose values [TorchTensor] can supply. *)
Lemma add_methods_loop_spec t attrs : ∀ w,
  (∀ a, a ∈ attrs → a ∉ exclude → is_Some (classes w TorchTensor !! a)) →
  ∃ w', for_each attrs (add_method t) w = (Ok (), w') ∧
        same_modules w w' ∧
        (∀ t' name, t ≠ t' → classes w' t' !! name = classes w t' !! name) ∧
        (∀ name, classes w' TorchTensor !! name = classes w TorchTensor !! name) ∧
        (∀ name, classes w' t !! name =
                 if decide (name ∈ attrs ∧ name ∉ exclude)
                 then classes w TorchTensor !! name
                 else classes w t !! name).
Proof.
  induction attrs as [|a rest IH]; intros w Hbound.
  { exists w. split; [done|]. split; [apply same_modules_refl|].
    split; [done|]. split; [done|]. intros name.
    rewrite decide_False; [done|]. intros [H _]. by apply elem_of_nil in H. }
  destruct (decide (a ∈ exclude)) as [Hex|Hex].
  - destruct (IH w) as (w' & Hrun & Hm & Hf & Htt & Hl).
    { intros b Hb. apply Hbound. by right. }
    exists w'. split.
    { cbn [for_each]. rewrite (add_method_excluded t a Hex). exact Hrun. }
    split; [done|]. split; [done|]. split; [done|].
    intros name. rewrite Hl.
    destruct (decide (name ∈ rest ∧ name ∉ exclude)) as [[H1 H2]|Hn].
    + rewrite decide_True; [done|]. split; [by right|done].
    + rewrite decide_False; [done|]. intros [H1 H2]. apply Hn. split; [|done].
      apply elem_of_cons in H1 as [->|H1]; done.
  - destruct (Hbound a ltac:(left) Hex) as [v Hv].
    destruct (add_method_spec t a v w Hex Hv) as (Hstep & Htt1 & Hl1).
    destruct (IH (setattr t a v w)) as (w' & Hrun & Hm & Hf & Htt & Hl).
    { intros b Hb Hbex. rewrite Htt1. apply Hbound; [by right|done]. }
    exists w'. split.
    { cbn [for_each]. unfold mbind, stateE_bind. by rewrite Hstep. }
    split; [eapply same_modules_trans; [apply same_modules_setattr|exact Hm]|].
    split; [intros t' name Ht; by rewrite Hf, classes_setattr_ne|].
    split; [intros name; by rewrite Htt, Htt1|].
    intros name. rewrite Hl, Htt1, Hl1.
    destruct (decide (name ∈ rest ∧ name ∉ exclude)) as [[H1 H2]|Hn].
    + rewrite decide_True; [done|]. split; [by right|done].
    + destruct (decide (name = a)) as [->|Hna].
      * rewrite decide_True; [done|]. split; [by left|done].
      * rewrite decide_False; [done|]. intros [H1 H2]. apply Hn. split; [|done].
        apply elem_of_cons in H1 as [->|H1]; done.
Qed.

(** The installer called with a reference type all of whose names
    [TorchTensor] binds, which is so when the reference is [TorchTensor]. *)
Lemma add_methods_spec t s w :
  (∀ a, a ∈ dir (classes w s) → a ∉ exclude → is_Some (classes w TorchTensor !! a)) →
  ∃ w', _add_methods_from__torch_tensor t s w = (Ok (), w') ∧
        same_modules w w' ∧
        (∀ t' name, t ≠ t' → classes w' t' !! name = classes w t' !! name) ∧
        (∀ name, classes w' TorchTensor !! name = classes w TorchTensor !! name) ∧
        (∀ name, classes w' t !! name =
                 if decide (name ∈ dir (classes w s) ∧ name ∉ exclude)
                 then classes w TorchTensor !! name
                 else classes w t !! name).
Proof. intros H. by apply add_methods_loop_spec. Qed.

Lemma add_methods_from_TorchTensor_bound w a :
  a ∈ dir (classes w TorchTensor) → a ∉ exclude →
  is_Some (classes w TorchTensor !! a).
Proof. intros Ha _. by apply elem_of_dir. Qed.

(** C9.  The mixin installer binds on the target type every attribute name
    of the reference type [TorchTensor] outside the fixed exclusion list to
    the attribute [TorchTensor] has under that name, and leaves every
    excluded name, and every name the reference type does not have, bound on
    the target as it was.  After the two installations of [__init__], on the
    native tensor type and then on the pointer type, both types expose the
    operation surface of the reference type: each of its names outside the
    exclusion list is an attribute of both, bound to the same object.  The
    installer enumerates the names of its argument [syft_type] and reads the
    values from [TorchTensor]: with another [syft_type] whose names
    [TorchTensor] binds it copies those names in the same way. *)
Theorem mixin_installer_copies_reference_surface (w : world) :
  (∀ tensor_type,
     ∃ w', _add_methods_from__torch_tensor tensor_type TorchTensor w = (Ok (), w') ∧
           (∀ name, name ∈ dir (classes w TorchTensor) → name ∉ exclude →
                    name ∈ dir (classes w' tensor_type) ∧
                    classes w' tensor_type !! name = classes w TorchTensor !! name) ∧
           (∀ name, name ∈ exclude →
                    classes w' tensor_type !! name = classes w tensor_type !! name) ∧
           (∀ name, name ∉ dir (classes w TorchTensor) →
                    classes w' tensor_type !! name = classes w tensor_type !! name))
  ∧ (∃ w1 w2,
       _add_methods_from__torch_tensor torch_Tensor TorchTensor w = (Ok (), w1) ∧
       _add_methods_from__torch_tensor PointerTensor TorchTensor w1 = (Ok (), w2) ∧
       ∀ name, name ∈ dir (classes w TorchTensor) → name ∉ exclude →
               name ∈ dir (classes w2 torch_Tensor) ∧
               name ∈ dir (classes w2 PointerTensor) ∧
               classes w2 torch_Tensor !! name = classes w TorchTensor !! name ∧
               classes w2 PointerTensor !! name = classes w TorchTensor !! name)
  ∧ (∀ tensor_type syft_type,
       (∀ a, a ∈ dir (classes w syft_type) → a ∉ exclude →
             is_Some (classes w TorchTensor !! a)) →
       ∃ w', _add_methods_from__torch_tensor tensor_type syft_type w = (Ok (), w') ∧
             (∀ name, name ∈ dir (classes w syft_type) → name ∉ exclude →
                      classes w' tensor_type !! name = classes w TorchTensor !! name) ∧
             (∀ name, name ∈ exclude ∨ name ∉ dir (classes w syft_type) →
                      classes w' tensor_type !! name = classes w tensor_type !! name)).
Proof.
  assert (Hgen : ∀ t s,
    (∀ a, a ∈ dir (classes w s) → a ∉ exclude → is_Some (classes w TorchTensor !! a)) →
    ∃ w', _add_methods_from__torch_tensor t s w = (Ok (), w') ∧
          (∀ name, name ∈ dir (classes w s) → name ∉ exclude →
                   name ∈ dir (classes w' t) ∧
                   classes w' t !! name = classes w TorchTensor !! name) ∧
          (∀ name, name ∈ exclude → classes w' t !! name = classes w t !! name) ∧
          (∀ name, name ∉ dir (classes w s) → classes w' t !! name = classes w t !! name)).
  { intros t s Hbound.
    destruct (add_methods_spec t s w Hbound) as (w' & Hrun & _ & _ & _ & Hl).
    exists w'. split; [exact Hrun|]. split; [|split].
    + intros name Hin Hex. rewrite elem_of_dir, Hl.
      rewrite decide_True by done. split; [by apply Hbound|done].
    + intros name Hex. rewrite Hl, decide_False; [done|]. by intros [_ ?].
    + intros name Hnin. rewrite Hl, decide_False; [done|]. by intros [? _]. }
  split; [|split].
  - intros t. apply Hgen, add_methods_from_TorchTensor_bound.
  - destruct (add_methods_spec torch_Tensor TorchTensor w
                (add_methods_from_TorchTensor_bound w))
      as (w1 & Hrun1 & _ & Hf1 & Htt1 & Hl1).
    assert (Hdir1 : ∀ a, a ∈ dir (classes w1 TorchTensor) ↔ a ∈ dir (classes w TorchTensor)).
    { intros a. by rewrite !elem_of_dir, Htt1. }
    destruct (add_methods_spec PointerTensor TorchTensor w1
                (add_methods_from_TorchTensor_bound w1))
      as (w2 & Hrun2 & _ & Hf2 & Htt2 & Hl2).
    exists w1, w2. split; [exact Hrun1|]. split; [exact Hrun2|].
    intros name Hin Hex.
    assert (classes w2 torch_Tensor !! name = classes w TorchTensor !! name) as E1.
    { rewrite Hf2 by done. rewrite Hl1, decide_True; done. }
    assert (classes w2 PointerTensor !! name = classes w TorchTensor !! name) as E2.
    { rewrite Hl2, decide_True; [apply Htt1|]. split; [by apply Hdir1|done]. }
    rewrite !elem_of_dir, E1, E2. apply elem_of_dir in Hin. done.
  - intros t s Hbound. destruct (Hgen t s Hbound) as (w' & Hrun & Hc & He & Hn).
    exists w'. split; [exact Hrun|]. split.
    + intros name Hin Hex. by apply Hc.
    + intros name [Hex|Hnin]; [by apply He|by apply Hn].
Qed.

Lemma rename_preserves_original_once_witness :
  ∃ w', _rename_native_functions sample_hook torch_Tensor sample_world = (Ok (), w') ∧
        classes w' torch_Tensor !! "native_add" = classes sample_world torch_Tensor !! "add" ∧
        classes w' torch_Tensor !! "native_mul"
          = classes sample_world torch_Tensor !! "native_mul" ∧
        classes w' torch_Tensor !! "add" = Some PNone.
Proof.
  assert (H1 : syft_torch sample_world = Some (TorchAttributes ["__repr__"; "send"]))
    by reflexivity.
  assert (H2 : (_which_methods_should_we_auto_overload sample_dir_object
                  torch_Tensor TorchTensor sample_world).1 = Ok ["add"; "mul"])
    by (vm_compute; reflexivity).
  assert (H3 : to_auto_overload sample_hook = Some {[ torch_Tensor := ["add"; "mul"] ]})
    by reflexivity.
  assert (H4 : ({[ torch_Tensor := ["add"; "mul"] ]} : gmap pytype (list string))
                 !! torch_Tensor = Some ["add"; "mul"])
    by (vm_compute; reflexivity).
  destruct (rename_preserves_original_once sample_dir_object sample_hook
              torch_Tensor TorchTensor {[ torch_Tensor := ["add"; "mul"] ]}
              ["add"; "mul"] (TorchAttributes ["__repr__"; "send"]) sample_world
              H1 H2 H3 H4)
    as (w' & Hrun & Hren & _).
  exists w'. split; [exact Hrun|].
  destruct (Hren "add") as (Hadd & _ & Hnone); [by left|].
  destruct (Hren "mul") as (_ & Hmul & _); [right; by left|].
  split; [|split; [|exact Hnone]].
  - apply Hadd. rewrite elem_of_dir. vm_compute. by intros [? ?].
  - apply Hmul. apply elem_of_dir. vm_compute. eauto.
Defined.

Lemma mixin_installer_copies_reference_surface_witness :
  ∃ w', _add_methods_from__torch_tensor torch_Tensor TorchTensor sample_world
          = (Ok (), w') ∧
        classes w' torch_Tensor !! "send" = classes sample_world TorchTensor !! "send" ∧
        classes w' torch_Tensor !! "__repr__"
          = classes sample_world torch_Tensor !! "__repr__".
Proof.
  destruct (proj2 (proj2 (mixin_installer_copies_reference_surface sample_world))
              torch_Tensor TorchTensor) as (w' & Hrun & Hcopy & Hexcl).
  { intros a Ha _. apply elem_of_dir in Ha. exact Ha. }
  exists w'. split; [exact Hrun|]. split.
  - apply Hcopy.
    + apply elem_of_dir. vm_compute. eauto.
    + unfold exclude. rewrite !not_elem_of_cons. repeat (split; [discriminate|]).
      apply not_elem_of_nil.
  - apply Hexcl. left. unfold exclude. rewrite !elem_of_cons. do 20 right. by left.
Defined.

End ClassFacts.

(** ** Initialisation *)

Section HookFacts.

Variable dir_object : list string.
Variable new_TorchAttributes : torch_attributes.

Lemma keeps_flag_ret {A} (a : A) : keeps_flag (mret a).
Proof. by intros w. Qed.

Lemma keeps_flag_raise {A} (e : error) : keeps_flag (raise (A := A) e).
Proof. by intros w. Qed.

Lemma keeps_flag_bind {A B} (m : stateE world A) (f : A → stateE world B) :
  keeps_flag m → (∀ a, keeps_flag (f a)) → keeps_flag (m ≫= f).
Proof.
  intros Hm Hf w. unfold mbind, stateE_bind. specialize (Hm w).
  destruct (m w) as [[a|e] w1]; cbn in *; [|done]. by rewrite Hf.
Qed.

Lemma keeps_flag_for_each {A} (l : list A) (body : A → stateE world unit) :
  (∀ x, keeps_flag (body x)) → keeps_flag (for_each l body).
Proof.
  intros Hb. induction l as [|x l IH]; [apply keeps_flag_ret|].
  cbn [for_each]. apply keeps_flag_bind; [apply Hb|]. by intros _.
Qed.

Lemma keeps_flag_modify (f : world → world) :
  (∀ w, torch_hooked (f w) = torch_hooked w) → keeps_flag (modify f).
Proof. intros Hf w. apply Hf. Qed.

Lemma keeps_flag_pure {A} (r : world → result A) : keeps_flag (fun w => (r w, w)).
Proof. by intros w. Qed.

Lemma keeps_flag_rename t a : keeps_flag (rename_native_function t a).
Proof.
  intros w. unfold rename_native_function.
  destruct (getattr (classes w t) a); [|done].
  by destruct (bool_decide _).
Qed.

Lemma keeps_flag_add_method t a : keeps_flag (add_method t a).
Proof.
  unfold add_method. destruct (bool_decide _); [apply keeps_flag_ret|].
  intros w. by destruct (getattr (classes w TorchTensor) a).
Qed.

Lemma keeps_flag_add_methods t s : keeps_flag (_add_methods_from__torch_tensor t s).
Proof.
  intros w. unfold _add_methods_from__torch_tensor.
  apply keeps_flag_for_each. apply keeps_flag_add_method.
Qed.

Lemma keeps_flag_rename_all self t : keeps_flag (_rename_native_functions self t).
Proof.
  unfold _rename_native_functions.
  destruct (to_auto_overload self) as [d|]; [|apply keeps_flag_raise].
  destruct (d !! t); [|apply keeps_flag_raise].
  apply keeps_flag_for_each. apply keeps_flag_rename.
Qed.

Lemma keeps_flag_registration self t b : keeps_flag (_add_registration_to___init__ self t b).
Proof.
  intros w. unfold _add_registration_to___init__.
  destruct (bool_decide _); [done|].
  by destruct (getattr (classes w t) "__init__").
Qed.

Lemma keeps_flag_properties t : keeps_flag (_hook_properties t).
Proof.
  unfold _hook_properties.
  repeat (apply keeps_flag_bind; [by apply keeps_flag_modify|intros _]).
  by apply keeps_flag_modify.
Qed.

Lemma keeps_flag_hook_native_tensor self t s :
  keeps_flag (_hook_native_tensor dir_object self t s).
Proof.
  unfold _hook_native_tensor.
  apply keeps_flag_bind; [apply keeps_flag_registration|intros _].
  apply keeps_flag_bind; [apply keeps_flag_properties|intros _].
  apply keeps_flag_bind; [apply keeps_flag_pure|intros l].
  apply keeps_flag_bind; [apply keeps_flag_pure|intros self1].
  apply keeps_flag_bind; [apply keeps_flag_rename_all|intros _].
  apply keeps_flag_bind; [apply keeps_flag_add_methods|intros _].
  apply keeps_flag_ret.
Qed.

Lemma keeps_flag_first_hook self is_client :
  keeps_flag (first_hook dir_object new_TorchAttributes self is_client).
Proof.
  unfold first_hook.
  apply keeps_flag_bind; [by apply keeps_flag_modify|intros _].
  apply keeps_flag_bind; [apply keeps_flag_hook_native_tensor|intros self3].
  apply keeps_flag_bind; [apply keeps_flag_add_methods|intros _].
  apply keeps_flag_bind; [by apply keeps_flag_modify|intros _].
  apply keeps_flag_ret.
Qed.

(** What a bind returned came through both of its halves. *)
Lemma bind_Ok_inv {A B} (m : stateE world A) (f : A → stateE world B) w b w' :
  (m ≫= f) w = (Ok b, w') → ∃ a w1, m w = (Ok a, w1) ∧ f a w1 = (Ok b, w').
Proof.
  unfold mbind, stateE_bind. destruct (m w) as [[a|e] w1]; [eauto|discriminate].
Qed.

Lemma hook_native_tensor_local_worker self t s w self' w' :
  _hook_native_tensor dir_object self t s w = (Ok self', w') →
  local_worker self' = local_worker self.
Proof.
  unfold _hook_native_tensor. intros H.
  apply bind_Ok_inv in H as (? & w1 & _ & H).
  apply bind_Ok_inv in H as (? & w2 & _ & H).
  apply bind_Ok_inv in H as (l & w3 & _ & H).
  apply bind_Ok_inv in H as (self1 & w4 & Hset & H).
  apply bind_Ok_inv in H as (? & w5 & _ & H).
  apply bind_Ok_inv in H as (? & w6 & _ & H).
  injection H as <- _. injection Hset as Hset _.
  unfold set_to_auto_overload in Hset.
  destruct (to_auto_overload self); [by injection Hset as <-|discriminate].
Qed.

(** A first hook that returns has bound [syft.local_worker] to the local
    worker of the hook, which is a worker. *)
Lemma first_hook_local_worker self is_client w h w' :
  first_hook dir_object new_TorchAttributes self is_client w = (Ok h, w') →
  syft_local_worker w' = Some (local_worker h) ∧ is_Some (local_worker h).
Proof.
  unfold first_hook. intros H.
  apply bind_Ok_inv in H as (? & w1 & _ & H).
  apply bind_Ok_inv in H as (self3 & w2 & Hnat & H).
  apply bind_Ok_inv in H as (? & w3 & _ & H).
  apply bind_Ok_inv in H as (? & w4 & Hset & H).
  injection H as <- <-.
  assert (w4 = set_syft_local_worker (local_worker self3) w3) as ->
    by (by injection Hset).
  split; [done|].
  rewrite (hook_native_tensor_local_worker _ _ _ _ _ _ Hnat). cbn.
  destruct (local_worker self); eauto.
Qed.

(** C6.  On a torch module that carries the marker flag, with
    [syft.local_worker] bound, [__init__] logs the warning, gives the hook
    that global local worker and returns: the class tables, [syft.torch] and
    the flag are as before and the hook has neither an eligible list nor a
    rule cache.  On a module without the flag, [__init__] sets the flag and
    runs every later step in the state that has it; the flag is set in the
    final state whether the steps return or raise, and when they return
    [syft.local_worker] is bound to the hook's local worker. *)
Theorem rehook_short_circuits (ident : nat) (local_worker0 : option worker)
    (is_client verbose : bool) (w : world) :
  (torch_hooked w = true →
     ∀ lw, syft_local_worker w = Some lw →
       __init__ dir_object new_TorchAttributes ident local_worker0 is_client verbose w
         = (Ok (HookObj ident lw None None), logging_warning rehook_warning w)
       ∧ classes (logging_warning rehook_warning w) = classes w
       ∧ syft_torch (logging_warning rehook_warning w) = syft_torch w
       ∧ torch_hooked (logging_warning rehook_warning w) = true
       ∧ log_warnings (logging_warning rehook_warning w)
           = log_warnings w ++ [rehook_warning])
  ∧ (torch_hooked w = false →
       __init__ dir_object new_TorchAttributes ident local_worker0 is_client verbose w
         = first_hook dir_object new_TorchAttributes
                      (HookObj ident local_worker0 None None) is_client
                      (set_torch_hooked w)
       ∧ torch_hooked (set_torch_hooked w) = true
       ∧ torch_hooked
           (__init__ dir_object new_TorchAttributes ident local_worker0
                     is_client verbose w).2 = true
       ∧ ∀ h w',
           __init__ dir_object new_TorchAttributes ident local_worker0
                    is_client verbose w = (Ok h, w') →
           syft_local_worker w' = Some (local_worker h) ∧ is_Some (local_worker h)).
Proof.
  split.
  - intros Hflag lw Hlw. unfold __init__. rewrite Hflag. cbn. rewrite Hlw.
    repeat split. exact Hflag.
  - intros Hflag. unfold __init__. rewrite Hflag.
    split; [done|]. split; [done|]. split.
    + by rewrite keeps_flag_first_hook.
    + intros h w' H. by apply first_hook_local_worker in H.
Qed.

End HookFacts.

Lemma rehook_short_circuits_witness :
  __init__ sample_dir_object (TorchAttributes ["__repr__"; "send"]) 8 None true true
           hooked_world
    = (Ok (HookObj 8 (Some (Worker "me" true (Some 7%nat))) None None),
       logging_warning rehook_warning hooked_world)
  ∧ torch_hooked
      (__init__ sample_dir_object (TorchAttributes ["__repr__"; "send"]) 7 None true true
                sample_world).2 = true.
Proof.
  split.
  - apply (proj1 (rehook_short_circuits sample_dir_object
                    (TorchAttributes ["__repr__"; "send"]) 8 None true true hooked_world));
      vm_compute; reflexivity.
  - apply (proj2 (rehook_short_circuits sample_dir_object
                    (TorchAttributes ["__repr__"; "send"]) 7 None true true sample_world)).
    reflexivity.
Defined.

(** ** The cached rule on later calls *)

Section CachedRuleFacts.

Lemma build_args_hook_unfold args r :
  build_args_hook args r =
  match r with
  | RList rs | RTuple rs =>
      xs ← iter_value args; lambdas ← lambdas_of xs rs;
      f ← folds_getitem (length lambdas); Ok (fun x => f lambdas x)
  | _ => Err TypeError
  end.
Proof. by destruct r. Qed.

(** The hook built from a value depends on its shape only. *)
Lemma build_args_hook_same_shape a0 :
  ∀ r a, same_shape a0 a → build_args_hook a0 r = build_args_hook a r.
Proof.
  assert (Hseq : ∀ xs0,
    Forall (fun a0 => ∀ r a, same_shape a0 a → build_args_hook a0 r = build_args_hook a r) xs0 →
    ∀ xs, Forall2 same_shape xs0 xs → ∀ rs, lambdas_of xs0 rs = lambdas_of xs rs).
  { intros xs0 IH xs H2. induction H2 as [|x0 x xs0 xs Hx _ IH2]; intros rs.
    - by destruct rs.
    - inversion IH as [|? ? Hx0 Hxs0]; subst. destruct rs as [|r rs]; [done|].
      rewrite !lambdas_of_cons. unfold lambda_for.
      rewrite (Hx0 r x Hx), (IH2 Hxs0 rs). done. }
  assert (Hflat : ∀ v w r, ¬ (∃ xs, v = VList xs ∨ v = VTuple xs) →
                           ¬ (∃ xs, w = VList xs ∨ w = VTuple xs) →
                           build_args_hook v r = build_args_hook w r).
  { intros v w r Hv Hw.
    assert (Hit : ∀ u, ¬ (∃ xs, u = VList xs ∨ u = VTuple xs) →
                       iter_value u = Err TypeError).
    { intros [| |xs|xs|? ? ?] Hu; try done; exfalso; apply Hu; eauto. }
    rewrite !build_args_hook_unfold, (Hit v Hv), (Hit w Hw). done. }
  induction a0 as [|n|xs0 IH|xs0 IH|cls ident|cls ident c _] using value_ind_nested;
    intros r a Hs;
    inversion Hs as [xs' ys' HF|xs' ys' HF|c1 i1 ch1 c2 i2 ch2 Hw1 Hw2|v' w' Hp1 Hp2];
    subst; try done;
    try (apply Hflat; [by intros [? [?|?]]|]; destruct a; try done; by intros [? [?|?]]).
  - rewrite !build_args_hook_unfold. destruct r as [| |rs|rs]; try done;
      cbn [iter_value]; change (Ok ?x ≫= ?f) with (f x); cbv beta;
      by rewrite (Hseq xs0 IH ys' HF rs).
  - rewrite !build_args_hook_unfold. destruct r as [| |rs|rs]; try done;
      cbn [iter_value]; change (Ok ?x ≫= ?f) with (f x); cbv beta;
      by rewrite (Hseq xs0 IH ys' HF rs).
  - apply Hflat; by intros [? [?|?]].
  - apply Hflat; by intros [? [?|?]].
Qed.

(** After a first call that built the hook [h], the transformed arguments
    of every later call are [h] applied to them. *)
Lemma new_args_after_first X args0 kwargs hs h :
  args_hook_for_overloaded_attr hs !! X = None →
  build_args_hook (VTuple args0) (build_rule (VTuple args0)) = Ok h →
  ∀ args, new_args_of X args (overloaded_attr X args0 kwargs hs).2 = h (VTuple args).
Proof.
  intros Hmiss Hb args. rewrite (overloaded_attr_miss _ _ _ _ _ Hmiss Hb).
  unfold new_args_of, fill_cache. cbn [snd args_hook_for_overloaded_attr].
  rewrite lookup_insert_eq. cbn [args_hook_for_overloaded_attr].
  by rewrite lookup_insert_eq.
Qed.

(** After a first call that could not build its hook, a later call derives
    its own. *)
Lemma new_args_after_failed_first X args0 kwargs hs e :
  args_hook_for_overloaded_attr hs !! X = None →
  build_args_hook (VTuple args0) (build_rule (VTuple args0)) = Err e →
  ∀ args, new_args_of X args (overloaded_attr X args0 kwargs hs).2
          = derive_and_apply args.
Proof.
  intros Hmiss Hb args. rewrite (overloaded_attr_miss_err _ _ _ _ _ Hmiss Hb).
  unfold new_args_of, fill_cache, derive_and_apply.
  cbn [snd args_hook_for_overloaded_attr]. rewrite Hmiss.
  destruct (build_args_hook (VTuple args) (build_rule (VTuple args))) as [h|e']; [|done].
  cbn [args_hook_for_overloaded_attr]. by rewrite lookup_insert_eq.
Qed.

(** The form of the hook of a call whose rule can be built: a fold of the
    table over as many lambdas as the call has arguments. *)
Lemma call_hook_form args0 :
  call_arity_ok args0 = true →
  ∃ ls f, length ls = length args0 ∧ folds !! length ls = Some f ∧
          lambdas_of args0 (List.map build_rule args0) = Ok ls ∧
          build_args_hook (VTuple args0) (build_rule (VTuple args0))
            = Ok (fun x => f ls x).
Proof.
  intros [Hlen Har]%andb_true_iff.
  assert (Forall lambda_ok args0) as HP
    by (apply Forall_forall; intros; apply lambda_for_spec).
  destruct (lambdas_of_spec args0 HP) as [Hok _].
  destruct (Hok Har) as (ls & Hls & Hl & _).
  rewrite build_args_hook_VTuple. unfold seq_hook. rewrite Hls.
  change (Ok ls ≫= ?g) with (g ls). cbv beta. unfold folds_getitem.
  destruct (folds !! length ls) as [f|] eqn:Hf.
  - exists ls, f. done.
  - exfalso. rewrite Hl in Hf.
    destruct args0 as [|? [|? [|? [|]]]]; discriminate.
Qed.

Lemma folds_cases n f :
  folds !! n = Some f →
  (n = 1%nat ∧ f = one_fold) ∨ (n = 2%nat ∧ f = two_fold) ∨ (n = 3%nat ∧ f = three_fold).
Proof.
  intros Hf. destruct (len_ok n) eqn:Hn.
  - destruct n as [|[|[|[|n]]]]; try discriminate.
    + rewrite folds_lookup_1 in Hf. injection Hf as <-. auto.
    + rewrite folds_lookup_2 in Hf. injection Hf as <-. auto.
    + rewrite folds_lookup_3 in Hf. injection Hf as <-. auto.
  - rewrite folds_lookup_None in Hf by done. discriminate.
Qed.

Lemma getitem_app_l xs extra i :
  (i < length xs)%nat → getitem (VTuple (xs ++ extra)) i = getitem (VTuple xs) i.
Proof. intros Hi. unfold getitem. by rewrite lookup_app_l. Qed.

(** A fold reads the slots its lambdas cover and no others. *)
Lemma fold_ignores_extra ls f xs extra :
  folds !! length ls = Some f → length xs = length ls →
  f ls (VTuple (xs ++ extra)) = f ls (VTuple xs).
Proof.
  intros Hf Hlen.
  destruct (folds_cases _ _ Hf) as [[Hn ->]|[[Hn ->]|[Hn ->]]].
  - unfold one_fold. by rewrite getitem_app_l by lia.
  - unfold two_fold. by rewrite !getitem_app_l by lia.
  - unfold three_fold. by rewrite !getitem_app_l by lia.
Qed.

(** A fold given fewer slots than it has lambdas raises. *)
Lemma fold_on_short_call ls f xs :
  folds !! length ls = Some f → (length xs < length ls)%nat →
  ∃ e, f ls (VTuple xs) = Err e.
Proof.
  intros Hf Hlen.
  destruct (folds_cases _ _ Hf) as [[Hn ->]|[[Hn ->]|[Hn ->]]];
    destruct ls as [|l1 [|l2 [|l3 [|l4 ls]]]]; try discriminate; cbn in Hlen.
  - destruct xs; [|cbn in Hlen; lia]. by eexists.
  - destruct xs as [|x1 [|x2 xs]]; [by eexists| |cbn in Hlen; lia].
    unfold two_fold. cbn. destruct (l1 x1); cbn; by eexists.
  - destruct xs as [|x1 [|x2 [|x3 xs]]]; [by eexists| | |cbn in Hlen; lia].
    + unfold three_fold. cbn. destruct (l1 x1); cbn; by eexists.
    + unfold three_fold. cbn. destruct (l1 x1); cbn; [|by eexists].
      destruct (l2 x2); cbn; by eexists.
Qed.

(** X1.  Caching is transparent for calls of the shape of the first call:
    the transformed arguments the trampoline computes for a later call are
    those a fresh derivation from that call would compute. *)
Theorem cached_rule_serves_same_shape (X : string) (args0 args : list value)
    (kwargs : list (string * value)) (hs : hook_self) :
  args_hook_for_overloaded_attr hs !! X = None →
  same_shape (VTuple args0) (VTuple args) →
  new_args_of X args (overloaded_attr X args0 kwargs hs).2 = derive_and_apply args.
Proof.
  intros Hmiss Hs.
  destruct (build_args_hook (VTuple args0) (build_rule (VTuple args0))) as [h|e] eqn:Hb.
  - rewrite (new_args_after_first _ _ _ _ _ Hmiss Hb). unfold derive_and_apply.
    rewrite <- (build_rule_same_shape _ _ Hs),
            <- (build_args_hook_same_shape _ _ _ Hs), Hb. done.
  - by rewrite (new_args_after_failed_first _ _ _ _ _ Hmiss Hb).
Qed.

Lemma cached_rule_serves_same_shape_witness :
  new_args_of "add" [VObj PointerTensor_class 3 (Some (VInt 8)); VInt 9]
              (overloaded_attr "add" [a_pointer; VInt 5] [] empty_hook).2
    = derive_and_apply [VObj PointerTensor_class 3 (Some (VInt 8)); VInt 9].
Proof.
  apply (cached_rule_serves_same_shape "add" [a_pointer; VInt 5]
           [VObj PointerTensor_class 3 (Some (VInt 8)); VInt 9] [] empty_hook).
  - reflexivity.
  - apply shape_tuple. constructor; [by apply shape_wrapped|].
    constructor; [by apply shape_plain|constructor].
Defined.

(** X2.  A later call with more positional arguments than the first call:
    the cached rule transforms the leading ones and drops the rest. *)
Theorem cached_rule_drops_extra_arguments (X : string)
    (args0 args extra : list value) (kwargs : list (string * value))
    (hs : hook_self) :
  args_hook_for_overloaded_attr hs !! X = None →
  call_arity_ok args0 = true →
  length args = length args0 →
  new_args_of X (args ++ extra) (overloaded_attr X args0 kwargs hs).2
    = new_args_of X args (overloaded_attr X args0 kwargs hs).2.
Proof.
  intros Hmiss Har Hlen.
  destruct (call_hook_form args0 Har) as (ls & f & Hl & Hf & _ & Hb).
  rewrite !(new_args_after_first _ _ _ _ _ Hmiss Hb).
  apply fold_ignores_extra; [done|congruence].
Qed.

Lemma cached_rule_drops_extra_arguments_witness :
  new_args_of "add" ([a_pointer; VInt 5] ++ [VInt 6; VInt 7])
              (overloaded_attr "add" [a_pointer; VInt 5] [] empty_hook).2
    = new_args_of "add" [a_pointer; VInt 5]
                  (overloaded_attr "add" [a_pointer; VInt 5] [] empty_hook).2.
Proof.
  apply (cached_rule_drops_extra_arguments "add" [a_pointer; VInt 5]
           [a_pointer; VInt 5] [VInt 6; VInt 7] [] empty_hook); reflexivity.
Defined.

(** X3.  A later call with fewer positional arguments than the first call
    raises before the operation is reached: the cached rule indexes a slot
    the call does not have. *)
Theorem cached_rule_raises_on_short_call (X : string)
    (args0 args : list value) (kwargs : list (string * value)) (hs : hook_self) :
  args_hook_for_overloaded_attr hs !! X = None →
  call_arity_ok args0 = true →
  (length args < length args0)%nat →
  (∃ e, new_args_of X args (overloaded_attr X args0 kwargs hs).2 = Err e)
  ∧ (args = [] →
     new_args_of X args (overloaded_attr X args0 kwargs hs).2 = Err IndexError).
Proof.
  intros Hmiss Har Hlen.
  destruct (call_hook_form args0 Har) as (ls & f & Hl & Hf & _ & Hb).
  rewrite !(new_args_after_first _ _ _ _ _ Hmiss Hb). split.
  - apply fold_on_short_call; [done|lia].
  - intros ->.
    destruct (folds_cases _ _ Hf) as [[Hn ->]|[[Hn ->]|[Hn ->]]];
      destruct ls as [|l1 ls]; try discriminate; done.
Qed.

Lemma cached_rule_raises_on_short_call_witness :
  ∃ e, new_args_of "add" [a_pointer]
                   (overloaded_attr "add" [a_pointer; VInt 5] [] empty_hook).2 = Err e.
Proof.
  apply (cached_rule_raises_on_short_call "add" [a_pointer; VInt 5]
           [a_pointer] [] empty_hook); [reflexivity | reflexivity | cbn; lia].
Defined.

Lemma flat_slot_lambda a :
  is_wrapped_value a = true ∨ passes_through a →
  elem_arity_ok a = true ∧ lambda_for a (build_rule a) = Ok (slot_lambda a).
Proof.
  unfold lambda_for, slot_lambda.
  intros [Hw|[Hp|[->| ->]]]; [| |done|done].
  - destruct a as [| | | |cls ident ch]; try discriminate.
    cbn in *. by rewrite Hw.
  - destruct a as [| | | |cls ident ch]; try done. cbn in *. by rewrite Hp.
Qed.

Lemma flat_call_lambdas args0 :
  flat_call args0 →
  forallb elem_arity_ok args0 = true ∧
  lambdas_of args0 (List.map build_rule args0) = Ok (List.map slot_lambda args0).
Proof.
  induction 1 as [|a args0 Ha _ [IH1 IH2]]; [done|].
  destruct (flat_slot_lambda a Ha) as [Har Hl]. split.
  - cbn. by rewrite Har, IH1.
  - cbn [List.map]. rewrite lambdas_of_cons, Hl. cbn. by rewrite IH2.
Qed.

Lemma unwrap_by_passes_through args0 : ∀ xs,
  Forall passes_through args0 → length xs = length args0 →
  unwrap_by args0 xs = Ok xs.
Proof.
  induction args0 as [|a args0 IH]; intros [|x xs] Hall Hlen; try done.
  inversion Hall as [|? ? Ha Hrest]; subst. cbn.
  assert (is_wrapped_value a = false) as ->.
  { destruct Ha as [Hp|[->| ->]]; [|done|done].
    destruct a as [| | | |cls ident ch]; try done. }
  cbn. rewrite IH; [done|done|]. cbn in Hlen. lia.
Qed.

(** X4.  What the rule cached by a flat first call of two or three arguments
    does to any later call of that arity: it follows the first call, not the
    later one.  A slot is replaced by its child exactly where the first call
    held a wrapped value, raising [AttributeError] where the later value has
    no [child]; in particular after a first call without wrapped values every
    later call is passed through as it is, pointers included. *)
Theorem cached_flat_rule_follows_first_call (X : string)
    (args0 xs : list value) (kwargs : list (string * value)) (hs : hook_self) :
  args_hook_for_overloaded_attr hs !! X = None →
  flat_call args0 →
  (2 ≤ length args0 ≤ 3)%nat →
  length xs = length args0 →
  new_args_of X xs (overloaded_attr X args0 kwargs hs).2
    = (ys ← unwrap_by args0 xs; Ok (VTuple ys))
  ∧ (Forall passes_through args0 →
     new_args_of X xs (overloaded_attr X args0 kwargs hs).2 = Ok (VTuple xs)).
Proof.
  intros Hmiss Hflat Hlen0 Hlen.
  destruct (flat_call_lambdas args0 Hflat) as [Har Hls].
  assert (call_arity_ok args0 = true) as Hcall.
  { unfold call_arity_ok. by rewrite len_ok_2_3, Har. }
  destruct (call_hook_form args0 Hcall) as (ls & f & Hl & Hf & Hls' & Hb).
  rewrite Hls in Hls'. injection Hls' as <-.
  rewrite !(new_args_after_first _ _ _ _ _ Hmiss Hb).
  assert (Hmain : f (List.map slot_lambda args0) (VTuple xs)
                  = (ys ← unwrap_by args0 xs; Ok (VTuple ys))).
  { destruct (folds_cases _ _ Hf) as [[Hn ->]|[[Hn ->]|[Hn ->]]];
      rewrite length_map in Hn; [lia| |].
    - destruct args0 as [|a [|b [|? ?]]]; try discriminate.
      destruct xs as [|x1 [|x2 [|? ?]]]; try discriminate.
      unfold two_fold, slot_lambda. cbn.
      destruct (is_wrapped_value a), (is_wrapped_value b); cbn;
        try destruct (get_child x1); cbn; try destruct (get_child x2); done.
    - destruct args0 as [|a [|b [|c [|? ?]]]]; try discriminate.
      destruct xs as [|x1 [|x2 [|x3 [|? ?]]]]; try discriminate.
      unfold three_fold, slot_lambda. cbn.
      destruct (is_wrapped_value a), (is_wrapped_value b), (is_wrapped_value c); cbn;
        try destruct (get_child x1); cbn; try destruct (get_child x2); cbn;
        try destruct (get_child x3); done. }
  split; [exact Hmain|].
  intros Hall. rewrite Hmain, unwrap_by_passes_through; done.
Qed.

Lemma cached_flat_rule_follows_first_call_witness :
  new_args_of "add" [a_pointer; VInt 5]
              (overloaded_attr "add" [a_tensor; a_tensor] [] empty_hook).2
    = Ok (VTuple [a_pointer; VInt 5]).
Proof.
  apply (cached_flat_rule_follows_first_call "add" [a_tensor; a_tensor]
           [a_pointer; VInt 5] [] empty_hook).
  - reflexivity.
  - unfold flat_call. repeat constructor; right; by left.
  - cbn; lia.
  - reflexivity.
  - repeat constructor; by left.
Defined.

End CachedRuleFacts.

(** ** Further facts about the class tables *)

Section MoreClassFacts.

Lemma filter_sublist {A} (f : A → bool) (l : list A) : List.filter f l `sublist_of` l.
Proof.
  induction l as [|x l IH]; [constructor|]. cbn.
  destruct (f x); by constructor.
Qed.

Lemma NoDup_dir (ns : gmap string pyattr) : NoDup (dir ns).
Proof.
  unfold dir. rewrite merge_sort_Permutation. apply NoDup_fst_map_to_list.
Qed.

(** X5.  The eligible list names each operation once and in the order
    [dir(syft_type)] enumerates it: it is a sublist of that enumeration and
    has no duplicates. *)
Theorem eligible_list_follows_dir (dir_object : list string) (w : world)
    (ta : torch_attributes) (tensor_type syft_type : pytype) :
  syft_torch w = Some ta →
  ∃ l, _which_methods_should_we_auto_overload dir_object tensor_type syft_type w
         = (Ok l, w) ∧
       l `sublist_of` dir (classes w syft_type) ∧ NoDup l.
Proof.
  intros Hta. unfold _which_methods_should_we_auto_overload.
  rewrite (which_methods_loop_spec _ _ ta) by done. cbn [app].
  eexists. split; [reflexivity|].
  split; [apply filter_sublist|].
  exact (sublist_NoDup _ _ (NoDup_dir _) (filter_sublist _ _)).
Qed.

Lemma eligible_list_follows_dir_witness :
  ∃ l, _which_methods_should_we_auto_overload sample_dir_object torch_Tensor TorchTensor
         sample_world = (Ok l, sample_world) ∧
       l `sublist_of` dir (classes sample_world TorchTensor) ∧ NoDup l.
Proof.
  apply (eligible_list_follows_dir sample_dir_object sample_world
           (TorchAttributes ["__repr__"; "send"]) torch_Tensor TorchTensor).
  reflexivity.
Defined.

Lemma for_each_app {A} (l1 l2 : list A) (body : A → stateE world unit) w :
  for_each (l1 ++ l2) body w =
  match for_each l1 body w with
  | (Ok _, w1) => for_each l2 body w1
  | (Err e, w1) => (Err e, w1)
  end.
Proof.
  revert w. induction l1 as [|x l1 IH]; intros w; [done|].
  cbn [app for_each]. unfold mbind, stateE_bind.
  destruct (body x w) as [[u|e] w1]; [apply IH|done].
Qed.

(** X6.  Renaming touches the listed names and their alternate names on
    the tensor type and nothing else: every other binding of that type, every
    other class and the module state are as before. *)
Theorem rename_changes_nothing_else (self : hook_obj) (tensor_type : pytype)
    (d : gmap pytype (list string)) (attrs : list string) (w : world) :
  to_auto_overload self = Some d →
  d !! tensor_type = Some attrs →
  (∀ a, a ∈ attrs → is_Some (classes w tensor_type !! a)) →
  (∀ a, a ∈ attrs → re_match_native_star a = false) →
  ∃ w', _rename_native_functions self tensor_type w = (Ok (), w') ∧
        same_modules w w' ∧
        (∀ t', tensor_type ≠ t' → classes w' t' = classes w t') ∧
        (∀ name, name ∉ attrs → (∀ b, b ∈ attrs → name ≠ "native_" +:+ b) →
                 classes w' tensor_type !! name = classes w tensor_type !! name).
Proof.
  intros Hself Hd Hbound Hplain.
  destruct (rename_loop_spec tensor_type attrs w Hbound Hplain)
    as (w' & Hrun & Hm & Hf & _ & Hframe).
  exists w'. unfold _rename_native_functions. rewrite Hself, Hd. done.
Qed.

Lemma rename_changes_nothing_else_witness :
  ∃ w', _rename_native_functions sample_hook torch_Tensor sample_world = (Ok (), w') ∧
        classes w' torch_Tensor !! "storage" = classes sample_world torch_Tensor !! "storage" ∧
        classes w' TorchTensor = classes sample_world TorchTensor.
Proof.
  destruct (rename_changes_nothing_else sample_hook torch_Tensor
              {[ torch_Tensor := ["add"; "mul"] ]} ["add"; "mul"] sample_world)
    as (w' & Hrun & _ & Hf & Hframe).
  - reflexivity.
  - vm_compute; reflexivity.
  - intros a Ha. apply elem_of_cons in Ha as [->|Ha]; [vm_compute; eauto|].
    apply elem_of_cons in Ha as [->|Ha]; [vm_compute; eauto|].
    by apply elem_of_nil in Ha.
  - intros a Ha. apply elem_of_cons in Ha as [->|Ha]; [reflexivity|].
    apply elem_of_cons in Ha as [->|Ha]; [reflexivity|].
    by apply elem_of_nil in Ha.
  - exists w'. split; [exact Hrun|]. split; [|by apply Hf].
    apply Hframe.
    + rewrite !not_elem_of_cons. repeat (split; [discriminate|]). apply not_elem_of_nil.
    + intros b Hb. apply native_name_ne_plain. reflexivity.
Defined.



(** X8.  The mixin installer is idempotent and local: installing the
    reference type on a target a second time changes no binding of any
    class, and an installation changes neither the module state, nor another
    class, nor what the reference type binds. *)
Theorem installer_is_idempotent (tensor_type : pytype) (w : world) :
  ∃ w1 w2,
    _add_methods_from__torch_tensor tensor_type TorchTensor w = (Ok (), w1) ∧
    _add_methods_from__torch_tensor tensor_type TorchTensor w1 = (Ok (), w2) ∧
    (∀ t' name, classes w2 t' !! name = classes w1 t' !! name) ∧
    same_modules w w1 ∧
    (∀ t' name, tensor_type ≠ t' → classes w1 t' !! name = classes w t' !! name) ∧
    (∀ name, classes w1 TorchTensor !! name = classes w TorchTensor !! name).
Proof.
  destruct (add_methods_spec tensor_type TorchTensor w
              (add_methods_from_TorchTensor_bound w))
    as (w1 & Hrun1 & Hm1 & Hf1 & Htt1 & Hl1).
  destruct (add_methods_spec tensor_type TorchTensor w1
              (add_methods_from_TorchTensor_bound w1))
    as (w2 & Hrun2 & Hm2 & Hf2 & Htt2 & Hl2).
  exists w1, w2. split; [exact Hrun1|]. split; [exact Hrun2|].
  split; [|split; [exact Hm1|split; [exact Hf1|exact Htt1]]].
  intros t' name. destruct (decide (tensor_type = t')) as [<-|Hne]; [|by apply Hf2].
  rewrite Hl2, Hl1, Htt1.
  destruct (decide (name ∈ dir (classes w1 TorchTensor) ∧ name ∉ exclude)) as [[Hin Hex]|Hn].
  - rewrite decide_True; [done|]. split; [|done].
    apply elem_of_dir. apply elem_of_dir in Hin. by rewrite <- Htt1.
  - rewrite decide_False; [done|]. intros [Hin Hex]. apply Hn. split; [|done].
    apply elem_of_dir. apply elem_of_dir in Hin. by rewrite Htt1.
Qed.

(** X9.  The installer enumerates [syft_type] but reads from [TorchTensor]:
    at the first name of the enumeration that is not excluded and that
    [TorchTensor] does not bind it raises [AttributeError] for that name,
    having copied the names enumerated before it. *)
Theorem installer_stops_at_name_unknown_to_TorchTensor
    (tensor_type syft_type : pytype) (w : world)
    (copied rest : list string) (a : string) :
  dir (classes w syft_type) = copied ++ a :: rest →
  (∀ b, b ∈ copied → b ∉ exclude → is_Some (classes w TorchTensor !! b)) →
  a ∉ exclude →
  classes w TorchTensor !! a = None →
  ∃ w', _add_methods_from__torch_tensor tensor_type syft_type w
          = (Err (AttributeError a), w') ∧
        ∀ name, name ∈ copied → name ∉ exclude →
                classes w' tensor_type !! name = classes w TorchTensor !! name.
Proof.
  intros Hdir Hbound Hex Hnone.
  destruct (add_methods_loop_spec tensor_type copied w Hbound)
    as (w1 & Hrun & _ & _ & Htt & Hl).
  exists w1. split.
  - unfold _add_methods_from__torch_tensor. rewrite Hdir, for_each_app, Hrun.
    cbn [for_each]. unfold mbind, stateE_bind, add_method, getattr.
    rewrite bool_decide_eq_false_2 by done. by rewrite Htt, Hnone.
  - intros name Hin Hnex. rewrite Hl. by rewrite decide_True.
Qed.

Lemma installer_stops_at_name_unknown_to_TorchTensor_witness :
  ∃ w', _add_methods_from__torch_tensor PointerTensor torch_Tensor sample_world
          = (Err (AttributeError "native_mul"), w') ∧
        ∀ name, name ∈ ["__init__"; "__repr__"; "add"; "mul"] → name ∉ exclude →
                classes w' PointerTensor !! name = classes sample_world TorchTensor !! name.
Proof.
  apply (installer_stops_at_name_unknown_to_TorchTensor PointerTensor torch_Tensor
           sample_world ["__init__"; "__repr__"; "add"; "mul"] ["storage"] "native_mul").
  - vm_compute; reflexivity.
  - intros b Hb _.
    repeat (apply elem_of_cons in Hb as [->|Hb]; [vm_compute; eauto|]).
    by apply elem_of_nil in Hb.
  - unfold exclude. rewrite !not_elem_of_cons. repeat (split; [discriminate|]).
    apply not_elem_of_nil.
  - vm_compute; reflexivity.
Defined.

(** The registration step, read through lookups. *)
Lemma registration_spec self t b w :
  is_Some (classes w t !! "__init__") ∨ is_Some (classes w t !! "native___init__") →
  ∃ w1, _add_registration_to___init__ self t b w = (Ok (), w1) ∧
        same_modules w w1 ∧
        (∀ t', t ≠ t' → classes w1 t' = classes w t') ∧
        (∀ name,
           classes w1 t !! name =
             if decide (name = "__init__") then Some new___init___object
             else if decide (name = "native___init__")
                  then match classes w t !! "native___init__" with
                       | Some v => Some v
                       | None => classes w t !! "__init__"
                       end
                  else classes w t !! name).
Proof.
  intros Hb. unfold _add_registration_to___init__, getattr.
  destruct (classes w t !! "native___init__") as [v|] eqn:Hnat.
  - rewrite bool_decide_eq_true_2 by (apply elem_of_dir; eauto).
    eexists. split; [reflexivity|]. split; [apply same_modules_setattr|]. split.
    + intros t' Ht. by apply classes_setattr_ne.
    + intros name. rewrite classes_setattr_eq, lookup_insert.
      destruct (decide ("__init__" = name)) as [<-|Hn].
      * by rewrite decide_True.
      * rewrite (decide_False (P := name = "__init__")) by congruence.
        destruct (decide (name = "native___init__")) as [->|]; done.
  - rewrite bool_decide_eq_false_2
      by (rewrite elem_of_dir, Hnat; by intros [? ?]).
    destruct Hb as [[init Hinit]|[? ?]]; [|done]. rewrite Hinit.
    eexists. split; [reflexivity|]. split.
    { eapply same_modules_trans; apply same_modules_setattr. }
    split.
    + intros t' Ht. by rewrite !classes_setattr_ne.
    + intros name. rewrite !classes_setattr_eq, !lookup_insert.
      destruct (decide ("__init__" = name)) as [<-|Hn].
      * by rewrite decide_True.
      * rewrite (decide_False (P := name = "__init__")) by congruence.
        destruct (decide ("native___init__" = name)) as [<-|Hn'].
        -- by rewrite decide_True.
        -- by rewrite (decide_False (P := name = "native___init__")) by congruence.
Qed.

(** X10.  Replacing the constructor preserves the first [__init__] only:
    the first run stores the constructor it finds under [native___init__]
    unless that name is taken, a second run leaves [native___init__] as it is
    (it does not store the replacement there), [__init__] is the replacement
    after each run, and no other name of the type changes. *)
Theorem registration_preserves_first_init (self1 self2 : hook_obj)
    (tensor_type : pytype) (b1 b2 : bool) (w : world) (init : pyattr) :
  classes w tensor_type !! "__init__" = Some init →
  ∃ w1 w2,
    _add_registration_to___init__ self1 tensor_type b1 w = (Ok (), w1) ∧
    _add_registration_to___init__ self2 tensor_type b2 w1 = (Ok (), w2) ∧
    classes w1 tensor_type !! "native___init__"
      = match classes w tensor_type !! "native___init__" with
        | Some v => Some v
        | None => Some init
        end ∧
    classes w2 tensor_type !! "native___init__"
      = classes w1 tensor_type !! "native___init__" ∧
    classes w1 tensor_type !! "__init__" = Some new___init___object ∧
    classes w2 tensor_type !! "__init__" = Some new___init___object ∧
    (∀ name, name ≠ "__init__" → name ≠ "native___init__" →
             classes w2 tensor_type !! name = classes w tensor_type !! name).
Proof.
  intros Hinit.
  destruct (registration_spec self1 tensor_type b1 w) as (w1 & Hrun1 & _ & _ & Hl1);
    [left; eauto|].
  destruct (registration_spec self2 tensor_type b2 w1) as (w2 & Hrun2 & _ & _ & Hl2).
  { left. rewrite Hl1, decide_True by done. eauto. }
  exists w1, w2. split; [exact Hrun1|]. split; [exact Hrun2|].
  assert (Hn1 : classes w1 tensor_type !! "native___init__"
                = match classes w tensor_type !! "native___init__" with
                  | Some v => Some v
                  | None => Some init
                  end).
  { rewrite Hl1, decide_False, decide_True by done. by rewrite Hinit. }
  split; [exact Hn1|]. split.
  { rewrite Hl2, decide_False, decide_True by done. rewrite Hn1.
    by destruct (classes w tensor_type !! "native___init__"). }
  split; [by rewrite Hl1, decide_True|]. split; [by rewrite Hl2, decide_True|].
  intros name H1 H2. rewrite Hl2, !decide_False by done.
  by rewrite Hl1, !decide_False by done.
Qed.

Lemma registration_preserves_first_init_witness :
  ∃ w1 w2,
    _add_registration_to___init__ sample_hook torch_Tensor true sample_world = (Ok (), w1) ∧
    _add_registration_to___init__ sample_hook torch_Tensor true w1 = (Ok (), w2) ∧
    classes w2 torch_Tensor !! "native___init__"
      = Some (PObj KOther (Some "object.__init__") "object.__init__").
Proof.
  destruct (registration_preserves_first_init sample_hook sample_hook torch_Tensor
              true true sample_world
              (PObj KOther (Some "object.__init__") "object.__init__"))
    as (w1 & w2 & H1 & H2 & Hn1 & Hn2 & _).
  - vm_compute; reflexivity.
  - exists w1, w2. split; [exact H1|]. split; [exact H2|]. rewrite Hn2, Hn1.
    vm_compute; reflexivity.
Defined.

End MoreClassFacts.

(** ** Hooking the native tensor type *)

Section HookNativeFacts.

Variable dir_object : list string.

Lemma properties_spec t w :
  ∃ w1, _hook_properties t w = (Ok (), w1) ∧
        same_modules w w1 ∧
        (∀ t', t ≠ t' → classes w1 t' = classes w t') ∧
        (∀ name,
           classes w1 t !! name =
             if decide (name ∈ property_names) then Some (property_object name)
             else classes w t !! name).
Proof.
  eexists. split; [reflexivity|]. split; [by repeat split|]. split.
  - intros t' Ht. by rewrite !classes_setattr_ne.
  - intros name. rewrite !classes_setattr_eq, !lookup_insert. unfold property_names.
    destruct (decide ("is_wrapper" = name)) as [<-|H1];
      [by rewrite decide_True by (rewrite !elem_of_cons; auto)|].
    destruct (decide ("id" = name)) as [<-|H2];
      [by rewrite decide_True by (rewrite !elem_of_cons; auto)|].
    destruct (decide ("id_at_location" = name)) as [<-|H3];
      [by rewrite decide_True by (rewrite !elem_of_cons; auto)|].
    destruct (decide ("location" = name)) as [<-|H4];
      [by rewrite decide_True by (rewrite !elem_of_cons; auto)|].
    rewrite decide_False; [done|].
    rewrite !elem_of_cons, elem_of_nil. intros [?|[?|[?|[?|[]]]]]; congruence.
Qed.

Lemma should_overload_ext excl ns ns' a :
  ns !! a = ns' !! a →
  should_overload dir_object excl ns a = should_overload dir_object excl ns' a.
Proof. intros H. unfold should_overload. by rewrite H. Qed.

(** The whole of [_hook_native_tensor] on a type other than the reference
    type, state by state: after the constructor and the properties ([w2]),
    after the renaming ([w3]) and after the installation ([w4]). *)
Lemma hook_native_tensor_spec self t d ta w :
  t ≠ TorchTensor →
  syft_torch w = Some ta →
  to_auto_overload self = Some d →
  is_Some (classes w t !! "__init__") ∨ is_Some (classes w t !! "native___init__") →
  ∃ l w2 w3 w4,
    _hook_native_tensor dir_object self t TorchTensor w
      = (Ok (HookObj (hook_ident self) (local_worker self)
                     (Some (<[t := l]> d)) (trampoline self)), w4) ∧
    (∀ name, classes w2 t !! name = table_when_eligibility_runs (classes w t) name) ∧
    (∀ a, a ∈ l ↔ a ∈ dir (classes w TorchTensor) ∧
                  should_overload dir_object (TorchAttributes_exclude ta)
                                  (classes w2 t) a = true) ∧
    (∀ a, a ∈ l → renamed_from (classes w2 t) (classes w3 t) a) ∧
    (∀ name, name ∉ l → (∀ b, b ∈ l → name ≠ "native_" +:+ b) →
             classes w3 t !! name = classes w2 t !! name) ∧
    (∀ name, classes w4 t !! name =
             if decide (name ∈ dir (classes w TorchTensor) ∧ name ∉ exclude)
             then classes w TorchTensor !! name
             else classes w3 t !! name) ∧
    same_modules w w4 ∧
    (∀ t' name, t ≠ t' → classes w4 t' !! name = classes w t' !! name).
Proof.
  intros Ht Hta Hself Hinit.
  destruct (registration_spec self t true w Hinit) as (w1 & Hrun1 & Hm1 & Hf1 & Hl1).
  destruct (properties_spec t w1) as (w2 & Hrun2 & Hm2 & Hf2 & Hl2).
  assert (Hta2 : syft_torch w2 = Some ta).
  { destruct Hm1 as (_ & E1 & _), Hm2 as (_ & E2 & _). congruence. }
  destruct (which_methods_elem dir_object w2 ta t TorchTensor Hta2) as (l & Hrunl & Hmem).
  assert (Htt2 : classes w2 TorchTensor = classes w TorchTensor)
    by (by rewrite Hf2, Hf1).
  assert (Hbound : ∀ a, a ∈ l → is_Some (classes w2 t !! a)).
  { intros a Ha. apply Hmem in Ha as [_ Ha].
    apply should_overload_true in Ha as (_ & lit & Hlit & _). eauto. }
  assert (Hplain : ∀ a, a ∈ l → re_match_native_star a = false).
  { intros a Ha. apply Hmem in Ha as [_ Ha].
    by apply should_overload_true in Ha as (_ & lit & _ & _ & _ & Hn). }
  destruct (rename_loop_spec t l w2 Hbound Hplain) as (w3 & Hrun3 & Hm3 & Hf3 & Hren & Hframe).
  destruct (add_methods_spec t TorchTensor w3 (add_methods_from_TorchTensor_bound w3))
    as (w4 & Hrun4 & Hm4 & Hf4 & Htt4 & Hl4).
  assert (Htt3 : classes w3 TorchTensor = classes w TorchTensor)
    by (by rewrite Hf3, Htt2).
  exists l, w2, w3, w4. split.
  { unfold _hook_native_tensor, mbind, stateE_bind.
    rewrite Hrun1, Hrun2, Hrunl. unfold set_to_auto_overload. rewrite Hself.
    unfold _rename_native_functions. cbn [to_auto_overload].
    rewrite lookup_insert_eq, Hrun3, Hrun4. done. }
  split.
  { intros name. rewrite Hl2, Hl1. reflexivity. }
  split; [intros a; by rewrite Hmem, Htt2|].
  split; [exact Hren|]. split; [exact Hframe|]. split.
  { intros name. by rewrite Hl4, Htt3. }
  split.
  { eapply same_modules_trans; [exact Hm1|]. eapply same_modules_trans; [exact Hm2|].
    eapply same_modules_trans; [exact Hm3|exact Hm4]. }
  intros t' name Hne. by rewrite Hf4, Hf3, Hf2, Hf1.
Qed.

Lemma property_name_cases p :
  p ∈ property_names →
  re_match_native_star p = false ∧ p ≠ "__init__" ∧ p ≠ "native___init__" ∧ p ∉ exclude.
Proof.
  unfold property_names. rewrite !elem_of_cons, elem_of_nil.
  intros [->|[->|[->|[->|[]]]]]; (split; [reflexivity|]);
    (split; [discriminate|]); (split; [discriminate|]);
    unfold exclude; rewrite !not_elem_of_cons;
    repeat (split; [discriminate|]); apply not_elem_of_nil.
Qed.

Lemma table_when_eligibility_runs_property ns p :
  p ∈ property_names → table_when_eligibility_runs ns p = Some (property_object p).
Proof. intros Hp. unfold table_when_eligibility_runs. by rewrite decide_True. Qed.

Lemma table_when_eligibility_runs_other ns a :
  a ∉ property_names → a ≠ "__init__" → a ≠ "native___init__" →
  table_when_eligibility_runs ns a = ns !! a.
Proof.
  intros H1 H2 H3. unfold table_when_eligibility_runs. by rewrite !decide_False.
Qed.

Lemma native_name_not_special a :
  a ≠ "__init__" →
  (("native_" +:+ a) ∉ property_names) ∧ ("native_" +:+ a ≠ "__init__") ∧
  ("native_" +:+ a ≠ "native___init__").
Proof.
  intros Ha. split; [|split].
  - intros Hp. apply property_name_cases in Hp as [Hp _].
    by rewrite native_name_matches in Hp.
  - discriminate.
  - intros E. apply Ha. by apply (native_name_inj a "__init__").
Qed.

(** An eligible name of [_hook_native_tensor] is none of the property names
    and not [native___init__]. *)
Lemma eligible_not_special excl ns2 ns a :
  (∀ name, ns2 !! name = table_when_eligibility_runs ns name) →
  should_overload dir_object excl ns2 a = true →
  (a ∉ property_names) ∧ (a ≠ "native___init__") ∧ re_match_native_star a = false.
Proof.
  intros Hns Ha. apply should_overload_true in Ha as (_ & lit & Hlit & Hkind & _ & Hn).
  split; [|split; [by intros ->|done]].
  intros Hp. rewrite Hns, table_when_eligibility_runs_property in Hlit by done.
  injection Hlit as <-. by destruct Hkind as [?|[? _]].
Qed.

(** X11.  What hooking the native tensor type leaves under the eligible
    names: every eligible operation (the constructor apart) ends bound to the
    reference implementation [TorchTensor] has under that name, or to [None]
    when the name is on the installer's exclusion list; and its alternate name
    holds what it held before, or the callable the operation had before when
    it held nothing, unless [TorchTensor] itself binds that alternate name.
    Apart from the names the hook installs itself, eligibility is decided on
    the table the type had before. *)
Theorem hook_native_tensor_redirects_operations (self : hook_obj)
    (tensor_type : pytype) (d : gmap pytype (list string))
    (ta : torch_attributes) (w : world) :
  tensor_type ≠ TorchTensor →
  syft_torch w = Some ta →
  to_auto_overload self = Some d →
  is_Some (classes w tensor_type !! "__init__")
    ∨ is_Some (classes w tensor_type !! "native___init__") →
  ∃ l self' w',
    _hook_native_tensor dir_object self tensor_type TorchTensor w = (Ok self', w') ∧
    to_auto_overload self' = Some (<[tensor_type := l]> d) ∧
    (∀ a, a ∉ property_names → a ≠ "__init__" → a ≠ "native___init__" →
          (a ∈ l ↔ a ∈ dir (classes w TorchTensor) ∧
                   should_overload dir_object (TorchAttributes_exclude ta)
                                   (classes w tensor_type) a = true)) ∧
    (∀ a, a ∈ l → a ≠ "__init__" →
          is_Some (classes w tensor_type !! a) ∧
          classes w' tensor_type !! a
            = (if decide (a ∈ exclude) then Some PNone
               else classes w TorchTensor !! a) ∧
          (("native_" +:+ a) ∉ dir (classes w TorchTensor)
             ∨ ("native_" +:+ a) ∈ exclude →
           classes w' tensor_type !! ("native_" +:+ a)
             = match classes w tensor_type !! ("native_" +:+ a) with
               | Some v => Some v
               | None => classes w tensor_type !! a
               end)).
Proof.
  intros Ht Hta Hself Hinit.
  destruct (hook_native_tensor_spec self tensor_type d ta w Ht Hta Hself Hinit)
    as (l & w2 & w3 & w4 & Hrun & H2 & Hmem & Hren & Hframe & H4 & _ & _).
  eexists l, _, w4. split; [exact Hrun|]. split; [done|]. split.
  - intros a Hp Hi Hn. rewrite Hmem.
    rewrite (should_overload_ext _ (classes w2 tensor_type) (classes w tensor_type));
      [done|].
    by rewrite H2, table_when_eligibility_runs_other.
  - intros a Ha Hi. pose proof Ha as Ha'. apply Hmem in Ha' as [Hdir Hso].
    destruct (eligible_not_special _ _ _ a H2 Hso) as (Hp & Hn & Hplain).
    destruct (native_name_not_special a Hi) as (Hp' & Hi' & Hn').
    assert (E2 : classes w2 tensor_type !! a = classes w tensor_type !! a)
      by (by rewrite H2, table_when_eligibility_runs_other).
    assert (E2' : classes w2 tensor_type !! ("native_" +:+ a)
                  = classes w tensor_type !! ("native_" +:+ a))
      by (by rewrite H2, table_when_eligibility_runs_other).
    destruct (Hren a Ha) as [Hnone Hnat]. rewrite E2, E2' in Hnat.
    split; [|split].
    + rewrite <- E2. apply should_overload_true in Hso as (_ & lit & -> & _). eauto.
    + rewrite H4. destruct (decide (a ∈ exclude)) as [Hex|Hex].
      * rewrite decide_False; [done|]. by intros [_ ?].
      * by rewrite decide_True.
    + intros Hside. rewrite H4, decide_False; [done|].
      intros [Hin Hnex]. destruct Hside as [?|?]; done.
Qed.

(** An alternate name is never on the installer's exclusion list. *)
Lemma native_name_not_excluded a : ("native_" +:+ a) ∉ exclude.
Proof.
  unfold exclude. cbn [String.append]. rewrite !not_elem_of_cons.
  repeat (split; [discriminate|]). apply not_elem_of_nil.
Qed.

(** What the installer does under an alternate name: it copies the binding
    of [TorchTensor] when there is one and leaves the name alone otherwise. *)
Lemma installer_on_native_name w a (other : option pyattr) :
  (if decide (("native_" +:+ a) ∈ dir (classes w TorchTensor)
              ∧ ("native_" +:+ a) ∉ exclude)
   then classes w TorchTensor !! ("native_" +:+ a)
   else other)
  = match classes w TorchTensor !! ("native_" +:+ a) with
    | Some v => Some v
    | None => other
    end.
Proof.
  destruct (decide _) as [[Hin _]|Hnin].
  - apply elem_of_dir in Hin as [v ->]. done.
  - destruct (classes w TorchTensor !! ("native_" +:+ a)) as [v|] eqn:E; [|done].
    exfalso. apply Hnin. split; [|apply native_name_not_excluded].
    apply elem_of_dir. eauto.
Qed.

(** X12.  What hooking leaves under the names the hook installs itself.  A
    property name is never eligible: the attribute the tensor type had under
    it is overwritten without an alternate-name copy by the hook, and the name
    ends bound to what [TorchTensor] binds under it, or to the property when
    [TorchTensor] binds nothing.  With [__init__] among the names of [object],
    the constructor is not eligible either: it ends bound to the replacement,
    and [native___init__] holds the first constructor unless [TorchTensor]
    itself binds [native___init__]: the installer then overwrites the
    preserved constructor with the binding of [TorchTensor].  The same holds
    under the alternate name of a property name: it ends as it was, unless
    [TorchTensor] binds it. *)
Theorem hook_native_tensor_installed_names (self : hook_obj)
    (tensor_type : pytype) (d : gmap pytype (list string))
    (ta : torch_attributes) (w : world) :
  tensor_type ≠ TorchTensor →
  syft_torch w = Some ta →
  to_auto_overload self = Some d →
  is_Some (classes w tensor_type !! "__init__")
    ∨ is_Some (classes w tensor_type !! "native___init__") →
  ∃ l self' w',
    _hook_native_tensor dir_object self tensor_type TorchTensor w = (Ok self', w') ∧
    to_auto_overload self' = Some (<[tensor_type := l]> d) ∧
    (∀ p, p ∈ property_names →
          (p ∉ l) ∧
          classes w' tensor_type !! p
            = match classes w TorchTensor !! p with
              | Some v => Some v
              | None => Some (property_object p)
              end ∧
          classes w' tensor_type !! ("native_" +:+ p)
            = match classes w TorchTensor !! ("native_" +:+ p) with
              | Some v => Some v
              | None => classes w tensor_type !! ("native_" +:+ p)
              end) ∧
    ("__init__" ∈ dir_object →
       ("__init__" ∉ l) ∧
       classes w' tensor_type !! "__init__" = Some new___init___object ∧
       classes w' tensor_type !! "native___init__"
         = match classes w TorchTensor !! "native___init__" with
           | Some v => Some v
           | None =>
               match classes w tensor_type !! "native___init__" with
               | Some v => Some v
               | None => classes w tensor_type !! "__init__"
               end
           end).
Proof.
  intros Ht Hta Hself Hinit.
  destruct (hook_native_tensor_spec self tensor_type d ta w Ht Hta Hself Hinit)
    as (l & w2 & w3 & w4 & Hrun & H2 & Hmem & Hren & Hframe & H4 & _ & _).
  assert (Hspecial : ∀ a, a ∈ l →
            (a ∉ property_names) ∧ (a ≠ "native___init__") ∧
            re_match_native_star a = false).
  { intros a Ha. apply Hmem in Ha as [_ Hso]. exact (eligible_not_special _ _ _ a H2 Hso). }
  eexists l, _, w4. split; [exact Hrun|]. split; [done|]. split.
  - intros p Hp. destruct (property_name_cases p Hp) as (Hplain & Hi & Hn & Hex).
    assert (Hpl : p ∉ l) by (intros Hin; by apply Hspecial in Hin as [? _]).
    split; [exact Hpl|]. split.
    + rewrite H4. destruct (decide (p ∈ dir (classes w TorchTensor) ∧ p ∉ exclude))
        as [[Hin _]|Hnin].
      * apply elem_of_dir in Hin as [v ->]. done.
      * rewrite Hframe, H2, table_when_eligibility_runs_property; [|done|done|].
        -- destruct (classes w TorchTensor !! p) as [v|] eqn:E; [|done].
           exfalso. apply Hnin. split; [|done]. apply elem_of_dir. eauto.
        -- intros b Hb. by apply native_name_ne_plain.
    + destruct (native_name_not_special p Hi) as (Hp' & Hi' & Hn').
      rewrite H4, installer_on_native_name.
      destruct (classes w TorchTensor !! ("native_" +:+ p)); [done|].
      rewrite Hframe, H2, table_when_eligibility_runs_other; [done|done|done|done| |].
      * intros Hin. apply Hspecial in Hin as (_ & _ & Hm).
        by rewrite native_name_matches in Hm.
      * intros b Hb E. apply native_name_inj in E as ->. done.
  - intros Hbase.
    assert (Hil : "__init__" ∉ l).
    { intros Hin. apply Hmem in Hin as [_ Hso].
      by apply should_overload_true in Hso as (_ & lit & _ & _ & Hnb & _). }
    split; [exact Hil|]. split.
    + rewrite H4, decide_False.
      * rewrite Hframe, H2; [done|done|].
        intros b Hb. by apply native_name_ne_plain.
      * intros [_ Hex]. apply Hex. unfold exclude. rewrite !elem_of_cons.
        do 8 right. by left.
    + rewrite H4.
      pose proof (installer_on_native_name w "__init__"
                    (classes w3 tensor_type !! "native___init__")) as Hinst.
      cbv [String.append] in Hinst. rewrite Hinst.
      destruct (classes w TorchTensor !! "native___init__"); [done|].
      rewrite Hframe, H2; [done| |].
      * intros Hin. by apply Hspecial in Hin as (_ & ? & _).
      * intros b Hb E. apply (native_name_inj "__init__" b) in E as <-. done.
Qed.

End HookNativeFacts.

Lemma hook_native_tensor_redirects_operations_witness :
  ∃ l self' w',
    _hook_native_tensor sample_dir_object sample_hook torch_Tensor TorchTensor sample_world
      = (Ok self', w') ∧
    to_auto_overload self'
      = Some (<[torch_Tensor := l]> {[ torch_Tensor := ["add"; "mul"] ]}).
Proof.
  destruct (hook_native_tensor_redirects_operations sample_dir_object sample_hook torch_Tensor
              {[ torch_Tensor := ["add"; "mul"] ]}
              (TorchAttributes ["__repr__"; "send"]) sample_world)
    as (l & self' & w' & Hrun & Hto & _).
  - discriminate.
  - reflexivity.
  - reflexivity.
  - left. vm_compute. eauto.
  - exists l, self', w'. split; [exact Hrun|exact Hto].
Defined.

Lemma hook_native_tensor_installed_names_witness :
  ∃ (l : list string) self' w',
    _hook_native_tensor sample_dir_object sample_hook torch_Tensor TorchTensor sample_world
      = (Ok self', w') ∧
    ("id" ∉ l) ∧
    classes w' torch_Tensor !! "__init__" = Some new___init___object ∧
    classes w' torch_Tensor !! "native___init__"
      = classes sample_world torch_Tensor !! "__init__".
Proof.
  destruct (hook_native_tensor_installed_names sample_dir_object sample_hook torch_Tensor
              {[ torch_Tensor := ["add"; "mul"] ]}
              (TorchAttributes ["__repr__"; "send"]) sample_world)
    as (l & self' & w' & Hrun & _ & Hprop & Hinit).
  - discriminate.
  - reflexivity.
  - reflexivity.
  - left. vm_compute. eauto.
  - assert (Hbase : "__init__" ∈ sample_dir_object)
      by (unfold sample_dir_object; by left).
    destruct (Hinit Hbase) as (_ & Hnew & Hnative).
    exists l, self', w'. split; [exact Hrun|]. split; [|split; [exact Hnew|]].
    + apply Hprop. unfold property_names. rewrite !elem_of_cons. auto.
    + rewrite Hnative. vm_compute. reflexivity.
Defined.

(** ** The first hook and the hooks after it *)

Section FirstHookFacts.

Variable dir_object : list string.
Variable new_TorchAttributes : torch_attributes.

(** The statements of [__init__] after the flag, state by state. *)
Lemma first_hook_spec ident supplied is_client w :
  is_Some (classes w torch_Tensor !! "__init__")
    ∨ is_Some (classes w torch_Tensor !! "native___init__") →
  ∃ l w',
    first_hook dir_object new_TorchAttributes (HookObj ident supplied None None)
               is_client w
      = (Ok (HookObj ident (Some (hook_worker ident is_client supplied))
                     (Some (<[torch_Tensor := l]> ∅)) (Some empty_hook)), w') ∧
    torch_hooked w' = torch_hooked w ∧
    syft_torch w' = Some new_TorchAttributes ∧
    syft_local_worker w' = Some (Some (hook_worker ident is_client supplied)) ∧
    log_warnings w' = log_warnings w ∧
    (∀ name, classes w' TorchTensor !! name = classes w TorchTensor !! name) ∧
    (∀ name, classes w' PointerTensor !! name =
             if decide (name ∈ dir (classes w TorchTensor) ∧ name ∉ exclude)
             then classes w TorchTensor !! name
             else classes w PointerTensor !! name) ∧
    (∀ n name, classes w' (OtherType n) !! name = classes w (OtherType n) !! name).
Proof.
  intros Hinit.
  destruct (hook_native_tensor_spec dir_object
              (HookObj ident (Some (hook_worker ident is_client supplied))
                       (Some ∅) (Some empty_hook))
              torch_Tensor ∅ new_TorchAttributes
              (set_syft_torch new_TorchAttributes w))
    as (l & w2 & w3 & w4 & Hrun & _ & _ & _ & _ & _ & Hm4 & Hf4);
    [discriminate|reflexivity|reflexivity|exact Hinit|].
  destruct (add_methods_spec PointerTensor TorchTensor w4
              (add_methods_from_TorchTensor_bound w4))
    as (w5 & Hrun5 & Hm5 & Hf5 & Htt5 & Hl5).
  exists l, (set_syft_local_worker (Some (hook_worker ident is_client supplied)) w5).
  split.
  { cbv [hook_worker empty_hook hook_ident local_worker to_auto_overload trampoline] in Hrun.
    unfold first_hook, mbind, stateE_bind, modify.
    destruct supplied as [lw|];
      cbv [hook_worker empty_hook hook_ident local_worker to_auto_overload trampoline];
      rewrite Hrun; cbv [local_worker]; rewrite Hrun5; reflexivity. }
  destruct Hm4 as (A1 & A2 & A3 & A4), Hm5 as (B1 & B2 & B3 & B4).
  cbn [torch_hooked syft_torch syft_local_worker log_warnings set_syft_torch] in A1, A2, A3, A4.
  split; [cbn; congruence|]. split; [cbn; congruence|]. split; [done|].
  split; [cbn; congruence|]. split.
  { intros name. cbn [classes set_syft_local_worker]. rewrite Htt5.
    by rewrite Hf4 by discriminate. }
  split.
  { intros name. cbn [classes set_syft_local_worker]. rewrite Hl5.
    assert (Hd : ∀ a, a ∈ dir (classes w4 TorchTensor) ↔ a ∈ dir (classes w TorchTensor)).
    { intros a. rewrite !elem_of_dir. by rewrite Hf4 by discriminate. }
    rewrite (Hf4 TorchTensor name) by discriminate.
    rewrite (Hf4 PointerTensor name) by discriminate.
    destruct (decide (name ∈ dir (classes w4 TorchTensor) ∧ name ∉ exclude)) as [[H1 H2]|Hn].
    - rewrite decide_True; [done|]. split; [by apply Hd|done].
    - rewrite decide_False; [done|]. intros [H1 H2]. apply Hn. split; [by apply Hd|done]. }
  intros n name. cbn [classes set_syft_local_worker].
  rewrite Hf5 by discriminate. by rewrite Hf4 by discriminate.
Qed.

(** X13.  A first hook returns.  On a torch module without the flag,
    whose tensor type has a constructor, [__init__] completes: the hook's
    local worker is the default worker ["me"] or the supplied one, with its
    [hook] set; [syft.local_worker] is that worker and [syft.torch] the new
    attributes object; the flag is set and nothing is logged; the hook has an
    eligible list for the native tensor type and an empty rule cache; the
    pointer type has received every name of the reference type outside the
    exclusion list, and the reference type binds what it bound before. *)
Theorem first_hook_completes (ident : nat) (supplied : option worker)
    (is_client verbose : bool) (w : world) :
  torch_hooked w = false →
  is_Some (classes w torch_Tensor !! "__init__")
    ∨ is_Some (classes w torch_Tensor !! "native___init__") →
  ∃ l w',
    __init__ dir_object new_TorchAttributes ident supplied is_client verbose w
      = (Ok (HookObj ident (Some (hook_worker ident is_client supplied))
                     (Some (<[torch_Tensor := l]> ∅)) (Some empty_hook)), w') ∧
    torch_hooked w' = true ∧
    syft_torch w' = Some new_TorchAttributes ∧
    syft_local_worker w' = Some (Some (hook_worker ident is_client supplied)) ∧
    log_warnings w' = log_warnings w ∧
    (∀ name, classes w' TorchTensor !! name = classes w TorchTensor !! name) ∧
    (∀ name, classes w' PointerTensor !! name =
             if decide (name ∈ dir (classes w TorchTensor) ∧ name ∉ exclude)
             then classes w TorchTensor !! name
             else classes w PointerTensor !! name).
Proof.
  intros Hflag Hinit.
  destruct (first_hook_spec ident supplied is_client (set_torch_hooked w) Hinit)
    as (l & w' & Hrun & H1 & H2 & H3 & H4 & H5 & H6 & _).
  exists l, w'. unfold __init__. rewrite Hflag. done.
Qed.

(** X14.  A hook after the first reuses the first hook's worker: whatever
    identity, worker and flags the later constructor is given, it logs the
    warning and returns a hook whose local worker is the worker of the first
    hook, with no eligible list and no rule cache of its own, in a state that
    differs from the one the first hook left by the warning only. *)
Theorem later_hook_reuses_first_worker (ident : nat) (supplied : option worker)
    (is_client verbose : bool) (w : world) :
  torch_hooked w = false →
  is_Some (classes w torch_Tensor !! "__init__")
    ∨ is_Some (classes w torch_Tensor !! "native___init__") →
  ∃ h w',
    __init__ dir_object new_TorchAttributes ident supplied is_client verbose w
      = (Ok h, w') ∧
    local_worker h = Some (hook_worker ident is_client supplied) ∧
    ∀ ident' supplied' is_client' verbose',
      __init__ dir_object new_TorchAttributes ident' supplied' is_client' verbose' w'
        = (Ok (HookObj ident' (local_worker h) None None),
           logging_warning rehook_warning w').
Proof.
  intros Hflag Hinit.
  destruct (first_hook_spec ident supplied is_client (set_torch_hooked w) Hinit)
    as (l & w' & Hrun & H1 & _ & H3 & _).
  eexists _, w'. split; [unfold __init__; rewrite Hflag; exact Hrun|].
  split; [done|]. intros ident' supplied' is_client' verbose'.
  unfold __init__. rewrite H1. cbn [set_torch_hooked torch_hooked].
  cbn [syft_local_worker logging_warning]. by rewrite H3.
Qed.

End FirstHookFacts.

Lemma first_hook_completes_witness :
  ∃ l w',
    __init__ sample_dir_object (TorchAttributes ["__repr__"; "send"]) 7 None true true
             sample_world
      = (Ok (HookObj 7 (Some (hook_worker 7 true None))
                     (Some (<[torch_Tensor := l]> ∅)) (Some empty_hook)), w') ∧
    torch_hooked w' = true.
Proof.
  destruct (first_hook_completes sample_dir_object (TorchAttributes ["__repr__"; "send"])
              7 None true true sample_world)
    as (l & w' & Hrun & Hflag & _).
  - reflexivity.
  - left. vm_compute. eauto.
  - exists l, w'. split; [exact Hrun|exact Hflag].
Defined.

Lemma later_hook_reuses_first_worker_witness :
  ∃ h w',
    __init__ sample_dir_object (TorchAttributes ["__repr__"; "send"]) 7 None true true
             sample_world = (Ok h, w') ∧
    __init__ sample_dir_object (TorchAttributes ["__repr__"; "send"])
             8 (Some (Worker "bob" false None)) false true w'
      = (Ok (HookObj 8 (local_worker h) None None),
         logging_warning rehook_warning w').
Proof.
  destruct (later_hook_reuses_first_worker sample_dir_object
              (TorchAttributes ["__repr__"; "send"]) 7 None true true sample_world)
    as (h & w' & Hrun & _ & Hre).
  - reflexivity.
  - left. vm_compute. eauto.
  - exists h, w'. split; [exact Hrun|apply Hre].
Defined.

(** ** The installed properties on instances *)

Section InstanceFacts.

Implicit Types (h : gmap nat instance) (o : instance) (v : aval).

Lemma read_write_field_eq h self o name v :
  h !! self = Some o → read_field (write_field h self name v) self name = Ok v.
Proof.
  intros Ho. unfold read_field, write_field. rewrite Ho, lookup_insert_eq.
  cbn. by rewrite lookup_insert_eq.
Qed.

Lemma read_write_field_ne h self name name' v :
  name ≠ name' →
  read_field (write_field h self name v) self name' = read_field h self name'.
Proof.
  intros Hne. unfold read_field, write_field.
  destruct (h !! self) as [o|] eqn:Ho; [|by rewrite Ho].
  rewrite lookup_insert_eq. cbn. by rewrite lookup_insert_ne.
Qed.

Lemma read_write_field_other h self other name name' v :
  self ≠ other →
  read_field (write_field h self name v) other name' = read_field h other name'.
Proof.
  intros Hne. unfold read_field, write_field.
  destruct (h !! self) as [o|]; [|done]. by rewrite lookup_insert_ne.
Qed.

Lemma lookup_write_field_eq h self o name v :
  h !! self = Some o →
  write_field h self name v !! self
    = Some (Instance (hooked o) (<[name := v]> (fields o))).
Proof. intros Ho. unfold write_field. by rewrite Ho, lookup_insert_eq. Qed.

Lemma lookup_write_field_ne h self other name v :
  self ≠ other → write_field h self name v !! other = h !! other.
Proof.
  intros Hne. unfold write_field. destruct (h !! self); [|done].
  by rewrite lookup_insert_ne.
Qed.

Lemma read_field_Some h self o name v :
  h !! self = Some o → fields o !! name = Some v → read_field h self name = Ok v.
Proof. intros Ho Hv. unfold read_field. by rewrite Ho, Hv. Qed.

Lemma read_field_None h self o name :
  h !! self = Some o → fields o !! name = None →
  read_field h self name = Err (AttributeError name).
Proof. intros Ho Hv. unfold read_field. by rewrite Ho, Hv. Qed.

(** The getter of [is_wrapper] on an instance that has [_is_wrapper]. *)
Lemma is_wrapper_set h self o w :
  h !! self = Some o → fields o !! "_is_wrapper" = Some w →
  is_wrapper h self = (Ok w, h).
Proof.
  intros Ho Hw. pose proof (read_field_Some _ _ _ _ _ Ho Hw) as Hr.
  unfold is_wrapper. rewrite Hr. cbn zeta. by rewrite Hr.
Qed.

(** The getter of [is_wrapper] on an instance that lacks [_is_wrapper]. *)
Lemma is_wrapper_unset h self o :
  h !! self = Some o → fields o !! "_is_wrapper" = None →
  is_wrapper h self = (Ok (ABool false), write_field h self "_is_wrapper" (ABool false)).
Proof.
  intros Ho Hw. unfold is_wrapper. rewrite (read_field_None _ _ _ _ Ho Hw).
  cbn zeta. by rewrite (read_write_field_eq _ _ _ _ _ Ho).
Qed.

(** Attribute access on an instance of the hooked class goes to the
    property of that name; on any other object it goes to the dictionary. *)
Lemma getattr_location d h obj o :
  h !! obj = Some o → hooked o = true →
  instance_getattr (S d) h obj "location" = location (instance_getattr d) h obj.
Proof. intros Ho Hh. cbn [instance_getattr]. by rewrite Ho, Hh. Qed.

Lemma getattr_id_at_location d h obj o :
  h !! obj = Some o → hooked o = true →
  instance_getattr (S d) h obj "id_at_location"
    = id_at_location (instance_getattr d) h obj.
Proof. intros Ho Hh. cbn [instance_getattr]. by rewrite Ho, Hh. Qed.

Lemma getattr_id d h obj o :
  h !! obj = Some o → hooked o = true →
  instance_getattr (S d) h obj "id" = id_getter (instance_getattr d) h obj.
Proof. intros Ho Hh. cbn [instance_getattr]. by rewrite Ho, Hh. Qed.

Lemma getattr_is_wrapper d h obj o :
  h !! obj = Some o → hooked o = true →
  instance_getattr (S d) h obj "is_wrapper" = Some (is_wrapper h obj).
Proof. intros Ho Hh. cbn [instance_getattr]. by rewrite Ho, Hh. Qed.

Lemma getattr_unhooked d h obj o name :
  h !! obj = Some o → hooked o = false →
  instance_getattr (S d) h obj name = Some (read_field h obj name, h).
Proof. intros Ho Hh. cbn [instance_getattr]. by rewrite Ho, Hh. Qed.

Lemma setattr_id d h obj o v :
  h !! obj = Some o → hooked o = true →
  instance_setattr (S d) h obj "id" v = id_setter (instance_setattr d) h obj v.
Proof. intros Ho Hh. cbn [instance_setattr]. by rewrite Ho, Hh. Qed.

Lemma setattr_is_wrapper d h obj o v :
  h !! obj = Some o → hooked o = true →
  instance_setattr (S d) h obj "is_wrapper" v
    = Some (Ok (), write_field h obj "_is_wrapper" v).
Proof. intros Ho Hh. cbn [instance_setattr]. by rewrite Ho, Hh. Qed.

Lemma setattr_unhooked d h obj o name v :
  h !! obj = Some o → hooked o = false →
  instance_setattr (S d) h obj name v = Some (Ok (), write_field h obj name v).
Proof. intros Ho Hh. cbn [instance_setattr]. by rewrite Ho, Hh. Qed.

(** X15.  [is_wrapper] defaults to [False] and remembers it: the first read
    on an instance without [_is_wrapper] returns [False] and stores it, so the
    read writes to the instance.  A value assigned to [is_wrapper] is the
    value read back, and that read changes nothing. *)
Theorem is_wrapper_defaults_and_round_trips h self o (d d' : nat) :
  h !! self = Some o →
  hooked o = true →
  (fields o !! "_is_wrapper" = None →
     instance_getattr (S d) h self "is_wrapper"
       = Some (Ok (ABool false), write_field h self "_is_wrapper" (ABool false)))
  ∧ (∀ v,
       instance_setattr (S d) h self "is_wrapper" v
         = Some (Ok (), write_field h self "_is_wrapper" v)
       ∧ instance_getattr (S d') (write_field h self "_is_wrapper" v) self "is_wrapper"
         = Some (Ok v, write_field h self "_is_wrapper" v)).
Proof.
  intros Ho Hhooked. split.
  - intros Hunset. rewrite (getattr_is_wrapper _ _ _ _ Ho Hhooked).
    by rewrite (is_wrapper_unset _ _ _ Ho Hunset).
  - intros v. split; [by apply (setattr_is_wrapper _ _ _ o)|].
    pose proof (lookup_write_field_eq h self o "_is_wrapper" v Ho) as Ho1.
    rewrite (getattr_is_wrapper _ _ _ _ Ho1 Hhooked).
    erewrite is_wrapper_set; [done|exact Ho1|].
    cbn [fields]. by rewrite lookup_insert_eq.
Qed.

Lemma is_wrapper_defaults_and_round_trips_witness :
  instance_getattr 1 fresh_heap 0 "is_wrapper"
    = Some (Ok (ABool false), write_field fresh_heap 0 "_is_wrapper" (ABool false)).
Proof.
  assert (H0 : fresh_heap !! 0%nat = Some fresh_tensor) by (vm_compute; reflexivity).
  apply (proj1 (is_wrapper_defaults_and_round_trips fresh_heap 0 fresh_tensor 0 0
                  H0 eq_refl)).
  vm_compute; reflexivity.
Defined.

(** The getter of [is_wrapper] on a tensor that is not a wrapper: the flag
    read is false and the heap left keeps every field but [_is_wrapper]. *)
Lemma is_wrapper_not_wrapper h self o :
  h !! self = Some o →
  fields o !! "_is_wrapper" = None ∨ fields o !! "_is_wrapper" = Some (ABool false) →
  ∃ h1 o1, is_wrapper h self = (Ok (ABool false), h1)
    ∧ h1 !! self = Some o1
    ∧ hooked o1 = hooked o
    ∧ fields o1 !! "_is_wrapper" = Some (ABool false)
    ∧ (∀ name, name ≠ "_is_wrapper" → fields o1 !! name = fields o !! name)
    ∧ (∀ other, other ≠ self → h1 !! other = h !! other).
Proof.
  intros Ho [Hw|Hw].
  - exists (write_field h self "_is_wrapper" (ABool false)),
      (Instance (hooked o) (<["_is_wrapper" := ABool false]> (fields o))).
    split; [by apply (is_wrapper_unset _ _ o)|].
    split; [by apply lookup_write_field_eq|].
    split; [done|]. cbn [fields].
    split; [by rewrite lookup_insert_eq|].
    split; [intros name Hne; by rewrite lookup_insert_ne|].
    intros other Hne. by apply lookup_write_field_ne.
  - exists h, o. split; [by apply (is_wrapper_set _ _ o)|]. done.
Qed.

(** X16.  On a tensor that is not a wrapper ([_is_wrapper] missing or
    [False]) an assignment to [id] is kept in the tensor's own [_id]: the
    value is read back through [id], that read changes nothing, and the
    value is what [_id] holds. *)
Theorem id_round_trips_on_plain_tensor h self o v (d d' : nat) :
  h !! self = Some o →
  hooked o = true →
  fields o !! "_is_wrapper" = None ∨ fields o !! "_is_wrapper" = Some (ABool false) →
  ∃ h1,
    instance_setattr (S d) h self "id" v = Some (Ok (), h1)
    ∧ instance_getattr (S d') h1 self "id" = Some (Ok v, h1)
    ∧ read_field h1 self "_id" = Ok v
    ∧ (∀ other, other ≠ self → h1 !! other = h !! other).
Proof.
  intros Ho Hhooked Hw.
  destruct (is_wrapper_not_wrapper _ _ _ Ho Hw)
    as (h0 & o0 & Hget & Ho0 & Hhk0 & Hw0 & _ & Hother).
  exists (write_field h0 self "_id" v).
  pose proof (lookup_write_field_eq h0 self o0 "_id" v Ho0) as Ho1.
  split; [|split; [|split]].
  - rewrite (setattr_id _ _ _ _ _ Ho Hhooked). unfold id_setter. by rewrite Hget.
  - assert (Hhk1 : hooked (Instance (hooked o0) (<["_id" := v]> (fields o0))) = true)
      by (cbn [hooked]; congruence).
    rewrite (getattr_id _ _ _ _ Ho1 Hhk1). unfold id_getter.
    rewrite (is_wrapper_set _ _ _ (ABool false) Ho1)
      by (cbn [fields]; by rewrite lookup_insert_ne).
    cbn [truthy]. by rewrite (read_write_field_eq _ _ _ _ _ Ho0).
  - by apply (read_write_field_eq _ _ o0).
  - intros other Hne. rewrite lookup_write_field_ne by done. by apply Hother.
Qed.

Lemma id_round_trips_on_plain_tensor_witness :
  ∃ h1,
    instance_setattr 1 fresh_heap 0 "id" (AInt 42) = Some (Ok (), h1)
    ∧ instance_getattr 1 h1 0 "id" = Some (Ok (AInt 42), h1)
    ∧ read_field h1 0 "_id" = Ok (AInt 42)
    ∧ (∀ other, other ≠ 0%nat → h1 !! other = fresh_heap !! other).
Proof.
  assert (H0 : fresh_heap !! 0%nat = Some fresh_tensor) by (vm_compute; reflexivity).
  apply (id_round_trips_on_plain_tensor fresh_heap 0 fresh_tensor (AInt 42) 0 0
           H0 eq_refl).
  left. vm_compute; reflexivity.
Defined.

(** X17.  On a wrapper ([_is_wrapper] is [True]) whose child is an object
    of another class, [id] is the child's: an assignment to [id] is stored in
    the child's [id] and leaves the wrapper itself as it was, so its own
    [_id] is not written, and the value is read back through [id]. *)
Theorem id_of_wrapper_is_the_childs h self o c oc v (d d' : nat) :
  h !! self = Some o →
  hooked o = true →
  fields o !! "_is_wrapper" = Some (ABool true) →
  fields o !! "child" = Some (ARef c) →
  h !! c = Some oc →
  hooked oc = false →
  instance_setattr (S (S d)) h self "id" v
    = Some (Ok (), write_field h c "id" v)
  ∧ instance_getattr (S (S d')) (write_field h c "id" v) self "id"
    = Some (Ok v, write_field h c "id" v)
  ∧ write_field h c "id" v !! self = Some o
  ∧ read_field (write_field h c "id" v) c "id" = Ok v.
Proof.
  intros Ho Hhooked Hw Hchild Hc Hhc.
  assert (c ≠ self) as Hne by (intros ->; congruence).
  pose proof (lookup_write_field_ne h c self "id" v Hne) as Hself.
  rewrite Ho in Hself.
  split; [|split; [|split]].
  - rewrite (setattr_id _ _ _ _ _ Ho Hhooked). unfold id_setter.
    rewrite (is_wrapper_set _ _ _ _ Ho Hw). cbn [truthy].
    rewrite (read_field_Some _ _ _ _ _ Ho Hchild).
    by apply (setattr_unhooked _ _ _ oc).
  - rewrite (getattr_id _ _ _ _ Hself Hhooked). unfold id_getter.
    rewrite (is_wrapper_set _ _ _ _ Hself Hw). cbn [truthy].
    rewrite (read_field_Some _ _ _ _ _ Hself Hchild). cbn [attr_of].
    pose proof (lookup_write_field_eq h c oc "id" v Hc) as Hc1.
    rewrite (getattr_unhooked _ _ _ _ "id" Hc1 Hhc).
    by rewrite (read_write_field_eq _ _ _ _ _ Hc).
  - exact Hself.
  - by apply (read_write_field_eq _ _ oc).
Qed.

Lemma id_of_wrapper_is_the_childs_witness :
  instance_setattr 2 wrapper_heap 0 "id" (AInt 42)
    = Some (Ok (), write_field wrapper_heap 1 "id" (AInt 42))
  ∧ instance_getattr 2 (write_field wrapper_heap 1 "id" (AInt 42)) 0 "id"
    = Some (Ok (AInt 42), write_field wrapper_heap 1 "id" (AInt 42))
  ∧ write_field wrapper_heap 1 "id" (AInt 42) !! 0%nat = Some wrapper_tensor
  ∧ read_field (write_field wrapper_heap 1 "id" (AInt 42)) 1 "id" = Ok (AInt 42).
Proof.
  assert (H0 : wrapper_heap !! 0%nat = Some wrapper_tensor) by (vm_compute; reflexivity).
  assert (H1 : wrapper_heap !! 1%nat = Some pointer_child) by (vm_compute; reflexivity).
  assert (Hw : fields wrapper_tensor !! "_is_wrapper" = Some (ABool true))
    by (vm_compute; reflexivity).
  assert (Hc : fields wrapper_tensor !! "child" = Some (ARef 1))
    by (vm_compute; reflexivity).
  exact (id_of_wrapper_is_the_childs wrapper_heap 0 wrapper_tensor 1 pointer_child
           (AInt 42) 0 0 H0 eq_refl Hw Hc H1 eq_refl).
Defined.

(** X18.  [location] and [id_at_location] only forward to the child and
    never look at [is_wrapper]: without a [child] the read raises
    [AttributeError] for [child], with a child of another class it is the
    child's field, and in both cases the heap is left as it was.  Neither
    name can be assigned: the assignment raises and writes nothing. *)
Theorem location_forwards_to_child h self o (d : nat) :
  h !! self = Some o →
  hooked o = true →
  (fields o !! "child" = None →
     instance_getattr (S d) h self "location" = Some (Err (AttributeError "child"), h)
     ∧ instance_getattr (S d) h self "id_at_location"
       = Some (Err (AttributeError "child"), h))
  ∧ (∀ c oc, fields o !! "child" = Some (ARef c) → h !! c = Some oc →
       hooked oc = false →
       instance_getattr (S (S d)) h self "location"
         = Some (read_field h c "location", h)
       ∧ instance_getattr (S (S d)) h self "id_at_location"
         = Some (read_field h c "id_at_location", h))
  ∧ (∀ v,
       instance_setattr (S d) h self "location" v
         = Some (Err (AttributeError "location"), h)
       ∧ instance_setattr (S d) h self "id_at_location" v
         = Some (Err (AttributeError "id_at_location"), h)).
Proof.
  intros Ho Hhooked. split; [|split].
  - intros Hchild. split.
    + rewrite (getattr_location _ _ _ _ Ho Hhooked). unfold location.
      by rewrite (read_field_None _ _ _ _ Ho Hchild).
    + rewrite (getattr_id_at_location _ _ _ _ Ho Hhooked). unfold id_at_location.
      by rewrite (read_field_None _ _ _ _ Ho Hchild).
  - intros c oc Hchild Hc Hhc. split.
    + rewrite (getattr_location _ _ _ _ Ho Hhooked). unfold location.
      rewrite (read_field_Some _ _ _ _ _ Ho Hchild). cbn [attr_of].
      by apply (getattr_unhooked _ _ _ oc).
    + rewrite (getattr_id_at_location _ _ _ _ Ho Hhooked). unfold id_at_location.
      rewrite (read_field_Some _ _ _ _ _ Ho Hchild). cbn [attr_of].
      by apply (getattr_unhooked _ _ _ oc).
  - intros v. split; cbn [instance_setattr]; by rewrite Ho, Hhooked.
Qed.

Lemma location_forwards_to_child_witness :
  instance_getattr 2 wrapper_heap 0 "location"
    = Some (read_field wrapper_heap 1 "location", wrapper_heap)
  ∧ instance_getattr 2 wrapper_heap 0 "id_at_location"
    = Some (read_field wrapper_heap 1 "id_at_location", wrapper_heap).
Proof.
  assert (H0 : wrapper_heap !! 0%nat = Some wrapper_tensor) by (vm_compute; reflexivity).
  assert (H1 : wrapper_heap !! 1%nat = Some pointer_child) by (vm_compute; reflexivity).
  assert (Hc : fields wrapper_tensor !! "child" = Some (ARef 1))
    by (vm_compute; reflexivity).
  exact (proj1 (proj2 (location_forwards_to_child wrapper_heap 0 wrapper_tensor 0
                         H0 eq_refl))
           1%nat pointer_child Hc H1 eq_refl).
Defined.

(** X19.  Reading [id] on a tensor that has neither [_is_wrapper] nor [_id]
    raises [AttributeError] for [_id], and the failed read is not free of
    effects: it leaves [_is_wrapper = False] on the tensor. *)
Theorem id_read_before_assignment_raises h self o (d : nat) :
  h !! self = Some o →
  hooked o = true →
  fields o !! "_is_wrapper" = None →
  fields o !! "_id" = None →
  instance_getattr (S d) h self "id"
    = Some (Err (AttributeError "_id"),
            write_field h self "_is_wrapper" (ABool false))
  ∧ read_field (write_field h self "_is_wrapper" (ABool false)) self "_is_wrapper"
    = Ok (ABool false).
Proof.
  intros Ho Hhooked Hw Hid. split.
  - rewrite (getattr_id _ _ _ _ Ho Hhooked). unfold id_getter.
    rewrite (is_wrapper_unset _ _ _ Ho Hw). cbn [truthy].
    rewrite read_write_field_ne by done.
    by rewrite (read_field_None _ _ _ _ Ho Hid).
  - by apply (read_write_field_eq _ _ o).
Qed.

Lemma id_read_before_assignment_raises_witness :
  instance_getattr 1 fresh_heap 0 "id"
    = Some (Err (AttributeError "_id"),
            write_field fresh_heap 0 "_is_wrapper" (ABool false))
  ∧ read_field (write_field fresh_heap 0 "_is_wrapper" (ABool false)) 0 "_is_wrapper"
    = Ok (ABool false).
Proof.
  assert (H0 : fresh_heap !! 0%nat = Some fresh_tensor) by (vm_compute; reflexivity).
  assert (Hw : fields fresh_tensor !! "_is_wrapper" = None) by (vm_compute; reflexivity).
  assert (Hi : fields fresh_tensor !! "_id" = None) by (vm_compute; reflexivity).
  exact (id_read_before_assignment_raises fresh_heap 0 fresh_tensor 0 H0 eq_refl Hw Hi).
Defined.

End InstanceFacts.

(** ** Hooking a syft tensor type *)

Section HookSyftFacts.

Variable dir_object : list string.
Variable new_TorchAttributes : torch_attributes.

(** X20.  Hooking a syft tensor type returns whatever the type is, and
    after a first hook it has nothing left to do for the pointer type:
    [_hook_syft_tensor] on [PointerTensor], for any hook and any
    [tensor_type], changes no binding of any class and nothing of the module
    state, since the constructor has installed the reference type on the
    pointer type already. *)
Theorem hook_syft_tensor_after_first_hook (ident : nat) (supplied : option worker)
    (is_client verbose : bool) (w : world) :
  torch_hooked w = false →
  is_Some (classes w torch_Tensor !! "__init__")
    ∨ is_Some (classes w torch_Tensor !! "native___init__") →
  ∃ h w',
    __init__ dir_object new_TorchAttributes ident supplied is_client verbose w
      = (Ok h, w') ∧
    ∀ self tensor_type, ∃ w'',
      _hook_syft_tensor self tensor_type PointerTensor w' = (Ok (), w'') ∧
      same_modules w' w'' ∧
      (∀ t name, classes w'' t !! name = classes w' t !! name).
Proof.
  intros Hflag Hinit.
  destruct (first_hook_spec dir_object new_TorchAttributes ident supplied is_client
              (set_torch_hooked w) Hinit)
    as (l & w' & Hrun & _ & _ & _ & _ & HT & HP & _).
  eexists _, w'. split; [unfold __init__; rewrite Hflag; exact Hrun|].
  intros self tensor_type. unfold _hook_syft_tensor.
  destruct (add_methods_spec PointerTensor TorchTensor w'
              (add_methods_from_TorchTensor_bound w'))
    as (w'' & Hadd & Hmod & Hother & _ & Hset).
  exists w''. split; [exact Hadd|]. split; [exact Hmod|].
  intros t name. destruct (decide (PointerTensor = t)) as [<-|Hne];
    [|by apply Hother].
  rewrite Hset.
  assert (classes w' TorchTensor = classes (set_torch_hooked w) TorchTensor) as HTeq
    by (apply map_eq; exact HT).
  rewrite HP, HTeq.
  by destruct (decide _).
Qed.

End HookSyftFacts.

Lemma hook_syft_tensor_after_first_hook_witness :
  ∃ h w',
    __init__ sample_dir_object (TorchAttributes ["__repr__"; "send"]) 7 None true true
             sample_world = (Ok h, w') ∧
    ∃ w'',
      _hook_syft_tensor h torch_Tensor PointerTensor w' = (Ok (), w'') ∧
      (∀ t name, classes w'' t !! name = classes w' t !! name).
Proof.
  destruct (hook_syft_tensor_after_first_hook sample_dir_object
              (TorchAttributes ["__repr__"; "send"]) 7 None true true sample_world)
    as (h & w' & Hrun & Hre).
  - reflexivity.
  - left. vm_compute. eauto.
  - exists h, w'. split; [exact Hrun|].
    destruct (Hre h torch_Tensor) as (w'' & Hadd & _ & Hsame).
    exists w''. split; [exact Hadd|exact Hsame].
Defined.

(** ** The replacement constructor *)

Section ConstructorFacts.

Variable native___init__ :
  list value → list (string * value) → gmap string aval → result (gmap string aval).
Variable new_id : aval.
Variable worker_object : worker → nat.

Implicit Types (h : gmap nat instance) (o : instance) (p : process).

Lemma setattr_owner d h obj o v :
  h !! obj = Some o → hooked o = true →
  instance_setattr (S d) h obj "owner" v = Some (Ok (), write_field h obj "owner" v).
Proof. intros Ho Hh. cbn [instance_setattr]. by rewrite Ho, Hh. Qed.

Lemma setattr_dangling d h obj name v :
  h !! obj = None →
  instance_setattr (S d) h obj name v = Some (Err (AttributeError name), h).
Proof. intros Ho. cbn [instance_setattr]. by rewrite Ho. Qed.

(** The native construction replaces the fields of the instance and nothing
    else. *)
Lemma native_construction_spec tt args kwargs h cls h0 :
  native_construction native___init__ tt args kwargs h cls = Ok h0 →
  (∀ other, other ≠ cls → h0 !! other = h !! other)
  ∧ (∀ o, h !! cls = Some o → ∃ o0, h0 !! cls = Some o0 ∧ hooked o0 = hooked o)
  ∧ (h !! cls = None → h0 !! cls = None).
Proof.
  unfold native_construction. destruct tt.
  - intros [= <-]. split; [done|]. split; [|done]. intros o Ho. by exists o.
  - destruct (h !! cls) as [o|] eqn:Ho; [|done].
    destruct (native___init__ args kwargs (fields o)) as [fs|e]; [|done].
    intros [= <-]. split; [|split; [|done]].
    + intros other Hne. by rewrite lookup_insert_ne.
    + intros o1 [= <-]. eexists. by rewrite lookup_insert_eq.
Qed.

Lemma native_construction_returns tt args kwargs h cls o :
  h !! cls = Some o →
  tt = true ∨ is_Ok (native___init__ args kwargs (fields o)) →
  ∃ h0, native_construction native___init__ tt args kwargs h cls = Ok h0.
Proof.
  intros Ho [->|Hok]; unfold native_construction; [by eexists|].
  destruct tt; [by eexists|]. rewrite Ho.
  destruct (native___init__ args kwargs (fields o)); [by eexists|done].
Qed.

(** Layering the metadata: the three assignments return at any depth from
    one on, and write the instance only.  On an instance of the hooked type
    the flag is stored first, so the identity token stays on the instance
    instead of being forwarded to a child. *)
Lemma metadata_layered d h cls hook_self id :
  ∃ r h1,
    assign_all (S d) h cls (identity_metadata new_id worker_object hook_self id)
      = Some (r, h1)
    ∧ (∀ other, other ≠ cls → h1 !! other = h !! other)
    ∧ (∀ o, h !! cls = Some o → hooked o = true →
         r = Ok ()
         ∧ ∃ o', h1 !! cls = Some o'
             ∧ hooked o' = true
             ∧ fields o' !! "_is_wrapper" = Some (ABool false)
             ∧ fields o' !! "_id" = Some (id_token new_id id)
             ∧ fields o' !! "owner" = Some (owner_of worker_object hook_self)).
Proof.
  unfold identity_metadata. cbn [assign_all].
  destruct (h !! cls) as [o|] eqn:Ho.
  - destruct (hooked o) eqn:Hh.
    + pose proof (lookup_write_field_eq h cls o "_is_wrapper" (ABool false) Ho) as Ho1.
      set (h1 := write_field h cls "_is_wrapper" (ABool false)) in *.
      set (o1 := Instance (hooked o) (<["_is_wrapper" := ABool false]> (fields o))) in *.
      assert (Hh1 : hooked o1 = true) by exact Hh.
      pose proof (lookup_write_field_eq h1 cls o1 "_id" (id_token new_id id) Ho1) as Ho2.
      set (h2 := write_field h1 cls "_id" (id_token new_id id)) in *.
      set (o2 := Instance (hooked o1) (<["_id" := id_token new_id id]> (fields o1))) in *.
      assert (Hh2 : hooked o2 = true) by exact Hh.
      pose proof (lookup_write_field_eq h2 cls o2 "owner"
                    (owner_of worker_object hook_self) Ho2) as Ho3.
      rewrite (setattr_is_wrapper _ _ _ _ _ Ho Hh). fold h1.
      rewrite (setattr_id _ _ _ _ _ Ho1 Hh1). unfold id_setter.
      rewrite (is_wrapper_set h1 cls o1 (ABool false) Ho1)
        by (subst o1; cbn [fields]; by rewrite lookup_insert_eq).
      cbn [truthy]. fold h2.
      rewrite (setattr_owner _ _ _ _ _ Ho2 Hh2).
      eexists _, _. split; [reflexivity|]. split.
      * intros other Hne. unfold h2, h1.
        rewrite !lookup_write_field_ne by done. reflexivity.
      * intros o' [= <-] _. split; [done|]. eexists. split; [exact Ho3|].
        subst o2 o1. cbn [hooked fields]. split; [exact Hh|].
        rewrite lookup_insert_ne, lookup_insert_ne, lookup_insert_eq by done.
        rewrite (lookup_insert_ne _ "owner" "_id"), lookup_insert_eq by done.
        by rewrite lookup_insert_eq.
    + rewrite (setattr_unhooked _ _ _ _ "is_wrapper" _ Ho Hh).
      pose proof (lookup_write_field_eq h cls o "is_wrapper" (ABool false) Ho) as Ho1.
      rewrite (setattr_unhooked _ _ _ _ "id" _ Ho1 Hh).
      pose proof (lookup_write_field_eq _ cls _ "id" (id_token new_id id) Ho1) as Ho2.
      rewrite (setattr_unhooked _ _ _ _ "owner" _ Ho2 Hh).
      eexists _, _. split; [reflexivity|]. split.
      * intros other Hne. rewrite !lookup_write_field_ne by done. reflexivity.
      * intros o' [= <-] Hh'. congruence.
  - rewrite (setattr_dangling _ _ _ _ _ Ho).
    eexists _, _. split; [reflexivity|]. split; [done|]. intros o' [=].
Qed.

(** C10.  The replacement constructor accepts [owner], [id] and [register],
    and [owner] and [register] have no effect: the call returns the same
    result in the same state whatever they are.  Construction changes the
    instance under construction only: the module state, the global worker
    and the class tables with it, is as before, and so is every other
    object, the objects of the workers included, so nothing is registered
    with any worker.  On an instance of the hooked type whose native
    construction succeeds or is skipped, the call succeeds and leaves the
    identity metadata on the instance: the flag, the identity token, and as
    owner the local worker of the hook, not the [owner] argument. *)
Theorem new_init_ignores_owner_and_register (d : nat) (hook_self : hook_obj)
    (torch_tensor : bool) (cls : nat) (args : list value)
    (owner : option worker) (id : option Z) (register : bool)
    (kwargs : list (string * value)) (p : process) :
  ∃ r p',
    new___init__ native___init__ new_id worker_object (S d) hook_self torch_tensor
                 cls args owner id register kwargs p = Some (r, p')
    ∧ (∀ owner' register',
         new___init__ native___init__ new_id worker_object (S d) hook_self torch_tensor
                      cls args owner' id register' kwargs p = Some (r, p'))
    ∧ modules p' = modules p
    ∧ (∀ other, other ≠ cls → heap p' !! other = heap p !! other)
    ∧ (∀ wk, worker_object wk ≠ cls →
         heap p' !! worker_object wk = heap p !! worker_object wk)
    ∧ (∀ o, heap p !! cls = Some o → hooked o = true →
         torch_tensor = true ∨ is_Ok (native___init__ args kwargs (fields o)) →
         r = Ok ()
         ∧ ∃ o', heap p' !! cls = Some o'
             ∧ fields o' !! "_is_wrapper" = Some (ABool false)
             ∧ fields o' !! "_id" = Some (id_token new_id id)
             ∧ fields o' !! "owner" = Some (owner_of worker_object hook_self)).
Proof.
  unfold new___init__, initialize_tensor.
  destruct (native_construction native___init__ torch_tensor args kwargs (heap p) cls)
    as [h0|e] eqn:Hn.
  - destruct (native_construction_spec _ _ _ _ _ _ Hn) as (Hfr0 & Hcls0 & _).
    destruct (metadata_layered d h0 cls hook_self id) as (r & h1 & Hrun & Hfr & Hmeta).
    rewrite Hrun. exists r, (Process (modules p) h1). cbn [modules heap].
    assert (Hframe : ∀ other, other ≠ cls → h1 !! other = heap p !! other).
    { intros other Hne. rewrite Hfr by done. by apply Hfr0. }
    split; [done|]. split; [done|]. split; [done|]. split; [exact Hframe|].
    split; [intros wk; apply Hframe|].
    intros o Ho Hh _. destruct (Hcls0 o Ho) as (o0 & Ho0 & Hh0).
    destruct (Hmeta o0 Ho0) as (Hr & o' & Ho' & _ & Hw & Hid & Hown); [congruence|].
    split; [exact Hr|]. by exists o'.
  - exists (Err e), p.
    split; [done|]. split; [done|]. split; [done|]. split; [done|]. split; [done|].
    intros o Ho _ Hok.
    destruct (native_construction_returns _ _ _ _ _ _ Ho Hok) as [h0 Hh0]. congruence.
Qed.

End ConstructorFacts.

Lemma new_init_ignores_owner_and_register_witness :
  ∃ p',
    new___init__ refusing_native___init__ ANone worker_at 1
                 (HookObj 7 (Some (hook_worker 7 true None)) None None) true
                 0 [VInt 3] (Some (Worker "bob" false None)) (Some 42%Z) true []
                 sample_process = Some (Ok (), p')
    ∧ modules p' = sample_world
    ∧ heap p' !! 5%nat = heap sample_process !! 5%nat
    ∧ heap p' !! 6%nat = heap sample_process !! 6%nat
    ∧ ∃ o', heap p' !! 0%nat = Some o'
        ∧ fields o' !! "_id" = Some (AInt 42)
        ∧ fields o' !! "owner" = Some (ARef 5).
Proof.
  destruct (new_init_ignores_owner_and_register refusing_native___init__ ANone worker_at 0
              (HookObj 7 (Some (hook_worker 7 true None)) None None) true
              0 [VInt 3] (Some (Worker "bob" false None)) (Some 42%Z) true []
              sample_process)
    as (r & p' & Hrun & _ & Hm & Hfr & _ & Hmeta).
  assert (H0 : heap sample_process !! 0%nat = Some fresh_tensor)
    by (vm_compute; reflexivity).
  destruct (Hmeta fresh_tensor H0 eq_refl (or_introl eq_refl))
    as (-> & o' & Ho' & _ & Hid & Hown).
  exists p'. split; [exact Hrun|]. split; [exact Hm|].
  split; [apply Hfr; discriminate|]. split; [apply Hfr; discriminate|].
  exists o'. split; [exact Ho'|]. split; [exact Hid|exact Hown].
Defined.

(** With the native construction run and refusing the call, the constructor
    raises before any metadata is layered, and the state is untouched. *)
Example new_init_native_refusal :
  new___init__ refusing_native___init__ ANone worker_at 1
               (HookObj 7 (Some (hook_worker 7 true None)) None None) false
               0 [VInt 3] None (Some 42%Z) true [] sample_process
    = Some (Err TypeError, sample_process).
Proof. reflexivity. Qed.
